(** * pauxy estimators: mixed, back-propagated and ITCF accumulators

    A shallow embedding of [pauxy/estimators.py] and of the properties its
    specification states about it.

    - numpy arrays are MathComp matrices over a closed numeric field [C]
      (numpy's [complex]); arithmetic is exact.  A value with an [inf] or
      [nan] component, which numpy produces when a divisor is zero, is the
      element [NonFinite] of [np T].
    - Python exceptions are the [Raise] branch of [result].
    - methods that mutate [self] or a walker take the old state and return
      the new one.
    - collaborators that live outside [estimators.py] (propagation, walkers,
      field-configuration stores, MPI, HDF5) are section variables. *)

From Stdlib Require Import ZArith String Permutation.
From HB Require Import structures.
From mathcomp Require Import boot order.
From mathcomp Require Import ssralg ssrnum ssrint matrix mxalgebra.
From mathcomp Require Import algC.

Set Implicit Arguments.
Unset Strict Implicit.
Unset Printing Implicit Defensive.

Import GRing.Theory Num.Theory.
Local Open Scope ring_scope.

(** ** Python: exceptions and integer arithmetic *)

Module Py.

Inductive exn : Set :=
  | ZeroDivisionError
  | IndexError
  | NameError
  | TypeError
  | ValueError
  | LinAlgError.

Inductive result (T : Type) : Type :=
  | Ok (x : T)
  | Raise (e : exn).

Arguments Ok {T} x.
Arguments Raise {T} e.

Definition bind {T U : Type} (c : result T) (k : T -> result U) : result U :=
  match c with
  | Ok x => k x
  | Raise e => Raise e
  end.

(** [for x in xs: acc = body(acc, x)], where the body may raise. *)
Fixpoint for_each {T S : Type} (body : S -> T -> result S) (xs : seq T)
  (acc : S) : result S :=
  match xs with
  | [::] => Ok acc
  | x :: xs' => bind (body acc x) (for_each body xs')
  end.

(** [a % b] and [a // b] on Python integers: floored, and
    [ZeroDivisionError] for a zero divisor. *)
Definition mod_ (a b : Z) : result Z :=
  if Z.eqb b Z0 then Raise ZeroDivisionError else Ok (Z.modulo a b).

Definition floordiv (a b : Z) : result Z :=
  if Z.eqb b Z0 then Raise ZeroDivisionError else Ok (Z.div a b).

(** [enumerate(xs)] *)
Definition enumerate {T : Type} (xs : seq T) : seq (nat * T) :=
  zip (iota 0 (size xs)) xs.

End Py.

Import Py.

Notation "x <- c ;; k" := (Py.bind c (fun x => k))
  (at level 100, c at next level, right associativity).

(** ** numpy: values that may be non-finite *)

(** Arithmetic is exact, over a closed field, in place of complex doubles:
    rounding is not modelled.  What is kept of IEEE arithmetic is that a
    division by zero does not raise: it yields [inf] or [nan], here the one
    value [NonFinite], and every operation on [NonFinite] is [NonFinite]
    again.  This is exact whenever the divisor is finite; a finite value
    divided by [inf], which numpy evaluates to zero, is [NonFinite] here. *)
Inductive np (T : Type) : Type :=
  | Val (x : T)
  | NonFinite.

Arguments Val {T} x.
Arguments NonFinite {T}.

Definition np_map {T U : Type} (f : T -> U) (x : np T) : np U :=
  match x with
  | Val a => Val (f a)
  | NonFinite => NonFinite
  end.

Definition np_map2 {T U V : Type} (f : T -> U -> V) (x : np T) (y : np U)
  : np V :=
  match x, y with
  | Val a, Val b => Val (f a b)
  | _, _ => NonFinite
  end.

Section NumpyScalars.

Variable C : numClosedFieldType.

Definition np_add (x y : np C) : np C := np_map2 +%R x y.
Definition np_sub (x y : np C) : np C := np_map2 (fun a b => a - b) x y.
Definition np_mul (x y : np C) : np C := np_map2 *%R x y.

(** [x / y]: numpy warns and yields [inf] or [nan] when [y] is zero. *)
Definition np_div (x y : np C) : np C :=
  match x, y with
  | Val a, Val b => if b == 0 then NonFinite else Val (a / b)
  | _, _ => NonFinite
  end.

(** [A / d] for an array [A] and a scalar [d]. *)
Definition np_div_mx m k (A : np 'M[C]_(m, k)) (d : C) : np 'M[C]_(m, k) :=
  match A with
  | Val M => if d == 0 then NonFinite else Val (d^-1 *: M)
  | NonFinite => NonFinite
  end.

Definition np_add_mx m k (A B : np 'M[C]_(m, k)) : np 'M[C]_(m, k) :=
  np_map2 +%R A B.

(** [A.real] *)
Definition real_part m k (A : 'M[C]_(m, k)) : 'M[C]_(m, k) :=
  map_mx (fun x => 'Re x) A.

End NumpyScalars.

(** ** The Green's-function kernel *)

Section Kernel.

Variable C : numClosedFieldType.

(** [A.conj().T] *)
Definition dagger m k (A : 'M[C]_(m, k)) : 'M[C]_(k, m) :=
  (map_mx Num.conj_op A)^T.

(** [scipy.linalg.inv]: [LinAlgError] on a singular matrix. *)
Definition inv k (M : 'M[C]_k) : result 'M[C]_k :=
  if M \in unitmx then Ok (invmx M) else Raise LinAlgError.

Definition gab m k (A B : 'M[C]_(m, k)) : result 'M[C]_m :=
  inv_O <- inv (dagger A *m B) ;;
  let GAB := B *m (inv_O *m dagger A) in
  Ok GAB.

Definition gab_mod m k (A B : 'M[C]_(m, k)) : result 'M[C]_(m, k) :=
  inv_O <- inv (dagger A *m B) ;;
  let GAB := B *m inv_O in
  Ok GAB.

(** The loop of [construct_multi_ghf_gab]: one Green's function and one
    overlap per determinant of the bra. *)
Fixpoint construct_multi_ghf_gab m k (A : seq 'M[C]_(m, k))
  (B : 'M[C]_(m, k)) : result (seq 'M[C]_m * seq C) :=
  match A with
  | [::] => Ok ([::], [::])
  | Aix :: A' =>
      inv_O <- inv (dagger Aix *m B) ;;
      rest <- construct_multi_ghf_gab A' B ;;
      Ok ((B *m (inv_O *m dagger Aix)) :: rest.1,
          (\det inv_O)^-1 :: rest.2)
  end.

(** Elementwise product of two one-dimensional arrays, with numpy's
    broadcasting of a length-one operand; [ValueError] for other shapes. *)
Definition mul_1d (xs ys : seq C) : result (seq C) :=
  if size xs == size ys then Ok [seq p.1 * p.2 | p <- zip xs ys]
  else if xs is [:: x] then Ok [seq x * y | y <- ys]
  else if ys is [:: y] then Ok [seq x * y | x <- xs]
  else Raise ValueError.

(** [numpy.einsum('i,ijk->jk', w, Gi)] *)
Definition einsum_i_ijk m (w : seq C) (Gi : seq 'M[C]_m)
  : result 'M[C]_m :=
  if size w == size Gi then Ok (\sum_(p <- zip w Gi) p.1 *: p.2)
  else if w is [:: x] then Ok (\sum_(G <- Gi) x *: G)
  else if Gi is [:: G] then Ok (\sum_(x <- w) x *: G)
  else Raise ValueError.

(** The builtin [max] of a sequence: [ValueError] when it is empty.  Which
    element numpy's ordering of complex numbers selects is left to
    [choose]. *)
Definition py_max (choose : C -> seq C -> C) (xs : seq C) : result C :=
  match xs with
  | [::] => Raise ValueError
  | x :: xs' => Ok (choose x xs')
  end.

Definition construct_multi_ghf_gab_back_prop (choose : C -> seq C -> C)
  m k (A : seq 'M[C]_(m, k)) (B : 'M[C]_(m, k)) (coeffs bp_weights : seq C)
  : result (np 'M[C]_m) :=
  r <- construct_multi_ghf_gab A B ;;
  let: (Gi, overlaps) := r in
  mw <- py_max choose bp_weights ;;
  mo <- py_max choose overlaps ;;
  scale <- py_max choose [:: mw; mo] ;;
  bc <- mul_1d bp_weights coeffs ;;
  bco <- mul_1d bc overlaps ;;
  if scale == 0 then
    (* every weight is non-finite, and so is every entry of G *)
    unused <- einsum_i_ijk bco Gi ;; Ok NonFinite
  else
    let full_weights := [seq x / scale | x <- bco] in
    let denom := \sum_(x <- full_weights) x in
    G <- einsum_i_ijk full_weights Gi ;;
    Ok (np_div_mx (Val G) denom).

End Kernel.

(** ** The local-energy kernel *)

Section LocalEnergy.

Variable C : numClosedFieldType.
Variable nbasis : nat.

(** The fields of the system object that the energy kernels read. *)
Record system : Type := System {
  name : string;
  T : 'M[C]_nbasis * 'M[C]_nbasis;
  U : C;
  h2e : 'I_nbasis -> 'I_nbasis -> 'I_nbasis -> 'I_nbasis -> C;
  ecore : C
}.

Definition local_energy_hubbard (sys : system)
  (G : 'M[C]_nbasis * 'M[C]_nbasis) : C * C * C :=
  let ke := \sum_i \sum_j ((T sys).1 i j * G.1 i j + (T sys).2 i j * G.2 i j) in
  let pe := \sum_i U sys * G.1 i i * G.2 i i in
  (ke + pe, ke, pe).

(** [numpy.einsum('ij,ji->', A, B)] *)
Definition einsum_ij_ji (A B : 'M[C]_nbasis) : C :=
  \sum_i \sum_j A i j * B j i.

(** [numpy.einsum('pqrs,pr,qs->', h, A, B)] *)
Definition einsum_pqrs_pr_qs (h : 'I_nbasis -> 'I_nbasis -> 'I_nbasis ->
  'I_nbasis -> C) (A B : 'M[C]_nbasis) : C :=
  \sum_p \sum_q \sum_r \sum_s h p q r s * A p r * B q s.

(** [numpy.einsum('pqrs,ps,qr->', h, A, B)] *)
Definition einsum_pqrs_ps_qr (h : 'I_nbasis -> 'I_nbasis -> 'I_nbasis ->
  'I_nbasis -> C) (A B : 'M[C]_nbasis) : C :=
  \sum_p \sum_q \sum_r \sum_s h p q r s * A p s * B q r.

Definition local_energy_generic (sys : system)
  (G : 'M[C]_nbasis * 'M[C]_nbasis) : C * C * C :=
  let e1 := einsum_ij_ji (T sys).1 G.1 + einsum_ij_ji (T sys).2 G.2 in
  let euu := 2%:R^-1 * (einsum_pqrs_pr_qs (h2e sys) G.1 G.1 -
                        einsum_pqrs_ps_qr (h2e sys) G.1 G.1) in
  let edd := 2%:R^-1 * (einsum_pqrs_pr_qs (h2e sys) G.2 G.2 -
                        einsum_pqrs_ps_qr (h2e sys) G.2 G.2) in
  let eud := 2%:R^-1 * einsum_pqrs_pr_qs (h2e sys) G.1 G.2 in
  let edu := 2%:R^-1 * einsum_pqrs_pr_qs (h2e sys) G.2 G.1 in
  let e2 := euu + edd + eud + edu in
  (e1 + e2 + ecore sys, e1 + ecore sys, e2).

(** [numpy.einsum('lpr,lqs,pr,qs->', L, L, A, B)] and
    [numpy.einsum('lpr,lqs,ps,qr->', L, L, A, B)], for the list [L] of the
    Cholesky vectors, each a matrix. *)
Definition einsum_lpr_lqs_pr_qs (L : seq 'M[C]_nbasis) (A B : 'M[C]_nbasis)
  : C :=
  \sum_(Ll <- L) \sum_p \sum_q \sum_r \sum_s Ll p r * Ll q s * A p r * B q s.

Definition einsum_lpr_lqs_ps_qr (L : seq 'M[C]_nbasis) (A B : 'M[C]_nbasis)
  : C :=
  \sum_(Ll <- L) \sum_p \sum_q \sum_r \sum_s Ll p r * Ll q s * A p s * B q r.

(** [local_energy_generic_cholesky]; [chol_vecs] is the field
    [system.chol_vecs], which the record [system] does not carry. *)
Definition local_energy_generic_cholesky (sys : system)
  (chol_vecs : seq 'M[C]_nbasis) (G : 'M[C]_nbasis * 'M[C]_nbasis)
  : C * C * C :=
  let e1 := einsum_ij_ji (T sys).1 G.1 + einsum_ij_ji (T sys).2 G.2 in
  let euu := 2%:R^-1 * (einsum_lpr_lqs_pr_qs chol_vecs G.1 G.1 -
                        einsum_lpr_lqs_ps_qr chol_vecs G.1 G.1) in
  let edd := 2%:R^-1 * (einsum_lpr_lqs_pr_qs chol_vecs G.2 G.2 -
                        einsum_lpr_lqs_ps_qr chol_vecs G.2 G.2) in
  let eud := 2%:R^-1 * einsum_lpr_lqs_pr_qs chol_vecs G.1 G.2 in
  let edu := 2%:R^-1 * einsum_lpr_lqs_pr_qs chol_vecs G.2 G.1 in
  let e2 := euu + edd + eud + edu in
  (e1 + e2 + ecore sys, e1 + ecore sys, e2).

(** [numpy.einsum('i,ikl,kl->', w, Gi, Text)] and
    [numpy.einsum('j,jk->', w, g)], with numpy's broadcasting of a
    length-one first axis; [ValueError] for other mismatched lengths. *)
Definition einsum_i_ikl_kl m (w : seq C) (Gi : seq 'M[C]_m)
  (Text : 'M[C]_m) : result C :=
  let contract (G : 'M[C]_m) := \sum_k \sum_l G k l * Text k l in
  if size w == size Gi then Ok (\sum_(p <- zip w Gi) p.1 * contract p.2)
  else if w is [:: x] then Ok (\sum_(G <- Gi) x * contract G)
  else if Gi is [:: G] then Ok (\sum_(x <- w) x * contract G)
  else Raise ValueError.

Definition einsum_j_jk m (w : seq C) (g : seq 'rV[C]_m) : result C :=
  let total (r : 'rV[C]_m) := \sum_k r 0 k in
  if size w == size g then Ok (\sum_(p <- zip w g) p.1 * total p.2)
  else if w is [:: x] then Ok (\sum_(r <- g) x * total r)
  else if g is [:: r] then Ok (\sum_(x <- w) x * total r)
  else Raise ValueError.

(** [local_energy_ghf]; [Text] is the field [system.Text], which the record
    [system] does not carry.  The quotients by [denom] are numpy's. *)
Definition local_energy_ghf (sys : system) (Text : 'M[C]_(nbasis + nbasis))
  (Gi : seq 'M[C]_(nbasis + nbasis)) (weights : seq C) (denom : C)
  : result (np C * np C * np C) :=
  k <- einsum_i_ikl_kl weights Gi Text ;;
  let ke := np_div (Val k) (Val denom) in
  let gdiag :=
    map (fun G : 'M[C]_(nbasis + nbasis) =>
           \row_i (ulsubmx G i i * drsubmx G i i
                   - dlsubmx G i i * ursubmx G i i)) Gi in
  p <- einsum_j_jk weights gdiag ;;
  let pe := np_div (Val (U sys * p)) (Val denom) in
  Ok (np_add ke pe, ke, pe).

(** [local_energy] on an array [G] of shape [(2, nbasis, nbasis)].  Its
    Hubbard branch calls the four-argument [local_energy_ghf] with two
    arguments when the last axis has length [2*nbasis]. *)
Definition local_energy (sys : system) (G : 'M[C]_nbasis * 'M[C]_nbasis)
  : result (C * C * C) :=
  let ghf := (nbasis == 2 * nbasis)%N in
  if String.eqb (name sys) "Hubbard" then
    if ghf then Raise TypeError else Ok (local_energy_hubbard sys G)
  else Ok (local_energy_generic sys G).

End LocalEnergy.

(** ** Indices into the flat estimator array *)

Module EstimatorEnum.
Section Names.

Variable tail : nat.

Definition reg (k : 'I_7) : 'I_(7 + tail) := lshift tail k.

Definition weight : 'I_(7 + tail) := reg (@Ordinal 7 0 isT).
Definition enumer : 'I_(7 + tail) := reg (@Ordinal 7 1 isT).
Definition edenom : 'I_(7 + tail) := reg (@Ordinal 7 2 isT).
Definition eproj : 'I_(7 + tail) := reg (@Ordinal 7 3 isT).
Definition ekin : 'I_(7 + tail) := reg (@Ordinal 7 4 isT).
Definition epot : 'I_(7 + tail) := reg (@Ordinal 7 5 isT).
Definition time : 'I_(7 + tail) := reg (@Ordinal 7 6 isT).

End Names.
End EstimatorEnum.

(** [a[i] = x] and [a[i] += x] on a one-dimensional array. *)
Definition set_at (T : Type) m (a : 'rV[T]_m) (i : 'I_m) (x : T) : 'rV[T]_m :=
  \row_j (if j == i then x else a 0 j).

Definition add_at (C : numClosedFieldType) m (a : 'rV[C]_m) (i : 'I_m)
  (x : C) : 'rV[C]_m :=
  set_at a i (a 0 i + x).

(** [eproj(estimates, enum)]: the quotient is numpy's, and its real part is
    returned. *)
Definition eproj (C : numClosedFieldType) tail
  (estimates : 'rV[C]_(7 + tail)) : np C :=
  let numerator := estimates 0 (EstimatorEnum.enumer tail) in
  let denominator := estimates 0 (EstimatorEnum.edenom tail) in
  np_map (fun z => 'Re z) (np_div (Val numerator) (Val denominator)).

(** ** The output helper *)

(** [H5EstimatorHelper]: [store] is the dataset, written by index. *)
Record H5EstimatorHelper (D : Type) : Type := H5Helper {
  store : nat -> option D;
  index : nat
}.

Definition h5_create (D : Type) : H5EstimatorHelper D :=
  H5Helper (fun _ => None) 0.

Definition push (D : Type) (h : H5EstimatorHelper D) (data : D)
  : H5EstimatorHelper D :=
  H5Helper (fun i => if i == index h then Some data else store h i)
    (index h).+1.

(** ** The mixed estimator *)

Module Mixed.
Section Accumulator.

Variable C : numClosedFieldType.

(** [gsize] is [trial.G.size]; the estimator array has [nreg = 7]
    registers followed by the flattened density matrix. *)
Variable gsize : nat.

Notation buffer := 'rV[C]_(7 + gsize).

(** The walker population, the trial state and the system are collaborators:
    only what [update] reads of them appears here. *)
Variables (walker trial_t system_t : Type).
Variable weight : walker -> C.
Variable ot : walker -> C.
Variable G_flatten : walker -> 'rV[C]_gsize.
Variable greens_function : trial_t -> walker -> walker.
Variable local_energy : system_t -> walker -> C * C * C.

Record state : Type := State {
  rdm : bool;
  estimates : buffer;
  global_estimates : buffer;
  output : H5EstimatorHelper 'rV[np C]_7;
  dm_output : H5EstimatorHelper 'rV[np C]_gsize
}.

(** One iteration of the loop of [update] with importance sampling. *)
Definition accumulate_walker (rdm : bool) (sys : system_t) (es : buffer)
  (w : walker) : buffer :=
  let: (E, T, V) := local_energy sys w in
  let es := add_at es (EstimatorEnum.enumer gsize) (weight w * 'Re E) in
  let es := add_at (add_at es (EstimatorEnum.ekin gsize) (weight w * 'Re T))
              (EstimatorEnum.epot gsize) (weight w * 'Re V) in
  let es := add_at es (EstimatorEnum.weight gsize) (weight w) in
  let es := add_at es (EstimatorEnum.edenom gsize) (weight w) in
  if rdm then
    row_mx (lsubmx es) (rsubmx es + weight w *: real_part (G_flatten w))
  else es.

(** One iteration of the loop of [update] in free projection. *)
Definition accumulate_walker_fp (sys : system_t) (es : buffer) (w : walker)
  : buffer :=
  let es := add_at es (EstimatorEnum.enumer gsize)
              (weight w * (local_energy sys w).1.1 * ot w) in
  let es := add_at es (EstimatorEnum.weight gsize) (weight w) in
  add_at es (EstimatorEnum.edenom gsize) (weight w * ot w).

Definition update (self : state) (sys : system_t) (trial : trial_t)
  (psi : seq walker) (free_projection : bool) : state * seq walker :=
  let walkers := [seq greens_function trial w | w <- psi] in
  let es :=
    if ~~ free_projection then
      foldl (accumulate_walker (rdm self) sys) (estimates self) walkers
    else
      foldl (accumulate_walker_fp sys) (estimates self) walkers in
  (State (rdm self) es (global_estimates self) (output self)
     (dm_output self), walkers).

(** The sum that the specification describes: what one walker adds to the
    estimator array, with importance sampling and in free projection. *)
Definition walker_term (rdm : bool) (sys : system_t) (w : walker) : buffer :=
  let: (E, T, V) := local_energy sys w in
  (weight w * 'Re E) *: delta_mx 0 (EstimatorEnum.enumer gsize)
  + (weight w * 'Re T) *: delta_mx 0 (EstimatorEnum.ekin gsize)
  + (weight w * 'Re V) *: delta_mx 0 (EstimatorEnum.epot gsize)
  + weight w *: delta_mx 0 (EstimatorEnum.weight gsize)
  + weight w *: delta_mx 0 (EstimatorEnum.edenom gsize)
  + (if rdm then row_mx 0 (weight w *: real_part (G_flatten w)) else 0).

Definition walker_term_fp (sys : system_t) (w : walker) : buffer :=
  (weight w * (local_energy sys w).1.1 * ot w)
    *: delta_mx 0 (EstimatorEnum.enumer gsize)
  + weight w *: delta_mx 0 (EstimatorEnum.weight gsize)
  + (weight w * ot w) *: delta_mx 0 (EstimatorEnum.edenom gsize).

(** [zero], with the reading [now] of [time.time()]. *)
Definition zero (self : state) (now : C) : state :=
  State (rdm self) (set_at 0 (EstimatorEnum.time gsize) now) 0
    (output self) (dm_output self).

Definition projected_energy (self : state) : np C :=
  let numerator := estimates self 0 (EstimatorEnum.enumer gsize) in
  let denominator := estimates self 0 (EstimatorEnum.edenom gsize) in
  np_map (fun z => 'Re z) (np_div (Val numerator) (Val denominator)).

(** The communicator as one process sees it: its rank and the arrays the
    other processes send to the reduction. *)
Record communicator : Type := Comm {
  rank : nat;
  others : seq 'rV[np C]_(7 + gsize)
}.

(** [comm.Reduce(send, recv, op=MPI.SUM)]: the root receives the sum. *)
Definition Reduce (comm : communicator) (send recv : 'rV[np C]_(7 + gsize))
  : 'rV[np C]_(7 + gsize) :=
  if rank comm == 0%N then foldl (fun a b => map2_mx (@np_add C) a b) send (others comm)
  else recv.

(** A communicator on which this process emits and the other processes
    contribute nothing to the weight, numerator and denominator. *)
Definition idle_root (comm : option communicator) : Prop :=
  match comm with
  | None => True
  | Some c =>
      rank c = 0%N /\
      forall b, List.In b (others c) ->
        [/\ b 0 (EstimatorEnum.weight gsize) = Val 0, b 0 (EstimatorEnum.enumer gsize) = Val 0
          & b 0 (EstimatorEnum.edenom gsize) = Val 0]
  end.

(** What [print_step] writes on the root: the printed line, and the rows
    pushed to the two datasets. *)
Record emission : Type := Emission {
  printed : 'rV[np C]_7;
  row : 'rV[np C]_7;
  dm_row : option 'rV[np C]_gsize
}.

(** The statements of [print_step] that normalise the local array, up to
    the reduction: the array as it is sent, and [denom]. *)
Definition normalise (estimates : buffer) (nprocs nmeasure : int) (now : C)
  : 'rV[np C]_(7 + gsize) * np C :=
  let es : 'rV[np C]_(7 + gsize) := map_mx Val estimates in
  let denom :=
    np_div (np_mul (es 0 (EstimatorEnum.edenom gsize)) (Val nprocs%:~R))
      (Val nmeasure%:~R) in
  let es := set_at es (EstimatorEnum.eproj gsize)
              (np_div (es 0 (EstimatorEnum.enumer gsize)) denom) in
  let es := set_at (set_at es (EstimatorEnum.ekin gsize)
                      (np_div (es 0 (EstimatorEnum.ekin gsize)) denom))
              (EstimatorEnum.epot gsize)
              (np_div (es 0 (EstimatorEnum.epot gsize)) denom) in
  let es := set_at es (EstimatorEnum.time gsize)
              (np_div (np_sub (Val now) (es 0 (EstimatorEnum.time gsize)))
                 (Val nprocs%:~R)) in
  (es, denom).

Definition print_step (self : state) (comm : option communicator)
  (nprocs : int) (step : int) (nmeasure : int) (now now' : C)
  : state * option emission :=
  let: (es, denom) := normalise (estimates self) nprocs nmeasure now in
  let global :=
    match comm with
    | Some c => Reduce c es (map_mx Val (global_estimates self))
    | None => es
    end in
  let on_root := if comm is Some c then rank c == 0%N else true in
  let em :=
    if on_root then
      Some (Emission
              (map_mx (fun x => np_div (np_map (fun z => 'Re z) x)
                                  (Val nmeasure%:~R)) (lsubmx global))
              (map_mx (fun x => np_div x (Val nmeasure%:~R)) (lsubmx global))
              (if rdm self then
                 Some (map_mx (fun x => np_div (np_div x denom)
                                          (Val nmeasure%:~R)) (rsubmx global))
               else None))
    else None in
  let self :=
    match em with
    | Some e =>
        State (rdm self) (estimates self) (global_estimates self)
          (push (output self) (row e))
          (if dm_row e is Some d then push (dm_output self) d
           else dm_output self)
    | None => self
    end in
  (zero self now', em).

End Accumulator.
End Mixed.

(** ** The back-propagation estimator *)

Module BackPropagation.
Section Accumulator.

Variable C : numClosedFieldType.
Variables nbasis nup ndown : nat.

(** A Slater determinant: the first [nup] columns are the up-spin orbitals. *)
Notation wfn := 'M[C]_(nbasis, nup + ndown).
Notation gsize := (nbasis * nbasis + nbasis * nbasis)%N.
Notation buffer := 'rV[np C]_(1 + (3 + gsize)).

(** The field-configuration store, the trial state and the propagator cache
    are collaborators. *)
Variables (field_configs_t config trial_t BT2_t : Type).
Variable get_block :
  field_configs_t -> seq config * seq (seq C) * seq (seq C).

Record walker : Type := Walker {
  weight : C;
  phi : wfn;
  phi_old : wfn;
  field_configs : field_configs_t
}.

(** [psi.copy_historic_wfn()] and [psi.copy_bp_wfn(psi_bp)] *)
Variable copy_historic_wfn : seq walker -> seq walker.
Variable copy_bp_wfn : seq walker -> seq walker -> seq walker.

(** The signature of the four routines of [pauxy.propagation] among which
    the constructor selects. *)
Definition back_propagate_t : Type :=
  system C nbasis -> seq walker -> trial_t -> Z -> BT2_t -> C -> seq walker.

Variable back_propagate_generic_uhf : back_propagate_t.
Variable back_propagate_ghf : back_propagate_t.
Variable back_propagate_generic : back_propagate_t.
Variable back_propagate_plain : back_propagate_t.

Inductive update_variant : Set := update_ghf_variant | update_uhf_variant.

Record state : Type := State {
  nmax : Z;
  rdm : bool;
  G : 'M[C]_nbasis * 'M[C]_nbasis;
  estimates : buffer;
  global_estimates : buffer;
  nstblz : Z;
  BT2 : BT2_t;
  (** [None], ["full"], or another configured value: a value that is not a
      string behaves like a string different from ["full"]. *)
  restore_weights : option string;
  dt : C;
  (** first axis of the output dataset, on the root process only *)
  output_rows : option Z;
  update : update_variant;
  back_propagate : back_propagate_t
}.


(** [row[0]] for a row of the factor tables *)
Definition item0 (r : seq C) : result C :=
  if r is x :: _ then Ok x else Raise IndexError.

Definition calculate_weight_factor (self : state) (walker : walker)
  : result (np C) :=
  let: (configs, cos_fac, weight_fac) := get_block (field_configs walker) in
  Py.for_each
    (fun (factor : np C) (wc : seq C * seq C) =>
       let: (w, c) := wc in
       w0 <- item0 w ;;
       let factor := np_mul factor (Val w0) in
       if restore_weights self is Some p then
         if String.eqb p "full" then
           c0 <- item0 c ;; Ok (np_div factor (Val c0))
         else Ok factor
       else Ok factor)
    (zip weight_fac cos_fac) (Val 1).

(** [numpy.append(energies, G.flatten())] *)
Definition append_energies (energies : C * C * C)
  (G : 'M[C]_nbasis * 'M[C]_nbasis) : 'rV[C]_(3 + gsize) :=
  let: (E, T, V) := energies in
  row_mx (\row_(j < 3) nth 0 [:: E; T; V] j) (row_mx (mxvec G.1) (mxvec G.2)).

(** The body of the loop of [update_uhf]; the loop state is [self.G],
    [self.estimates] and [denominator]. *)
Definition accumulate_walker (self : state) (sys : system C nbasis)
  (acc : 'M[C]_nbasis * 'M[C]_nbasis * buffer * np C)
  (pair : walker * walker)
  : result ('M[C]_nbasis * 'M[C]_nbasis * buffer * np C) :=
  let: (G, es, denominator) := acc in
  let: (wnm, wb) := pair in
  G0 <- gab (lsubmx (phi wb)) (lsubmx (phi_old wnm)) ;;
  let G := (G0^T, G.2) in
  G1 <- gab (rsubmx (phi wb)) (rsubmx (phi_old wnm)) ;;
  let G := (G.1, G1^T) in
  energies <- local_energy sys G ;;
  weight <- (if restore_weights self is Some _ then
               f <- calculate_weight_factor self wnm ;;
               Ok (np_mul (Val (weight wnm)) f)
             else Ok (Val (weight wnm))) ;;
  let denominator := np_add denominator weight in
  let es : buffer :=
    row_mx (lsubmx es)
      (map2_mx (@np_add C) (rsubmx es)
         (map_mx (fun x => np_mul weight (Val x))
            (append_energies energies G))) in
  Ok (G, es, denominator).

Definition update_uhf (self : state) (sys : system C nbasis) (qmc_dt : C)
  (trial : trial_t) (psi : seq walker) (step : Z)
  : result (state * seq walker) :=
  r <- Py.mod_ step (nmax self) ;;
  if negb (Z.eqb r Z0) then Ok (self, psi)
  else
    let psi_bp :=
      back_propagate self sys psi trial (nstblz self) (BT2 self) qmc_dt in
    acc <- Py.for_each (accumulate_walker self sys) (zip psi psi_bp)
             (G self, estimates self, Val 0) ;;
    let: (G, es, denominator) := acc in
    let es := set_at es 0 (np_add (es 0 0) denominator) in
    let psi := copy_bp_wfn (copy_historic_wfn psi) psi_bp in
    Ok (State (nmax self) (rdm self) G es (global_estimates self)
          (nstblz self) (BT2 self) (restore_weights self) (dt self)
          (output_rows self) (update self) (back_propagate self), psi).

(** [zero] *)
Definition zero (self : state) : state :=
  State (nmax self) (rdm self) (G self) (const_mx (Val 0)) (const_mx (Val 0))
    (nstblz self) (BT2 self) (restore_weights self) (dt self)
    (output_rows self) (update self) (back_propagate self).

(** The two datasets that [__init__] creates on the root process. *)
Record outputs : Type := Outputs {
  output : H5EstimatorHelper 'rV[np C]_(1 + 3);
  dm_output : H5EstimatorHelper 'rV[np C]_gsize
}.

(** The communicator as one process sees it: its rank and the arrays the
    other processes send to the reduction. *)
Record communicator : Type := Comm {
  rank : nat;
  others : seq buffer
}.

(** [comm.Reduce(send, recv, op=MPI.SUM)]: the root receives the sum. *)
Definition Reduce (comm : communicator) (send recv : buffer) : buffer :=
  if rank comm == 0%N
  then foldl (fun a b => map2_mx (@np_add C) a b) send (others comm)
  else recv.

(** [print_step] calls [comm.Reduce] without testing [comm]: on
    [comm = None] the attribute lookup raises [AttributeError], which is
    kept apart from the exceptions of the arithmetic. *)
Inductive outcome (T : Type) : Type :=
  | Returned (r : result T)
  | AttributeError.

Arguments Returned {T} r.
Arguments AttributeError {T}.

(** [print_step]; [nreg] is 4, the registers [weight], [E], [T] and [V].
    The guard is [step != 0 and step % self.nmax == 0]: the remainder is
    not evaluated at step 0. *)
Definition print_step (self : state) (out : outputs)
  (comm : option communicator) (nprocs : int) (step : Z)
  : outcome (state * outputs) :=
  if Z.eqb step Z0 then Returned (Ok (self, out))
  else
    match Py.mod_ step (nmax self) with
    | Raise e => Returned (Raise e)
    | Ok r =>
        if Z.eqb r Z0 then
          match comm with
          | None => AttributeError
          | Some c =>
              let global := Reduce c (estimates self) (global_estimates self) in
              let per_proc (x : np C) := np_div x (Val nprocs%:~R) in
              let out :=
                if rank c == 0%N then
                  Outputs
                    (push (output out)
                       (map_mx per_proc
                          (row_mx (lsubmx global) (lsubmx (rsubmx global)))))
                    (if rdm self
                     then push (dm_output out)
                            (map_mx per_proc (rsubmx (rsubmx global)))
                     else dm_output out)
                else out in
              Returned (Ok (zero self, out))
          end
        else Returned (Ok (self, out))
    end.

End Accumulator.

Arguments Returned {T} r.
Arguments AttributeError {T}.

End BackPropagation.

(** [xs[i]] on a Python list: a negative index counts from the end. *)
Definition py_getitem (T : Type) (xs : seq T) (i : Z) : result T :=
  let len := Z.of_nat (size xs) in
  let j := if Z.ltb i Z0 then Z.add len i else i in
  if Z.ltb j Z0 || Z.leb len j then Raise IndexError
  else
    match xs with
    | [::] => Raise IndexError
    | x :: _ => Ok (nth x xs (Z.to_nat j))
    end.

(** ** The imaginary-time Green's function *)

Module ITCF.

Section Buffer.

Variable C : numClosedFieldType.
Variable nbasis : nat.

(** One time slice of [spgf]: the blocks [spgf[i,0,0]], [spgf[i,1,0]],
    [spgf[i,0,1]] and [spgf[i,1,1]] (spin, then greater or lesser). *)
Record blocks (B : Type) : Type := Slice {
  up_greater : B;
  down_greater : B;
  up_lesser : B;
  down_lesser : B
}.

Definition slice : Type := blocks (np 'M[C]_nbasis).

Definition zero_slice : slice := Slice (Val 0) (Val 0) (Val 0) (Val 0).

(** [numpy.zeros(shape=(nmax+1, 2, 2, nbasis, nbasis))] *)
Definition zeros (nmax : nat) : seq slice := nseq nmax.+1 zero_slice.

(** [spgf[idx] = f(spgf[idx])], [IndexError] past the last slice. *)
Definition update_slice (idx : nat) (f : slice -> slice) (spgf : seq slice)
  : result (seq slice) :=
  if (idx < size spgf)%N
  then Ok (set_nth zero_slice spgf idx (f (nth zero_slice spgf idx)))
  else Raise IndexError.

(** [spgf / denom] *)
Definition divide_slice (denom : C) (s : slice) : slice :=
  Slice (np_div_mx (up_greater s) denom) (np_div_mx (down_greater s) denom)
    (np_div_mx (up_lesser s) denom) (np_div_mx (down_lesser s) denom).

(** [block += weight * G.real] *)
Definition add_real (weight : C) (block : np 'M[C]_nbasis)
  (G : np 'M[C]_nbasis) : np 'M[C]_nbasis :=
  np_add_mx block (np_map (fun M => weight *: real_part M) G).

(** A block is row-constant when it is non-finite or all its rows are
    equal, as after [block += row] on a zeroed block; a slice is when its
    four blocks are. *)
Definition constant_rows (b : np 'M[C]_nbasis) : Prop :=
  forall M, b = Val M -> forall a a' j, M a j = M a' j.

Definition slice_constant_rows (s : slice) : Prop :=
  [/\ constant_rows (up_greater s), constant_rows (down_greater s),
      constant_rows (up_lesser s) & constant_rows (down_lesser s)].

End Buffer.

(** *** The two stabilization policies, over the methods that the
    constructor binds for a representation *)

Section Policies.

Variable C : numClosedFieldType.
Variable nbasis : nat.

(** [left_t]: a back-propagated bra; [right_t]: a ket; [gf_t]: what
    [initial_greens_function] returns; [run_t]: the arrays that the stable
    policy seeds with the identity; [prop_t]: a propagator matrix. *)
Variables (left_t right_t gf_t run_t prop_t : Type).
Variables (config aux_t mdw_t field_configs_t : Type).

Record walker : Type := Walker {
  weight : C;
  phi_bp : left_t;
  phi_init : right_t;
  weights : mdw_t;
  field_configs : field_configs_t
}.

(** Collaborators.  [back_propagate_single] works in place on the state
    and on the weights it is given and returns the stored left states when
    [store] is set: the model returns all three. *)
Variable get_superblock : field_configs_t -> seq config * aux_t.
Variable back_propagate_single :
  left_t -> seq config -> mdw_t -> bool -> left_t * mdw_t * seq left_t.
Variable construct_propagator_matrix : config -> prop_t.
Variable propagate_single : right_t -> prop_t -> right_t.
Variable reortho_spin_blocks : right_t -> right_t.
Variable copy_init_wfn : seq walker -> seq walker.

(** The methods bound by [__init__]. *)
Variable initial_greens_function :
  left_t -> right_t -> mdw_t -> result (gf_t * gf_t).
Variable accumulate :
  nat -> C -> gf_t -> gf_t -> seq (slice C nbasis)
  -> result (seq (slice C nbasis)).
Variable accumulate_run :
  nat -> C -> run_t -> run_t -> seq (slice C nbasis)
  -> result (seq (slice C nbasis)).
Variable increment_tau_unstable :
  gf_t -> gf_t -> prop_t -> result (gf_t * gf_t).
Variable increment_tau_stable :
  run_t -> run_t -> prop_t -> gf_t -> gf_t -> result (run_t * run_t).
Variable identity : run_t.

Variable nstblz : Z.

(** [sum(w.weight for w in psi.walkers)] *)
Definition total_weight (psi : seq walker) : C :=
  \sum_(w <- psi) weight w.

(** The left reference state of a walker: [w.phi_bp] and [w.weights] after
    [back_propagate_single]. *)
Definition left_reference (store : bool) (w : walker) : left_t * mdw_t :=
  (back_propagate_single (phi_bp w)
     (get_superblock (field_configs w)).1 (weights w) store).1.

(** The inner loop of [calculate_spgf_unstable]. *)
Definition unstable_step (w : walker)
  (st : gf_t * gf_t * seq (slice C nbasis)) (icc : nat * config)
  : result (gf_t * gf_t * seq (slice C nbasis)) :=
  let: (Ggr, Gls, spgf) := st in
  let: (ic, c) := icc in
  let B := construct_propagator_matrix c in
  G <- increment_tau_unstable Ggr Gls B ;;
  spgf <- accumulate ic.+1 (weight w) G.1 G.2 spgf ;;
  Ok (G.1, G.2, spgf).

(** The body of the loop over walkers of [calculate_spgf_unstable]; the
    loop state is [self.spgf] and the walkers already visited. *)
Definition unstable_walker (st : seq (slice C nbasis) * seq walker)
  (w : walker) : result (seq (slice C nbasis) * seq walker) :=
  let: (spgf, done) := st in
  let configs := (get_superblock (field_configs w)).1 in
  let bp := back_propagate_single (phi_bp w) configs (weights w) false in
  let w := Walker (weight w) bp.1.1 (phi_init w) bp.1.2 (field_configs w) in
  G <- initial_greens_function (phi_bp w) (phi_init w) (weights w) ;;
  spgf <- accumulate 0 (weight w) G.1 G.2 spgf ;;
  r <- Py.for_each (unstable_step w) (Py.enumerate configs)
         (G.1, G.2, spgf) ;;
  Ok (r.2, rcons done w).

Definition calculate_spgf_unstable (spgf : seq (slice C nbasis))
  (psi : seq walker) : result (seq (slice C nbasis) * seq walker) :=
  let denom := total_weight psi in
  r <- Py.for_each unstable_walker psi (spgf, [::]) ;;
  Ok ([seq divide_slice denom s | s <- r.1], copy_init_wfn r.2).

(** The inner loop of [calculate_spgf_stable]; its state is [Ggr], [Gls],
    [Ggr_nn], [Gls_nn], [w.phi_init] and [self.spgf]. *)
Definition stable_step (w : walker) (psi_Ls : seq left_t)
  (st : run_t * run_t * (gf_t * gf_t) * right_t * seq (slice C nbasis))
  (icc : nat * config)
  : result (run_t * run_t * (gf_t * gf_t) * right_t * seq (slice C nbasis)) :=
  let: (Ggr, Gls, Gnn, phi_init, spgf) := st in
  let: (ic, c) := icc in
  let B := construct_propagator_matrix c in
  G <- increment_tau_stable Ggr Gls B Gnn.1 Gnn.2 ;;
  spgf <- accumulate_run ic.+1 (weight w) G.1 G.2 spgf ;;
  L <- py_getitem psi_Ls
         (Z.sub (Z.sub (Z.of_nat (size psi_Ls)) (Z.of_nat ic)) (Zpos xH)) ;;
  let phi_init := propagate_single phi_init B in
  phi_init <- (if (ic != 0)%N then
                 r <- Py.mod_ (Z.of_nat ic) nstblz ;;
                 Ok (if Z.eqb r Z0 then reortho_spin_blocks phi_init
                     else phi_init)
               else Ok phi_init) ;;
  Gnn <- initial_greens_function L phi_init (weights w) ;;
  Ok (G.1, G.2, Gnn, phi_init, spgf).

Definition stable_walker (st : seq (slice C nbasis) * seq walker)
  (w : walker) : result (seq (slice C nbasis) * seq walker) :=
  let: (spgf, done) := st in
  let Ggr := identity in
  let Gls := identity in
  let configs := (get_superblock (field_configs w)).1 in
  let bp := back_propagate_single (phi_bp w) configs (weights w) true in
  let psi_Ls := bp.2 in
  let w := Walker (weight w) bp.1.1 (phi_init w) bp.1.2 (field_configs w) in
  Gnn <- initial_greens_function (phi_bp w) (phi_init w) (weights w) ;;
  spgf <- accumulate 0 (weight w) Gnn.1 Gnn.2 spgf ;;
  r <- Py.for_each (stable_step w psi_Ls) (Py.enumerate configs)
         (Ggr, Gls, Gnn, phi_init w, spgf) ;;
  let: (_, _, _, phi_init', spgf) := r in
  Ok (spgf,
      rcons done
        (Walker (weight w) (phi_bp w) phi_init' (weights w)
           (field_configs w))).

Definition calculate_spgf_stable (spgf : seq (slice C nbasis))
  (psi : seq walker) : result (seq (slice C nbasis) * seq walker) :=
  let denom := total_weight psi in
  r <- Py.for_each stable_walker psi (spgf, [::]) ;;
  Ok ([seq divide_slice denom s | s <- r.1], copy_init_wfn r.2).

(** [self.calculate_spgf], bound from [self.stable] by [__init__]. *)
Definition calculate_spgf (stable : bool) :=
  if stable then calculate_spgf_stable else calculate_spgf_unstable.

Definition update (stable : bool) (nprop_tot : Z)
  (spgf : seq (slice C nbasis)) (psi : seq walker) (step : Z)
  : result (seq (slice C nbasis) * seq walker) :=
  r <- Py.mod_ step nprop_tot ;;
  if Z.eqb r Z0 then calculate_spgf stable spgf psi else Ok (spgf, psi).

End Policies.

(** *** Spin-separated (UHF) methods *)

Section UHF.

Variable C : numClosedFieldType.
Variables nbasis nup ndown : nat.

Notation wfn := 'M[C]_(nbasis, nup + ndown).
(** An array of shape [(2, nbasis, nbasis)]: item 0 and item 1. *)
Notation stacked := ('M[C]_nbasis * 'M[C]_nbasis)%type.

Definition initial_greens_function_uhf (mdw_t : Type) (A B : wfn)
  (weights : mdw_t) : result (stacked * stacked) :=
  g_up <- gab (lsubmx A) (lsubmx B) ;;
  let Ggr_up := 1%:M - g_up in
  g_down <- gab (rsubmx A) (rsubmx B) ;;
  let Ggr_down := 1%:M - g_down in
  let Gls_up := 1%:M - Ggr_up in
  let Gls_down := 1%:M - Ggr_down in
  Ok ((Ggr_up, Ggr_down), (Gls_up, Gls_down)).

Definition accumulate_uhf (idx : nat) (weight : C) (Ggr Gls : stacked)
  (spgf : seq (slice C nbasis)) : result (seq (slice C nbasis)) :=
  update_slice idx
    (fun s =>
       Slice (add_real weight (up_greater s) (Val Ggr.1))
         (add_real weight (down_greater s) (Val Ggr.2))
         (add_real weight (up_lesser s) (Val Gls.1))
         (add_real weight (down_lesser s) (Val Gls.2)))
    spgf.

Definition increment_tau_uhf_unstable (Ggr Gls B : stacked)
  : result (stacked * stacked) :=
  let Ggr := (B.1 *m Ggr.1, Ggr.2) in
  let Ggr := (Ggr.1, B.2 *m Ggr.2) in
  iB0 <- inv B.1 ;;
  let Gls := (Gls.1 *m iB0, Gls.2) in
  iB1 <- inv B.2 ;;
  let Gls := (Gls.1, Gls.2 *m iB1) in
  Ok (Ggr, Gls).

(** The last assignment reads [Gls[0]], which the assignment before it has
    just overwritten. *)
Definition increment_tau_uhf_stable (Ggr Gls B Gnn_gr Gnn_ls : stacked)
  : result (stacked * stacked) :=
  let Ggr := ((B.1 *m Gnn_gr.1) *m Ggr.1, Ggr.2) in
  let Ggr := (Ggr.1, (B.2 *m Gnn_gr.2) *m Ggr.2) in
  iB0 <- inv B.1 ;;
  let Gls := (Gls.1 *m (Gnn_ls.1 *m iB0), Gls.2) in
  iB1 <- inv B.2 ;;
  let Gls := (Gls.1, Gls.1 *m (Gnn_ls.2 *m iB1)) in
  Ok (Ggr, Gls).

(** [calculate_spgf_stable] seeds [Ggr] and [Gls] with
    [numpy.identity(nbasis)], an array of shape [(nbasis, nbasis)]: there
    [G[0]] and [G[1]] are the first two rows, [M.dot(row)] is a
    matrix-vector product, and [block += row] adds the row to every row of
    the block.  The same two methods on arrays of that shape: *)

Definition getitem_row (G : 'M[C]_nbasis) (i : nat) : result 'rV[C]_nbasis :=
  if insub i is Some k then Ok (row k G) else Raise IndexError.

Definition setitem_row (G : 'M[C]_nbasis) (i : nat) (v : 'rV[C]_nbasis)
  : result 'M[C]_nbasis :=
  if insub i is Some k
  then Ok (\matrix_(a, b) (if a == k then v 0 b else G a b))
  else Raise IndexError.

Definition dot_mv (M : 'M[C]_nbasis) (v : 'rV[C]_nbasis) : 'rV[C]_nbasis :=
  v *m M^T.

Definition broadcast_rows (v : 'rV[C]_nbasis) : 'M[C]_nbasis :=
  \matrix_(a, b) v 0 b.

Definition increment_tau_uhf_stable_rows (Ggr Gls : 'M[C]_nbasis)
  (B Gnn_gr Gnn_ls : stacked) : result ('M[C]_nbasis * 'M[C]_nbasis) :=
  g0 <- getitem_row Ggr 0 ;;
  Ggr <- setitem_row Ggr 0 (dot_mv (B.1 *m Gnn_gr.1) g0) ;;
  g1 <- getitem_row Ggr 1 ;;
  Ggr <- setitem_row Ggr 1 (dot_mv (B.2 *m Gnn_gr.2) g1) ;;
  l0 <- getitem_row Gls 0 ;;
  iB0 <- inv B.1 ;;
  Gls <- setitem_row Gls 0 (l0 *m (Gnn_ls.1 *m iB0)) ;;
  l0' <- getitem_row Gls 0 ;;
  iB1 <- inv B.2 ;;
  Gls <- setitem_row Gls 1 (l0' *m (Gnn_ls.2 *m iB1)) ;;
  Ok (Ggr, Gls).

Definition accumulate_uhf_rows (idx : nat) (weight : C)
  (Ggr Gls : 'M[C]_nbasis) (spgf : seq (slice C nbasis))
  : result (seq (slice C nbasis)) :=
  if (idx < size spgf)%N then
    g0 <- getitem_row Ggr 0 ;;
    g1 <- getitem_row Ggr 1 ;;
    l0 <- getitem_row Gls 0 ;;
    l1 <- getitem_row Gls 1 ;;
    update_slice idx
      (fun s =>
         Slice (add_real weight (up_greater s) (Val (broadcast_rows g0)))
           (add_real weight (down_greater s) (Val (broadcast_rows g1)))
           (add_real weight (up_lesser s) (Val (broadcast_rows l0)))
           (add_real weight (down_lesser s) (Val (broadcast_rows l1))))
      spgf
  else Raise IndexError.

(** The two [reortho] lines of [calculate_spgf_stable]. *)
Definition reortho_spin_blocks m
  (reortho : forall k, 'M[C]_(m, k) -> 'M[C]_(m, k) * 'M[C]_k)
  (phi : 'M[C]_(m, nup + ndown)) : 'M[C]_(m, nup + ndown) :=
  let phi := row_mx (reortho _ (lsubmx phi)).1 (rsubmx phi) in
  row_mx (lsubmx phi) (reortho _ (rsubmx phi)).1.

End UHF.

(** *** Generalized (GHF) methods *)

Section GHF.

Variable C : numClosedFieldType.
Variables nbasis ne : nat.

Notation ghf_wfn := 'M[C]_(nbasis + nbasis, ne).
Notation ghf_mx := 'M[C]_(nbasis + nbasis).

Variable choose : C -> seq C -> C.
(** [trial.coeffs] *)
Variable coeffs : seq C.


Definition accumulate_ghf (idx : nat) (weight : C) (Ggr Gls : np ghf_mx)
  (spgf : seq (slice C nbasis)) : result (seq (slice C nbasis)) :=
  update_slice idx
    (fun s =>
       Slice (add_real weight (up_greater s) (np_map ulsubmx Ggr))
         (add_real weight (down_greater s) (np_map drsubmx Ggr))
         (add_real weight (up_lesser s) (np_map ulsubmx Gls))
         (add_real weight (down_lesser s) (np_map drsubmx Gls)))
    spgf.

Definition increment_tau_ghf_unstable (Ggr Gls : np ghf_mx) (B : ghf_mx)
  : result (np ghf_mx * np ghf_mx) :=
  let Ggr := np_map (fun G => B *m G) Ggr in
  iB <- inv B ;;
  let Gls := np_map (fun G => G *m iB) Gls in
  Ok (Ggr, Gls).


End GHF.

(** *** Output *)

Section Output.

Variable C : numClosedFieldType.
Variable nbasis : nat.

(** [itcf.get('mode', 'full')]: a string, or a list of index pairs. *)
Inductive mode_t : Type :=
  | ModeName (s : string)
  | ModeElements (l : seq (nat * nat)).

(** What [to_file] pushes. *)
Inductive dataset : Type :=
  | FullData (d : seq (slice C nbasis))
  | DiagonalData (d : seq (blocks (np 'rV[C]_nbasis)))
  | ElementsData (d : seq (seq (np C))).

(** [spgf.diagonal(axis1=3, axis2=4)] *)
Definition diagonal (s : slice C nbasis) : blocks (np 'rV[C]_nbasis) :=
  let d := np_map (fun M : 'M[C]_nbasis => \row_k M k k) in
  Slice (d (up_greater s)) (d (down_greater s)) (d (up_lesser s))
    (d (down_lesser s)).

(** The last branch of [to_file] evaluates [g[mode]] for every slice [g],
    and [mode] is not a name of that scope. *)
Definition to_file (mode : mode_t) (group : H5EstimatorHelper dataset)
  (spgf : seq (slice C nbasis)) : result (H5EstimatorHelper dataset) :=
  let elements :=
    if spgf is [::] then Ok (push group (ElementsData [::]))
    else Raise NameError in
  match mode with
  | ModeName s =>
      if String.eqb s "full" then Ok (push group (FullData spgf))
      else if String.eqb s "diagonal"
      then Ok (push group (DiagonalData [seq diagonal g | g <- spgf]))
      else elements
  | ModeElements _ => elements
  end.

(** The shape of the output datasets, computed by [__init__] on the root.
    [nmax] is [int(tmax/dt)]. *)
Definition output_shape (mode : mode_t) (nsteps : Z) (nmax : nat)
  : result (seq Z) :=
  rows <- Py.floordiv nsteps (Z.of_nat nmax) ;;
  let common := [:: rows; Z.of_nat nmax.+1; Zpos (xO xH); Zpos (xO xH)] in
  match mode with
  | ModeName s =>
      if String.eqb s "full"
      then Ok (common ++ [:: Z.of_nat nbasis; Z.of_nat nbasis])
      else if String.eqb s "diagonal" then Ok (common ++ [:: Z.of_nat nbasis])
      else Ok (common ++ [:: Z.of_nat (String.length s)])
  | ModeElements l => Ok (common ++ [:: Z.of_nat (size l)])
  end.

End Output.

(** *** The methods as [__init__] binds them *)

Section Binding.

Variable C : numClosedFieldType.
Variables nbasis nup ndown : nat.
Variables (config aux_t mdw_t field_configs_t : Type).

Notation wfn := 'M[C]_(nbasis, nup + ndown).
Notation stacked := ('M[C]_nbasis * 'M[C]_nbasis)%type.
Notation uhf_walker := (walker C wfn wfn mdw_t field_configs_t).

Variable get_superblock : field_configs_t -> seq config * aux_t.
Variable back_propagate_single :
  wfn -> seq config -> mdw_t -> bool -> wfn * mdw_t * seq wfn.
Variable construct_propagator_matrix : config -> stacked.
Variable propagate_single : wfn -> stacked -> wfn.
Variable reortho : forall k, 'M[C]_(nbasis, k) -> 'M[C]_(nbasis, k) * 'M[C]_k.
Variable copy_init_wfn : seq uhf_walker -> seq uhf_walker.
Variable nstblz : Z.

(** [trial.type != "GHF"], [stable = False] *)
Definition calculate_spgf_unstable_uhf :=
  calculate_spgf_unstable get_superblock back_propagate_single
    construct_propagator_matrix copy_init_wfn
    (@initial_greens_function_uhf C nbasis nup ndown mdw_t)
    (@accumulate_uhf C nbasis) (@increment_tau_uhf_unstable C nbasis).

(** [trial.type != "GHF"], [stable = True]: the running arrays are seeded
    with [numpy.identity(nbasis)]. *)
Definition calculate_spgf_stable_uhf :=
  calculate_spgf_stable get_superblock back_propagate_single
    construct_propagator_matrix propagate_single
    (reortho_spin_blocks reortho) copy_init_wfn
    (@initial_greens_function_uhf C nbasis nup ndown mdw_t)
    (@accumulate_uhf C nbasis) (@accumulate_uhf_rows C nbasis)
    (@increment_tau_uhf_stable_rows C nbasis) 1%:M nstblz.

(** What [accumulate_uhf] adds to one slice. *)
Definition uhf_term (weight : C) (Ggr Gls : stacked) (s : slice C nbasis)
  : slice C nbasis :=
  Slice (add_real weight (up_greater s) (Val Ggr.1))
    (add_real weight (down_greater s) (Val Ggr.2))
    (add_real weight (up_lesser s) (Val Gls.1))
    (add_real weight (down_lesser s) (Val Gls.2)).

(** The specification's slice 0: the real parts of the equal-time Green's
    functions [Gs] of the walkers [psi], each weighted by its walker's
    weight, summed, and divided by the total weight. *)
Definition weighted_equal_time (psi : seq uhf_walker)
  (Gs : seq (stacked * stacked)) : slice C nbasis :=
  let sum (f : stacked * stacked -> 'M[C]_nbasis) : np 'M[C]_nbasis :=
    Val (\sum_(p <- zip psi Gs) weight p.1 *: real_part (f p.2)) in
  divide_slice (total_weight psi)
    (Slice (sum (fun G => G.1.1)) (sum (fun G => G.1.2))
       (sum (fun G => G.2.1)) (sum (fun G => G.2.2))).

(** A walker whose run cannot raise: non-singular overlaps between its left
    and right reference states, invertible propagators along its path, and
    a path no longer than the buffer. *)
Definition regular (nmax : nat) (w : uhf_walker) : Prop :=
  [/\ dagger (lsubmx (left_reference get_superblock back_propagate_single false w).1) *m lsubmx (phi_init w)
        \in unitmx,
      dagger (rsubmx (left_reference get_superblock back_propagate_single false w).1) *m rsubmx (phi_init w)
        \in unitmx,
      (size (get_superblock (field_configs w)).1 <= nmax)%N
    & forall c, List.In c (get_superblock (field_configs w)).1 ->
        (construct_propagator_matrix c).1 \in unitmx
        /\ (construct_propagator_matrix c).2 \in unitmx].

(** What the unstable policy is to compute, in closed form.
    [equal_time A B] is the pair of Green's functions of a bra [A] and a
    ket [B] with non-singular overlaps; [propagated G Bs] is [G] moved along
    the propagators [Bs], the greater function by [B] on the left and the
    lesser one by the inverse of [B] on the right. *)
Definition equal_time (A B : wfn) : stacked * stacked :=
  let Gu := lsubmx B *m (invmx (dagger (lsubmx A) *m lsubmx B)
                         *m dagger (lsubmx A)) in
  let Gd := rsubmx B *m (invmx (dagger (rsubmx A) *m rsubmx B)
                         *m dagger (rsubmx A)) in
  ((1%:M - Gu, 1%:M - Gd), (1%:M - (1%:M - Gu), 1%:M - (1%:M - Gd))).

Definition propagated (G : stacked * stacked) (Bs : seq stacked)
  : stacked * stacked :=
  foldl (fun (G : stacked * stacked) (B : stacked) =>
           ((B.1 *m G.1.1, B.2 *m G.1.2),
            (G.2.1 *m invmx B.1, G.2.2 *m invmx B.2)))
    G Bs.

(** The Green's functions of walker [w] between time slice [k] of its
    stored path and the start of the path. *)
Definition path_greens_function (w : uhf_walker) (k : nat)
  : stacked * stacked :=
  propagated
    (equal_time (left_reference get_superblock back_propagate_single false w).1
       (phi_init w))
    (take k [seq construct_propagator_matrix c
            | c <- (get_superblock (field_configs w)).1]).

(** Slice [k] as the sum over the walkers whose path reaches [k], divided
    by the total weight. *)
Definition unstable_slice (psi : seq uhf_walker) (k : nat) : slice C nbasis :=
  let reach :=
    [seq w <- psi | (k <= size (get_superblock (field_configs w)).1)%N] in
  let sum (f : stacked * stacked -> 'M[C]_nbasis) : np 'M[C]_nbasis :=
    Val (\sum_(w <- reach)
           weight w *: real_part (f (path_greens_function w k))) in
  divide_slice (total_weight psi)
    (Slice (sum (fun G => G.1.1)) (sum (fun G => G.1.2))
       (sum (fun G => G.2.1)) (sum (fun G => G.2.2))).

End Binding.

Section BindingGHF.

Variable C : numClosedFieldType.
Variables nbasis nup ndown : nat.
Variables (config aux_t field_configs_t : Type).

Notation ghf_wfn := 'M[C]_(nbasis + nbasis, nup + ndown).
Notation ghf_mx := 'M[C]_(nbasis + nbasis).
(** A generalized walker: the bra is a list of determinants, and
    [w.weights] holds one weight per determinant. *)
Notation ghf_walker := (walker C (seq ghf_wfn) ghf_wfn (seq C) field_configs_t).

Variable choose : C -> seq C -> C.
Variable coeffs : seq C.
Variable get_superblock : field_configs_t -> seq config * aux_t.
Variable back_propagate_single_ghf :
  seq ghf_wfn -> seq config -> seq C -> bool ->
  seq ghf_wfn * seq C * seq (seq ghf_wfn).
Variable construct_propagator_matrix_ghf : config -> ghf_mx.
Variable propagate_single : ghf_wfn -> ghf_mx -> ghf_wfn.
Variable reortho :
  forall k, 'M[C]_(nbasis + nbasis, k) -> 'M[C]_(nbasis + nbasis, k) * 'M[C]_k.
Variable copy_init_wfn : seq ghf_walker -> seq ghf_walker.
Variable nstblz : Z.



(** What [accumulate_ghf] adds to one slice. *)
Definition ghf_term (weight : C) (Ggr Gls : np ghf_mx) (s : slice C nbasis)
  : slice C nbasis :=
  Slice (add_real weight (up_greater s) (np_map ulsubmx Ggr))
    (add_real weight (down_greater s) (np_map drsubmx Ggr))
    (add_real weight (up_lesser s) (np_map ulsubmx Gls))
    (add_real weight (down_lesser s) (np_map drsubmx Gls)).


End BindingGHF.

End ITCF.

(** ** Concrete populations and inputs for the examples *)

Section Instances.

(** A small population: a walker is its local energy, with unit weight and
    unit overlap; there is no density matrix. *)
Definition energy_walkers_update :=
  @Mixed.update algC 0 algC unit unit (fun _ => 1) (fun _ => 1)
    (fun _ => 0) (fun _ w => w) (fun _ w => (w, 0, 0)).

Definition fresh_mixed : Mixed.state algC 0 :=
  Mixed.State false 0 0 (h5_create _) (h5_create _).

(** A mixed accumulator whose registers all hold one. *)
Definition unit_mixed : Mixed.state algC 0 :=
  Mixed.State false (const_mx 1) 0 (h5_create _) (h5_create _).

(** A back-propagation accumulator on a one-site system.  The
    field-configuration store is the pair of its cosine and weight tables,
    and the propagation routines leave the walkers as they are. *)
Definition bp_store : Type := (seq (seq algC) * seq (seq algC))%type.

Definition bp_get_block (fc : bp_store)
  : seq unit * seq (seq algC) * seq (seq algC) :=
  ([::], fc.1, fc.2).

Definition bp_idle
  : BackPropagation.back_propagate_t algC 1 1 1 bp_store unit unit :=
  fun _ psi _ _ _ _ => psi.

Definition bp_state (window : Z) (restore : option string)
  : @BackPropagation.state algC 1 1 1 bp_store unit unit :=
  BackPropagation.State window false (0, 0) (const_mx (Val 0))
    (const_mx (Val 0)) (Zpos xH) tt restore 0 None
    BackPropagation.update_uhf_variant bp_idle.

Definition bp_walker : BackPropagation.walker algC 1 1 1 bp_store :=
  BackPropagation.Walker 1 0 0 ([:: [:: 2%:R]; [:: 1]], [:: [:: 1]; [:: 1]]).

(** A walker whose store holds two rows of weight factors, the second one
    empty, and one row of cosine factors. *)
Definition bp_walker_uneven : BackPropagation.walker algC 1 1 1 bp_store :=
  BackPropagation.Walker 1 0 0 ([:: [:: 2%:R]], [:: [:: 3%:R]; [::]]).

(** A walker whose current and old determinants are the identity in both
    spin channels, with an empty store. *)
Definition bp_walker_unit : BackPropagation.walker algC 1 1 1 bp_store :=
  BackPropagation.Walker 1 (row_mx 1%:M 1%:M) (row_mx 1%:M 1%:M) ([::], [::]).

(** Fresh output datasets, and the communicator of a single process. *)
Definition bp_outputs : BackPropagation.outputs algC 1 :=
  BackPropagation.Outputs (h5_create _) (h5_create _).

Definition bp_comm : BackPropagation.communicator algC 1 :=
  BackPropagation.Comm 0 [::].

Definition bp_system : system algC 1 :=
  System "Hubbard" (0, 0) 0 (fun _ _ _ _ => 0) 0.



(** One spin-separated walker on two sites, two up electrons and no down
    electron, with one stored field configuration.  Back-propagation and
    propagation leave the states as they are, the propagator is the
    identity, and [reortho] returns its argument. *)
Definition itcf_phi : 'M[algC]_(2, 2 + 0) := row_mx 1%:M 0.

Definition itcf_walker
  : ITCF.walker algC 'M[algC]_(2, 2 + 0) 'M[algC]_(2, 2 + 0) unit unit :=
  ITCF.Walker 1 itcf_phi itcf_phi tt tt.

Definition itcf_get_superblock (fc : unit) : seq unit * unit := ([:: tt], tt).

Definition itcf_back_propagate_single (phi : 'M[algC]_(2, 2 + 0))
  (configs : seq unit) (weights : unit) (store : bool)
  : 'M[algC]_(2, 2 + 0) * unit * seq 'M[algC]_(2, 2 + 0) :=
  (phi, weights, if store then [seq phi | c <- configs] else [::]).

Definition itcf_propagator (c : unit) : 'M[algC]_2 * 'M[algC]_2 :=
  (1%:M, 1%:M).

Definition itcf_propagate_single (phi : 'M[algC]_(2, 2 + 0))
  (B : 'M[algC]_2 * 'M[algC]_2) : 'M[algC]_(2, 2 + 0) := phi.

Definition itcf_reortho k (M : 'M[algC]_(2, k)) : 'M[algC]_(2, k) * 'M[algC]_k :=
  (M, 1%:M).

Definition itcf_unstable :=
  ITCF.calculate_spgf_unstable_uhf itcf_get_superblock
    itcf_back_propagate_single itcf_propagator id (ITCF.zeros algC 2 1)
    [:: itcf_walker].

Definition itcf_stable :=
  ITCF.calculate_spgf_stable_uhf itcf_get_superblock
    itcf_back_propagate_single itcf_propagator itcf_propagate_single
    itcf_reortho id (Zpos xH) (ITCF.zeros algC 2 1) [:: itcf_walker].

(** One spin-separated walker on a single site, with one up electron and
    one stored field configuration. *)
Definition site_phi : 'M[algC]_(1, 1 + 0) := row_mx 1%:M 0.

Definition site_walker
  : ITCF.walker algC 'M[algC]_(1, 1 + 0) 'M[algC]_(1, 1 + 0) unit unit :=
  ITCF.Walker 1 site_phi site_phi tt tt.

Definition site_back_propagate_single (phi : 'M[algC]_(1, 1 + 0))
  (configs : seq unit) (weights : unit) (store : bool)
  : 'M[algC]_(1, 1 + 0) * unit * seq 'M[algC]_(1, 1 + 0) :=
  (phi, weights, if store then [seq phi | c <- configs] else [::]).

Definition site_propagator (c : unit) : 'M[algC]_1 * 'M[algC]_1 :=
  (1%:M, 1%:M).

Definition site_propagate_single (phi : 'M[algC]_(1, 1 + 0))
  (B : 'M[algC]_1 * 'M[algC]_1) : 'M[algC]_(1, 1 + 0) := phi.

Definition site_reortho k (M : 'M[algC]_(1, k)) : 'M[algC]_(1, k) * 'M[algC]_k :=
  (M, 1%:M).










End Instances.

(** * Properties *)

(** ** The Green's-function kernel *)

Section KernelFacts.

Variable C : numClosedFieldType.

Lemma dagger_unitmx n (A : 'M[C]_n) : (dagger A \in unitmx) = (A \in unitmx).
Proof. by rewrite /dagger unitmx_tr map_unitmx. Qed.

Lemma inv_unit n (M : 'M[C]_n) : M \in unitmx -> inv M = Ok (invmx M).
Proof. by rewrite /inv => ->. Qed.

Lemma inv_singular n (M : 'M[C]_n) :
  M \notin unitmx -> inv M = Raise LinAlgError.
Proof. by rewrite /inv => /negbTE ->. Qed.

(** With a non-singular overlap the kernel returns [B (A^† B)^-1 A^†]. *)
Lemma gab_unit m k (A B : 'M[C]_(m, k)) :
  dagger A *m B \in unitmx ->
  gab A B = Ok (B *m (invmx (dagger A *m B) *m dagger A)).
Proof. by move=> u; rewrite /gab inv_unit. Qed.

(** [gab A A] is idempotent, fixes the columns of [A], and is absorbed by
    [A^†] on the left, whenever [A^† A] is non-singular. *)
Lemma gab_self_projector m k (A : 'M[C]_(m, k)) :
  dagger A *m A \in unitmx ->
  let G := A *m (invmx (dagger A *m A) *m dagger A) in
  [/\ gab A A = Ok G, dagger A *m G = dagger A, G *m A = A & G *m G = G].
Proof.
move=> u G; have dG : dagger A *m G = dagger A.
  by rewrite /G !mulmxA mulmxV // mul1mx.
have GA : G *m A = A by rewrite /G -!mulmxA mulVmx // mulmx1.
split=> //; first exact: gab_unit.
by rewrite -[X in G *m X = _]/(A *m _) mulmxA GA.
Qed.

Lemma gab_self_square n (A : 'M[C]_n) :
  A \in unitmx -> gab A A = Ok 1%:M.
Proof.
move=> uA; have uD : dagger A \in unitmx by rewrite dagger_unitmx.
have u : dagger A *m A \in unitmx by rewrite unitmx_mul uD uA.
have [-> dG _ _] := gab_self_projector u; congr Ok.
by rewrite -[LHS](mulKmx uD) dG mulVmx.
Qed.

End KernelFacts.

(** C4 (as amended).  For every square, full-rank [A] the kernel returns
    [G = gab(A, A)] with [A^† G = A^†], equivalently [A^† (I - G) = 0];
    [G] is idempotent and fixes the columns of [A], so it is the projector
    onto the column space of [A] (the identity, [A] being square). *)
Theorem gab_self_absorbs (C : numClosedFieldType) n (A : 'M[C]_n) :
  A \in unitmx ->
  exists G : 'M[C]_n,
    [/\ gab A A = Ok G, dagger A *m G = dagger A,
        dagger A *m (1%:M - G) = 0, G *m G = G & G *m A = A].
Proof.
move=> uA; exists 1%:M; split; first exact: gab_self_square.
- by rewrite mulmx1.
- by rewrite subrr mulmx0.
- by rewrite mulmx1.
- by rewrite mul1mx.
Qed.

Lemma gab_self_absorbs_witness :
  exists G : 'M[algC]_2,
    [/\ gab (1%:M : 'M[algC]_2) 1%:M = Ok G,
        dagger (1%:M : 'M[algC]_2) *m G = dagger 1%:M,
        dagger (1%:M : 'M[algC]_2) *m (1%:M - G) = 0,
        G *m G = G & G *m (1%:M : 'M[algC]_2) = 1%:M].
Proof. exact: (@gab_self_absorbs algC 2 1%:M (unitmx1 _ _)). Defined.

(** C4 (as stated) fails: for the 1 x 1 identity [A], [gab(A, A)] is the
    identity, so [A^† (I - G)] is zero and not [A^†]. *)
Lemma gab_self_complement_counterexample :
  let A : 'M[algC]_1 := 1%:M in
  [/\ A \in unitmx, gab A A = Ok 1%:M
    & dagger A *m (1%:M - 1%:M) <> dagger A].
Proof.
split; first exact: unitmx1.
- by apply: gab_self_square; exact: unitmx1.
- rewrite subrr mulmx0 => /matrixP /(_ ord0 ord0).
  rewrite /dagger !mxE eqxx /= => /eqP.
  by rewrite eq_sym conjC1 oner_eq0.
Qed.

(** ** The initial Green's functions of the ITCF *)

Section InitialGreensFunctionFacts.

Variable C : numClosedFieldType.

Lemma initial_greens_function_uhf_unit nbasis nup ndown (mdw_t : Type)
  (A B : 'M[C]_(nbasis, nup + ndown)) (w : mdw_t) :
  dagger (lsubmx A) *m lsubmx B \in unitmx ->
  dagger (rsubmx A) *m rsubmx B \in unitmx ->
  exists Gu Gd : 'M[C]_nbasis,
    [/\ gab (lsubmx A) (lsubmx B) = Ok Gu, gab (rsubmx A) (rsubmx B) = Ok Gd
      & ITCF.initial_greens_function_uhf A B w =
        Ok ((1%:M - Gu, 1%:M - Gd), (1%:M - (1%:M - Gu), 1%:M - (1%:M - Gd)))].
Proof.
move=> uu ud; rewrite /ITCF.initial_greens_function_uhf.
rewrite (gab_unit uu) (gab_unit ud) /=.
by eexists; eexists; split.
Qed.

Lemma complement_sum n (G : 'M[C]_n) : (1%:M - G) + (1%:M - (1%:M - G)) = 1%:M.
Proof. by rewrite opprB [1%:M + (_ - _)]addrC !subrK. Qed.

Lemma dagger1 n : dagger (1%:M : 'M[C]_n) = 1%:M.
Proof. by rewrite /dagger map_mx1 trmx1. Qed.

End InitialGreensFunctionFacts.




(** ** Advancing the ITCF by one time slice *)

Section IncrementFacts.

Variable C : numClosedFieldType.
Variable nbasis : nat.

Notation stacked := ('M[C]_nbasis * 'M[C]_nbasis)%type.

(** The unstable increment keeps the spin channels apart. *)
Lemma increment_tau_uhf_unstable_down (Ggr Gls B : stacked) :
  B.1 \in unitmx -> B.2 \in unitmx ->
  ITCF.increment_tau_uhf_unstable Ggr Gls B =
  Ok ((B.1 *m Ggr.1, B.2 *m Ggr.2),
      (Gls.1 *m invmx B.1, Gls.2 *m invmx B.2)).
Proof.
by move=> u1 u2; rewrite /ITCF.increment_tau_uhf_unstable !inv_unit.
Qed.

(** The stable increment does not: the down-spin lesser component it returns
    is built from the up-spin one and ignores the down-spin input. *)
Lemma increment_tau_uhf_stable_down (Ggr Gls B Gnn_gr Gnn_ls : stacked) :
  B.1 \in unitmx -> B.2 \in unitmx ->
  ITCF.increment_tau_uhf_stable Ggr Gls B Gnn_gr Gnn_ls =
  Ok (((B.1 *m Gnn_gr.1) *m Ggr.1, (B.2 *m Gnn_gr.2) *m Ggr.2),
      (Gls.1 *m (Gnn_ls.1 *m invmx B.1),
       (Gls.1 *m (Gnn_ls.1 *m invmx B.1)) *m (Gnn_ls.2 *m invmx B.2))).
Proof.
by move=> u1 u2; rewrite /ITCF.increment_tau_uhf_stable !inv_unit.
Qed.

End IncrementFacts.

Lemma getitem_row_in (C : numClosedFieldType) n (G : 'M[C]_n) (i : nat)
  (lt_i : (i < n)%N) :
  ITCF.getitem_row G i = Ok (row (Ordinal lt_i) G).
Proof. by rewrite /ITCF.getitem_row insubT. Qed.

Lemma setitem_row_in (C : numClosedFieldType) n (G : 'M[C]_n) (i : nat)
  (v : 'rV[C]_n) (lt_i : (i < n)%N) :
  ITCF.setitem_row G i v =
  Ok (\matrix_(a, b) (if a == Ordinal lt_i then v 0 b else G a b)).
Proof. by rewrite /ITCF.setitem_row insubT. Qed.

(** The stable increment on the arrays of [calculate_spgf_stable], of shape
    [(nbasis, nbasis)] with at least two rows: it returns when the
    propagator is invertible, and row 1 of the lesser array it returns is
    built from row 0 of the input. *)
Lemma increment_tau_uhf_stable_rows_down (C : numClosedFieldType) n
  (Ggr Gls : 'M[C]_n.+2) (B Gnn_gr Gnn_ls : 'M[C]_n.+2 * 'M[C]_n.+2) :
  B.1 \in unitmx -> B.2 \in unitmx ->
  exists2 G,
    ITCF.increment_tau_uhf_stable_rows Ggr Gls B Gnn_gr Gnn_ls = Ok G
    & row (Ordinal (isT : 1 < n.+2)%N) G.2 =
      row ord0 Gls *m (Gnn_ls.1 *m invmx B.1) *m (Gnn_ls.2 *m invmx B.2).
Proof.
move=> u1 u2; rewrite /ITCF.increment_tau_uhf_stable_rows.
have lt0 : (0 < n.+2)%N by []. have lt1 : (1 < n.+2)%N by [].
rewrite (getitem_row_in _ lt0) /= (setitem_row_in _ _ lt0) /=.
rewrite (getitem_row_in _ lt1) /= (setitem_row_in _ _ lt1) /=.
rewrite (getitem_row_in _ lt0) /= !inv_unit //= (setitem_row_in _ _ lt0) /=.
rewrite (getitem_row_in _ lt0) /= (setitem_row_in _ _ lt1) /=.
eexists; first by [].
have -> : ord0 = Ordinal lt0 by apply: val_inj.
apply/rowP=> j; rewrite /= mxE mxE -val_eqE /=; congr (_ 0 j).
congr (_ *m _); apply/rowP=> k.
by rewrite [LHS]mxE [LHS]mxE eqxx.
Qed.

(** C9.  [increment_tau_uhf_stable] at two inputs that differ only in the
    up-spin lesser component [Gls[0]], every other argument the identity:
    the down-spin lesser components returned differ, where the claim has
    them equal.  First on arrays of shape [(2, 1, 1)], [Gls[0]] zero
    against the identity; the unstable increment returns the same
    down-spin component at both.  Then on the arrays of shape [(2, 2)] of
    [calculate_spgf_stable], the identity seed against the seed with its
    first row zeroed. *)
Theorem increment_tau_uhf_stable_mixes_spins :
  let one : 'M[algC]_1 := 1%:M in
  let I1 := (one, one) in
  let seed : 'M[algC]_2 := 1%:M in
  let seed' : 'M[algC]_2 := delta_mx (Ordinal (isT : 1 < 2)%N)
                              (Ordinal (isT : 1 < 2)%N) in
  let I2 := (seed, seed) in
  [/\ [/\ ITCF.increment_tau_uhf_stable I1 (0, one) I1 I1 I1
            = Ok (I1, (0, 0)),
          ITCF.increment_tau_uhf_stable I1 (one, one) I1 I1 I1
            = Ok (I1, (one, one))
        & (0 : 'M[algC]_1) <> one],
      ITCF.increment_tau_uhf_unstable I1 (0, one) I1 = Ok (I1, (0, one))
      /\ ITCF.increment_tau_uhf_unstable I1 (one, one) I1
           = Ok (I1, (one, one))
    & [/\ row (Ordinal (isT : 1 < 2)%N) seed
          = row (Ordinal (isT : 1 < 2)%N) seed',
          exists2 G,
            ITCF.increment_tau_uhf_stable_rows seed seed I2 I2 I2 = Ok G
            & row (Ordinal (isT : 1 < 2)%N) G.2 = row ord0 seed,
          exists2 G,
            ITCF.increment_tau_uhf_stable_rows seed seed' I2 I2 I2 = Ok G
            & row (Ordinal (isT : 1 < 2)%N) G.2 = 0
        & row ord0 seed <> 0]].
Proof.
move=> one I1 seed seed' I2; have u : one \in unitmx by exact: unitmx1.
have u2 : seed \in unitmx by exact: unitmx1.
split.
- split.
  + by rewrite increment_tau_uhf_stable_down //= invmx1 !mulmx1 ?mul0mx.
  + by rewrite increment_tau_uhf_stable_down //= invmx1 !mulmx1.
  + move/matrixP/(_ ord0 ord0); rewrite !mxE eqxx /= => /eqP.
    by rewrite eq_sym oner_eq0.
- by rewrite !increment_tau_uhf_unstable_down //= invmx1 !mulmx1 ?mul0mx.
- split.
  + by apply/rowP=> j; rewrite !mxE eqxx /= eq_sym.
  + have [G eG rowG] := @increment_tau_uhf_stable_rows_down algC 0 seed
      seed I2 I2 I2 u2 u2.
    by exists G; rewrite // rowG /= invmx1 !mulmx1.
  + have [G eG rowG] := @increment_tau_uhf_stable_rows_down algC 0 seed
      seed' I2 I2 I2 u2 u2.
    exists G; rewrite // rowG /= invmx1 !mulmx1.
    by apply/rowP=> j; rewrite !mxE.
  + move/rowP/(_ ord0); rewrite !mxE eqxx /= => /eqP.
    by rewrite oner_eq0.
Qed.

(** ** The mixed estimator *)

Section ArrayFacts.

Lemma set_atE (T : Type) m (a : 'rV[T]_m) (i j : 'I_m) (x : T) :
  (set_at a i x) 0 j = if j == i then x else a 0 j.
Proof. by rewrite /set_at mxE. Qed.

Lemma add_atE (C : numClosedFieldType) m (a : 'rV[C]_m) (i : 'I_m) (x : C) :
  add_at a i x = a + x *: delta_mx 0 i.
Proof.
apply/rowP=> j; rewrite /add_at set_atE !mxE eqxx /=.
by case: eqP => [->|_]; rewrite ?mulr1 // mulr0 addr0.
Qed.

End ArrayFacts.

Section MixedFacts.

Variable C : numClosedFieldType.
Variable gsize : nat.
Variables (walker trial_t system_t : Type).
Variable weight : walker -> C.
Variable ot : walker -> C.
Variable G_flatten : walker -> 'rV[C]_gsize.
Variable greens_function : trial_t -> walker -> walker.
Variable local_energy : system_t -> walker -> C * C * C.

Notation buffer := 'rV[C]_(7 + gsize).
Notation state := (Mixed.state C gsize).
Notation update :=
  (Mixed.update weight ot G_flatten greens_function local_energy).
Notation accumulate_walker :=
  (Mixed.accumulate_walker weight G_flatten local_energy).
Notation accumulate_walker_fp :=
  (Mixed.accumulate_walker_fp weight ot local_energy).
Notation walker_term := (Mixed.walker_term weight G_flatten local_energy).
Notation walker_term_fp :=
  (Mixed.walker_term_fp gsize weight ot local_energy).

Lemma accumulate_walkerE rdm sys (es : buffer) w :
  accumulate_walker rdm sys es w = es + walker_term rdm sys w.
Proof.
rewrite /Mixed.accumulate_walker /Mixed.walker_term.
case: (local_energy sys w) => [[E T] V]; rewrite !add_atE.
case: rdm; last by rewrite addr0 !addrA.
set es' := (X in row_mx (lsubmx X)); rewrite !addrA -/es'.
by rewrite -[X in _ = X + _](hsubmxK es') add_row_mx addr0.
Qed.

Lemma accumulate_walker_fpE sys (es : buffer) w :
  accumulate_walker_fp sys es w = es + walker_term_fp sys w.
Proof. by rewrite /Mixed.accumulate_walker_fp /Mixed.walker_term_fp !add_atE !addrA. Qed.

Lemma foldl_addE (f : buffer -> walker -> buffer) (g : walker -> buffer) :
  (forall es w, f es w = es + g w) ->
  forall ws es, foldl f es ws = es + \sum_(w <- ws) g w.
Proof.
move=> fE; elim=> [|w ws IH] es /=; first by rewrite big_nil addr0.
by rewrite IH fE big_cons addrA.
Qed.

(** The array after [update]: the old array plus one term per walker. *)
Lemma update_estimates (self : state) sys trial psi fp :
  Mixed.estimates (update self sys trial psi fp).1 =
  Mixed.estimates self
  + \sum_(w <- [seq greens_function trial w | w <- psi])
      (if fp then walker_term_fp sys w
       else walker_term (Mixed.rdm self) sys w).
Proof.
rewrite /Mixed.update /=; case: fp => /=.
- exact/foldl_addE/accumulate_walker_fpE.
- exact/foldl_addE/accumulate_walkerE.
Qed.

Lemma update_frame (self : state) sys trial psi fp :
  let self' := (update self sys trial psi fp).1 in
  [/\ Mixed.rdm self' = Mixed.rdm self,
      Mixed.global_estimates self' = Mixed.global_estimates self,
      Mixed.output self' = Mixed.output self
    & Mixed.dm_output self' = Mixed.dm_output self].
Proof. by []. Qed.

Lemma state_eq (s t : state) :
  Mixed.rdm s = Mixed.rdm t -> Mixed.estimates s = Mixed.estimates t ->
  Mixed.global_estimates s = Mixed.global_estimates t ->
  Mixed.output s = Mixed.output t -> Mixed.dm_output s = Mixed.dm_output t ->
  s = t.
Proof. by case: s => ? ? ? ? ?; case: t => ? ? ? ? ? /= -> -> -> -> ->. Qed.

Lemma sum_Permutation (T : Type) (g : T -> buffer) (s t : seq T) :
  Permutation s t -> \sum_(w <- s) g w = \sum_(w <- t) g w.
Proof.
elim=> [|x s' t' _ IH|x y s'|s1 s2 s3 _ IH1 _ IH2] //.
- by rewrite !big_cons IH.
- by rewrite !big_cons addrCA.
- by rewrite IH1.
Qed.

Lemma Permutation_map_seq (T U : Type) (f : T -> U) (s t : seq T) :
  Permutation s t -> Permutation [seq f x | x <- s] [seq f x | x <- t].
Proof.
elim=> [|x s' t' _ IH|x y s'|s1 s2 s3 _ IH1 _ IH2] /=.
- exact: perm_nil.
- exact: perm_skip.
- exact: perm_swap.
- exact: Permutation.perm_trans IH1 IH2.
Qed.

Lemma reg_eq (j k : 'I_7) :
  (EstimatorEnum.reg gsize j == EstimatorEnum.reg gsize k) = (j == k).
Proof. by rewrite -!val_eqE. Qed.

Lemma walker_term_reg rdm sys w (k : 'I_7) :
  (walker_term rdm sys w) 0 (EstimatorEnum.reg gsize k) =
  let: (E, T, V) := local_energy sys w in
  nth 0 [:: weight w; weight w * 'Re E; weight w; 0;
            weight w * 'Re T; weight w * 'Re V; 0] k.
Proof.
rewrite /Mixed.walker_term; case: (local_energy sys w) => [[E T] V].
have tail0 : (if rdm then row_mx 0 (weight w *: real_part (G_flatten w))
              else 0 : buffer) 0 (EstimatorEnum.reg gsize k) = 0.
  by case: rdm; rewrite ?row_mxEl mxE.
rewrite !mxE tail0 !eqxx /= ![EstimatorEnum.reg _ _ == _]reg_eq {tail0}.
case: k => [[|[|[|[|[|[|[|k]]]]]]] lt_k] //=;
  by rewrite -?val_eqE /= ?mulr1 ?mulr0 ?addr0 ?add0r.
Qed.

Lemma sum_entry (T : Type) (g : T -> buffer) (s : seq T) (j : 'I_(7 + gsize)) :
  (\sum_(w <- s) g w) 0 j = \sum_(w <- s) g w 0 j.
Proof.
elim: s => [|w s IH]; first by rewrite !big_nil mxE.
by rewrite !big_cons mxE IH.
Qed.

(** C2 (as amended).  With importance sampling [update] adds
    [weight * E.real] to the numerator (and [weight * T.real],
    [weight * V.real] to the kinetic and potential registers): the imaginary
    part of the local energy does not reach the array.  In free projection
    it adds the complex product [weight * E * ot]. *)
Theorem mixed_update_registers (self : state) sys trial psi :
  let ws := [seq greens_function trial w | w <- psi] in
  let old := Mixed.estimates self in
  let imp := Mixed.estimates (update self sys trial psi false).1 in
  let fpr := Mixed.estimates (update self sys trial psi true).1 in
  [/\ imp 0 (EstimatorEnum.enumer gsize) =
        old 0 (EstimatorEnum.enumer gsize)
        + \sum_(w <- ws) weight w * 'Re (local_energy sys w).1.1,
      imp 0 (EstimatorEnum.ekin gsize) =
        old 0 (EstimatorEnum.ekin gsize)
        + \sum_(w <- ws) weight w * 'Re (local_energy sys w).1.2,
      imp 0 (EstimatorEnum.epot gsize) =
        old 0 (EstimatorEnum.epot gsize)
        + \sum_(w <- ws) weight w * 'Re (local_energy sys w).2
    & fpr 0 (EstimatorEnum.enumer gsize) =
        old 0 (EstimatorEnum.enumer gsize)
        + \sum_(w <- ws) weight w * (local_energy sys w).1.1 * ot w].
Proof.
move=> ws old imp fpr; rewrite /imp /fpr !update_estimates -/ws -/old.
split; rewrite mxE sum_entry; congr (_ + _); apply: eq_bigr => w _.
- by rewrite walker_term_reg; case: (local_energy sys w) => [[E T] V].
- by rewrite walker_term_reg; case: (local_energy sys w) => [[E T] V].
- by rewrite walker_term_reg; case: (local_energy sys w) => [[E T] V].
- rewrite /Mixed.walker_term_fp !mxE !eqxx /=.
  by rewrite mulr1 !mulr0 !addr0.
Qed.

(** C6.  Accumulation is additive and does not depend on the order of the
    walkers: [update] on [s1] and then on [s2] leaves the accumulator in
    the state that one [update] on any permutation of [s1 ++ s2] leaves;
    in particular for [s1 = [w1; w2]] and [s2 = [w3]]. *)
Theorem mixed_update_additive (self : state) sys trial
  (s1 s2 s : seq walker) fp :
  Permutation (s1 ++ s2) s ->
  (update (update self sys trial s1 fp).1 sys trial s2 fp).1 =
  (update self sys trial s fp).1.
Proof.
move=> perm; apply: state_eq => //.
rewrite !update_estimates /= -addrA -big_cat -map_cat; congr (_ + _).
exact/sum_Permutation/Permutation_map_seq.
Qed.

End MixedFacts.

Lemma mixed_update_additive_witness :
  (energy_walkers_update
     (energy_walkers_update fresh_mixed tt tt [:: 1; 'i] false).1
     tt tt [:: 2%:R] false).1
  = (energy_walkers_update fresh_mixed tt tt [:: 'i; 1; 2%:R] false).1.
Proof.
apply: (@mixed_update_additive algC 0 algC unit unit (fun _ => 1)
          (fun _ => 1) (fun _ => 0) (fun _ w => w) (fun _ w => (w, 0, 0))
          fresh_mixed tt tt [:: 1; 'i] [:: 2%:R] [:: 'i; 1; 2%:R] false).
exact: (perm_swap 'i 1 [:: 2%:R]).
Defined.

(** C2 (as stated) fails: two populations whose local energies differ only
    in the imaginary part, [i] against [0], leave the same array, so the
    imaginary part is discarded during accumulation. *)
Lemma mixed_update_drops_imaginary_part :
  let after (E : algC) :=
    Mixed.estimates (energy_walkers_update fresh_mixed tt tt [:: E] false).1 in
  [/\ after 'i = after 0, ('i : algC) <> 0
    & (after 'i) 0 (EstimatorEnum.enumer 0) = 0].
Proof.
have same : forall E : algC, 'Re E = 0 ->
    Mixed.estimates (energy_walkers_update fresh_mixed tt tt [:: E] false).1
    = 1 *: delta_mx 0 (EstimatorEnum.weight 0)
      + 1 *: delta_mx 0 (EstimatorEnum.edenom 0).
  move=> E E0; rewrite /energy_walkers_update update_estimates /= big_seq1.
  by rewrite /Mixed.walker_term E0 raddf0 !mulr0 !scale0r !add0r addr0.
split.
- by rewrite !same ?Re_i // raddf0.
- by move/eqP; rewrite (negbTE (neq0Ci _)).
- by rewrite same ?Re_i // !mxE /= !mulr0 addr0.
Qed.

Section MixedEmissionFacts.

Variable C : numClosedFieldType.
Variable gsize : nat.

Notation state := (Mixed.state C gsize).
Notation communicator := (Mixed.communicator C gsize).
Notation reg := (EstimatorEnum.reg gsize).
Notation r7 k := (@Ordinal 7 k isT).

(** Every emission ends in [zero]. *)
Lemma print_step_zero (self : state) comm nprocs step nmeasure now now' :
  let self' := (Mixed.print_step self comm nprocs step nmeasure now now').1 in
  Mixed.estimates self' = set_at 0 (EstimatorEnum.time gsize) now'
  /\ Mixed.global_estimates self' = 0.
Proof. by []. Qed.

Lemma np_add_fold_nonfinite (xs : seq (np C)) :
  foldl (@np_add C) NonFinite xs = NonFinite.
Proof. by elim: xs. Qed.

Lemma np_add_fold_zero (xs : seq (np C)) :
  (forall x, List.In x xs -> x = Val 0) -> foldl (@np_add C) (Val 0) xs = Val 0.
Proof.
elim: xs => [|x xs IH] //= all0.
by rewrite (all0 x (or_introl erefl)) /= addr0 IH // => y iny; apply/all0; right.
Qed.

Lemma Reduce_entry m (send : 'rV[np C]_m) (bs : seq 'rV[np C]_m) (j : 'I_m) :
  (foldl (fun a b => map2_mx (@np_add C) a b) send bs) 0 j =
  foldl (@np_add C) (send 0 j) (map (fun b : 'rV[np C]_m => b 0 j) bs).
Proof. by elim: bs send => [|b bs IH] send //=; rewrite IH mxE. Qed.

(** The local array that [print_step] sends when it starts from the array
    [zero] leaves. *)
Lemma normalise_zeroed (t : C) (nprocs : int) (now : C) (nmeasure : int) :
  nmeasure != 0 ->
  let es :=
    (Mixed.normalise (set_at 0 (EstimatorEnum.time gsize) t : 'rV[C]_(7 + gsize))
       nprocs nmeasure now).1 in
  [/\ es 0 (EstimatorEnum.weight gsize) = Val 0,
      es 0 (EstimatorEnum.enumer gsize) = Val 0,
      es 0 (EstimatorEnum.edenom gsize) = Val 0
    & [/\ es 0 (EstimatorEnum.eproj gsize) = NonFinite,
          es 0 (EstimatorEnum.ekin gsize) = NonFinite
        & es 0 (EstimatorEnum.epot gsize) = NonFinite]].
Proof.
move=> nm0.
have nmC : (nmeasure%:~R == 0 :> C) = false by rewrite intr_eq0 (negbTE nm0).
rewrite /Mixed.normalise /=.
have z (j : 'I_(7 + gsize)) : j != EstimatorEnum.time gsize ->
    (map_mx Val (set_at 0 (EstimatorEnum.time gsize) t : 'rV[C]_(7 + gsize)))
      0 j = Val 0.
  by move=> /negbTE jt; rewrite mxE set_atE jt mxE.
rewrite !z //= nmC mul0r mul0r eqxx.
by do !split; rewrite !set_atE -?val_eqE /= ?z //= ?eqxx.
Qed.

(** The array that the root reduces into, register by register, when the
    local array is [zero]'s. *)
Lemma reduced_entry (comm : option communicator) (es : 'rV[np C]_(7 + gsize))
  (old : 'rV[np C]_(7 + gsize)) (j : 'I_(7 + gsize)) :
  Mixed.idle_root comm ->
  let global := match comm with
                | Some c => Mixed.Reduce c es old
                | None => es
                end in
  (es 0 j = NonFinite -> global 0 j = NonFinite)
  /\ (j \in [:: EstimatorEnum.weight gsize; EstimatorEnum.enumer gsize;
                EstimatorEnum.edenom gsize] ->
      es 0 j = Val 0 -> global 0 j = Val 0).
Proof.
case: comm => [[rk bs]|] //= [rk0 idle]; rewrite /Mixed.Reduce /= rk0 eqxx.
rewrite Reduce_entry; split=> [->|inj ->]; first exact: np_add_fold_nonfinite.
apply: np_add_fold_zero => x /List.in_map_iff [b [<- /idle [b0 b1 b2]]].
by move: inj; rewrite !inE => /or3P [] /eqP ->.
Qed.

(** What a process that emits pushes to the energies dataset. *)
Lemma print_step_row (self : state) (comm : option communicator)
  (nprocs step nmeasure : int) (now now' : C) :
  is_true (if comm is Some c then Mixed.rank c == 0%N else true) ->
  let sent := (Mixed.normalise (Mixed.estimates self) nprocs nmeasure now).1 in
  let global :=
    match comm with
    | Some c => Mixed.Reduce c sent (map_mx Val (Mixed.global_estimates self))
    | None => sent
    end in
  exists e,
    (Mixed.print_step self comm nprocs step nmeasure now now').2 = Some e
    /\ Mixed.row e =
       map_mx (fun x => np_div x (Val nmeasure%:~R)) (lsubmx global).
Proof.
rewrite /Mixed.print_step; case: (Mixed.normalise _ _ _ _) => es denom /= ->.
by eexists.
Qed.

(** C7.  [print_step] twice with no [update] in between.  After each
    emission the local array is zero except for the reseeded time register
    and the global array is zero.  The second emission, on a process that
    emits, pushes a row whose weight, numerator and denominator are zero
    and whose projected, kinetic and potential energies, quotients by the
    zero denominator, are non-finite: the division is visible in the row. *)
Theorem mixed_print_step_twice (self : state)
  (comm comm' : option communicator)
  (nprocs nprocs' step step' nmeasure nmeasure' : int)
  (now1 now2 now3 now4 : C) :
  nmeasure' != 0 ->
  Mixed.idle_root comm' ->
  let first := Mixed.print_step self comm nprocs step nmeasure now1 now2 in
  let second :=
    Mixed.print_step first.1 comm' nprocs' step' nmeasure' now3 now4 in
  [/\ Mixed.estimates first.1 = set_at 0 (EstimatorEnum.time gsize) now2
      /\ Mixed.global_estimates first.1 = 0,
      Mixed.estimates second.1 = set_at 0 (EstimatorEnum.time gsize) now4
      /\ Mixed.global_estimates second.1 = 0
    & exists e,
      [/\ second.2 = Some e,
          [/\ Mixed.row e 0 (r7 0) = Val 0, Mixed.row e 0 (r7 1) = Val 0
            & Mixed.row e 0 (r7 2) = Val 0]
        & [/\ Mixed.row e 0 (r7 3) = NonFinite,
              Mixed.row e 0 (r7 4) = NonFinite
            & Mixed.row e 0 (r7 5) = NonFinite]]].
Proof.
move=> nm0 idle first second; split=> //.
have root : is_true (if comm' is Some c then Mixed.rank c == 0%N else true).
  by case: comm' idle {second} => [c [-> _]|].
have [e [em rowE]] :=
  print_step_row first.1 nprocs' step' nmeasure' now3 now4 root.
have [w0 n0 d0 [p0 k0 v0]] := normalise_zeroed now2 nprocs' now3 nm0.
have nmC : (nmeasure'%:~R == 0 :> C) = false by rewrite intr_eq0 (negbTE nm0).
set sent := (Mixed.normalise _ _ _ _).1 in w0 n0 d0 p0 k0 v0.
have red := @reduced_entry comm' sent
              (map_mx Val (Mixed.global_estimates first.1)) _ idle.
exists e; split=> //; split; rewrite rowE mxE [lsubmx _ _ _]mxE.
- by have [_ ->] := red (EstimatorEnum.weight gsize);
    rewrite ?inE ?eqxx //= nmC mul0r.
- by have [_ ->] := red (EstimatorEnum.enumer gsize);
    rewrite ?inE ?eqxx ?orbT //= nmC mul0r.
- by have [_ ->] := red (EstimatorEnum.edenom gsize);
    rewrite ?inE ?eqxx ?orbT //= nmC mul0r.
- by have [->] := red (EstimatorEnum.eproj gsize).
- by have [->] := red (EstimatorEnum.ekin gsize).
- by have [->] := red (EstimatorEnum.epot gsize).
Qed.

End MixedEmissionFacts.

Lemma mixed_print_step_twice_witness :
  let first := Mixed.print_step fresh_mixed None 1 0 1 0 0 in
  let second := Mixed.print_step first.1 None 1 1 1 0 0 in
  [/\ Mixed.estimates first.1 = set_at 0 (EstimatorEnum.time 0) 0
      /\ Mixed.global_estimates first.1 = 0,
      Mixed.estimates second.1 = set_at 0 (EstimatorEnum.time 0) 0
      /\ Mixed.global_estimates second.1 = 0
    & exists e,
      [/\ second.2 = Some e,
          [/\ Mixed.row e 0 (@Ordinal 7 0 isT) = Val 0,
              Mixed.row e 0 (@Ordinal 7 1 isT) = Val 0
            & Mixed.row e 0 (@Ordinal 7 2 isT) = Val 0]
        & [/\ Mixed.row e 0 (@Ordinal 7 3 isT) = NonFinite,
              Mixed.row e 0 (@Ordinal 7 4 isT) = NonFinite
            & Mixed.row e 0 (@Ordinal 7 5 isT) = NonFinite]]].
Proof.
exact: (@mixed_print_step_twice algC 0 fresh_mixed None None 1 1 0 1 1 1
          0 0 0 0 isT I).
Defined.

(** ** The back-propagation estimator *)

Section BackPropagationFacts.

Variable C : numClosedFieldType.
Variables nbasis nup ndown : nat.
Variables (field_configs_t config trial_t BT2_t : Type).
Variable get_block :
  field_configs_t -> seq config * seq (seq C) * seq (seq C).

Notation walker := (BackPropagation.walker C nbasis nup ndown field_configs_t).
Notation state :=
  (@BackPropagation.state C nbasis nup ndown field_configs_t trial_t BT2_t).
Notation calculate_weight_factor :=
  (@BackPropagation.calculate_weight_factor C nbasis nup ndown
     field_configs_t config trial_t BT2_t get_block).

Lemma np_div_step (a b w c : C) :
  np_div (np_mul (np_div (Val a) (Val b)) (Val w)) (Val c) =
  np_div (Val (a * w)) (Val (b * c)).
Proof.
rewrite /np_div /np_mul /=; case: (eqVneq b 0) => [->|b0] /=.
  by rewrite mul0r eqxx.
rewrite mulf_eq0 (negbTE b0) /=; case: (eqVneq c 0) => [//|c0].
by rewrite invfM [a / b * w]mulrAC -mulrA.
Qed.

(** The loop of [calculate_weight_factor] under the policy ["full"]. *)
Lemma weight_factor_full (self : state) (wrows crows : seq (seq C))
  (ws cs : seq C) (a b : C) :
  BackPropagation.restore_weights self = Some "full"%string ->
  [seq ohead r | r <- wrows] = [seq Some w | w <- ws] ->
  [seq ohead r | r <- crows] = [seq Some c | c <- cs] ->
  size ws = size cs ->
  Py.for_each
    (fun (factor : np C) (wc : seq C * seq C) =>
       let: (w, c) := wc in
       w0 <- BackPropagation.item0 w ;;
       let factor := np_mul factor (Val w0) in
       if BackPropagation.restore_weights self is Some p then
         if String.eqb p "full" then
           c0 <- BackPropagation.item0 c ;; Ok (np_div factor (Val c0))
         else Ok factor
       else Ok factor)
    (zip wrows crows) (np_div (Val a) (Val b))
  = Ok (np_div (Val (a * \prod_(w <- ws) w)) (Val (b * \prod_(c <- cs) c))).
Proof.
move=> ->; elim: wrows crows ws cs a b
  => [|wr wrows IH] [|cr crows] [|w ws] [|c cs] a b //=.
- by rewrite !big_nil !mulr1.
- case: wr => [|w' wr] //= [<- eqw]; case: cr => [|c' cr] //= [<- eqc] [sz].
  by rewrite np_div_step (IH _ ws cs) // !big_cons !mulrA.
Qed.

(** The loop of [calculate_weight_factor] under any other policy. *)
Lemma weight_factor_other (self : state) (wrows crows : seq (seq C))
  (ws : seq C) (a : C) :
  BackPropagation.restore_weights self <> Some "full"%string ->
  [seq ohead r | r <- wrows] = [seq Some w | w <- ws] ->
  size wrows = size crows ->
  Py.for_each
    (fun (factor : np C) (wc : seq C * seq C) =>
       let: (w, c) := wc in
       w0 <- BackPropagation.item0 w ;;
       let factor := np_mul factor (Val w0) in
       if BackPropagation.restore_weights self is Some p then
         if String.eqb p "full" then
           c0 <- BackPropagation.item0 c ;; Ok (np_div factor (Val c0))
         else Ok factor
       else Ok factor)
    (zip wrows crows) (Val a)
  = Ok (Val (a * \prod_(w <- ws) w)).
Proof.
case: (BackPropagation.restore_weights self) => [p|] notfull.
- have -> : String.eqb p "full" = false.
    by case: (String.eqb_spec p "full") notfull => // ->.
  elim: wrows crows ws a => [|wr wrows IH] [|cr crows] [|w ws] a //=.
    by rewrite big_nil mulr1.
  case: wr => [|w' wr] //= [<- eqw] [sz].
  by rewrite (IH _ ws) // big_cons mulrA.
- elim: wrows crows ws a => [|wr wrows IH] [|cr crows] [|w ws] a //=.
    by rewrite big_nil mulr1.
  case: wr => [|w' wr] //= [<- eqw] [sz].
  by rewrite (IH _ ws) // big_cons mulrA.
Qed.

(** C5.  For a walker whose history stores the weight factors [ws] and
    the cosine factors [cs], one of each per step,
    [calculate_weight_factor] returns the product of [ws] divided by the
    product of [cs] when the policy is ["full"], and the product of [ws]
    under every other policy.  The quotient is numpy's: it is non-finite
    when a cosine factor is zero. *)
Theorem calculate_weight_factor_products (self : state) (w : walker)
  (configs : seq config) (wrows crows : seq (seq C)) (ws cs : seq C) :
  get_block (BackPropagation.field_configs w) = (configs, crows, wrows) ->
  [seq ohead r | r <- wrows] = [seq Some x | x <- ws] ->
  [seq ohead r | r <- crows] = [seq Some x | x <- cs] ->
  size ws = size cs ->
  (BackPropagation.restore_weights self = Some "full"%string ->
   calculate_weight_factor self w =
   Ok (np_div (Val (\prod_(x <- ws) x)) (Val (\prod_(x <- cs) x))))
  /\
  (BackPropagation.restore_weights self <> Some "full"%string ->
   calculate_weight_factor self w = Ok (Val (\prod_(x <- ws) x))).
Proof.
move=> blk heads_w heads_c sz.
rewrite /BackPropagation.calculate_weight_factor blk; split=> policy.
- have -> : Val 1 = np_div (Val (1 : C)) (Val 1).
    by rewrite /np_div oner_eq0 divr1.
  by rewrite (weight_factor_full _ _ policy heads_w heads_c sz) !mul1r.
- rewrite (weight_factor_other _ policy heads_w) ?mul1r //.
  by rewrite -(size_map ohead) heads_w -(size_map ohead crows) heads_c
             !size_map.
Qed.

Notation update_uhf :=
  (@BackPropagation.update_uhf C nbasis nup ndown field_configs_t config
     trial_t BT2_t get_block).


End BackPropagationFacts.

Lemma calculate_weight_factor_products_witness :
  BackPropagation.calculate_weight_factor bp_get_block
    (bp_state (Zpos xH) (Some "full"%string)) bp_walker =
  Ok (np_div (Val (\prod_(x <- [:: 1; 1]) x))
        (Val (\prod_(x <- [:: 2%:R; 1]) x)))
  /\
  BackPropagation.calculate_weight_factor bp_get_block
    (bp_state (Zpos xH) (Some "half"%string)) bp_walker =
  Ok (Val (\prod_(x <- [:: 1; 1]) x)).
Proof.
split.
- apply:
    (proj1 (@calculate_weight_factor_products algC 1 1 1 bp_store unit unit
              unit bp_get_block (bp_state (Zpos xH) (Some "full"%string))
              bp_walker [::] [:: [:: 1]; [:: 1]] [:: [:: 2%:R]; [:: 1]]
              [:: 1; 1] [:: 2%:R; 1] erefl erefl erefl erefl)).
  reflexivity.
- apply:
    (proj2 (@calculate_weight_factor_products algC 1 1 1 bp_store unit unit
              unit bp_get_block (bp_state (Zpos xH) (Some "half"%string))
              bp_walker [::] [:: [:: 1]; [:: 1]] [:: [:: 2%:R]; [:: 1]]
              [:: 1; 1] [:: 2%:R; 1] erefl erefl erefl erefl)).
  discriminate.
Defined.



(** ** Persisting the ITCF *)

Section OutputFacts.

Variable C : numClosedFieldType.
Variable nbasis : nat.

Lemma push_store (D : Type) (h : H5EstimatorHelper D) (d : D) :
  store (push h d) (index h) = Some d /\ index (push h d) = (index h).+1.
Proof. by rewrite /push /= eqxx. Qed.

(** Entry [k] of the diagonal of a block is its entry [(k, k)]. *)
Lemma diagonal_entry (M : 'M[C]_nbasis) (k : 'I_nbasis) :
  (\row_j M j j) 0 k = M k k.
Proof. by rewrite mxE. Qed.

End OutputFacts.

(** C8.  [to_file] on a buffer with at least one slice.  Mode ['full']
    pushes the buffer itself, every basis-index pair of every slice; mode
    ['diagonal'] pushes, for every slice and block, the row of diagonal
    entries.  Under a list of index pairs nothing is persisted: the branch
    raises [NameError], where the claim has it persist the selected
    elements. *)
Theorem to_file_modes (C : numClosedFieldType) nbasis
  (group : H5EstimatorHelper (ITCF.dataset C nbasis))
  (spgf : seq (ITCF.slice C nbasis)) (elements : seq (nat * nat)) :
  spgf <> [::] ->
  [/\ exists2 g, ITCF.to_file (ITCF.ModeName "full") group spgf = Ok g
        & store g (index group) = Some (ITCF.FullData spgf),
      exists2 g, ITCF.to_file (ITCF.ModeName "diagonal") group spgf = Ok g
        & store g (index group) =
          Some (ITCF.DiagonalData [seq ITCF.diagonal s | s <- spgf])
    & ITCF.to_file (ITCF.ModeElements elements) group spgf = Raise NameError].
Proof.
case: spgf => [|s spgf] // _; split.
- by eexists; [reflexivity | rewrite /= eqxx].
- by eexists; [reflexivity | rewrite /= eqxx].
- by [].
Qed.

Lemma to_file_modes_witness :
  let group := h5_create (ITCF.dataset algC 1) in
  let spgf := ITCF.zeros algC 1 0 in
  [/\ exists2 g, ITCF.to_file (ITCF.ModeName "full") group spgf = Ok g
        & store g (index group) = Some (ITCF.FullData spgf),
      exists2 g, ITCF.to_file (ITCF.ModeName "diagonal") group spgf = Ok g
        & store g (index group) =
          Some (ITCF.DiagonalData [seq ITCF.diagonal s | s <- spgf])
    & ITCF.to_file (ITCF.ModeElements [:: (0%N, 0%N)]) group spgf
      = Raise NameError].
Proof.
apply: (@to_file_modes algC 1 (h5_create _) (ITCF.zeros algC 1 0)
          [:: (0%N, 0%N)]).
discriminate.
Defined.

(** ** Slice 0 of the ITCF *)

Lemma bind_Ok (T U : Type) (c : result T) (k : T -> result U) (y : U) :
  Py.bind c k = Ok y -> exists2 x, c = Ok x & k x = Ok y.
Proof. by case: c => [x|e] //= kx; exists x. Qed.

Ltac inv_bind :=
  let H := fresh "H" in move=> H; case: (bind_Ok H) => {H}.

Section PolicyFacts.

Variable C : numClosedFieldType.
Variable nbasis : nat.
Variables (left_t right_t gf_t run_t prop_t : Type).
Variables (config aux_t mdw_t field_configs_t : Type).

Notation walker := (ITCF.walker C left_t right_t mdw_t field_configs_t).
Notation slice := (ITCF.slice C nbasis).
Notation slice0 := (nth (ITCF.zero_slice C nbasis)).

Variable get_superblock : field_configs_t -> seq config * aux_t.
Variable back_propagate_single :
  left_t -> seq config -> mdw_t -> bool -> left_t * mdw_t * seq left_t.
Variable construct_propagator_matrix : config -> prop_t.
Variable propagate_single : right_t -> prop_t -> right_t.
Variable reortho_spin_blocks : right_t -> right_t.
Variable copy_init_wfn : seq walker -> seq walker.
Variable initial_greens_function :
  left_t -> right_t -> mdw_t -> result (gf_t * gf_t).
Variable accumulate :
  nat -> C -> gf_t -> gf_t -> seq slice -> result (seq slice).
Variable accumulate_run :
  nat -> C -> run_t -> run_t -> seq slice -> result (seq slice).
Variable increment_tau_unstable :
  gf_t -> gf_t -> prop_t -> result (gf_t * gf_t).
Variable increment_tau_stable :
  run_t -> run_t -> prop_t -> gf_t -> gf_t -> result (run_t * run_t).
Variable identity : run_t.
Variable nstblz : Z.

(** What the bound [accumulate] does to the buffer: at index 0 it replaces
    slice 0 by [term] of it; at a later index it leaves slice 0 alone. *)
Variable term : C -> gf_t -> gf_t -> slice -> slice.

Hypothesis accumulate_first : forall wt G1 G2 spgf spgf',
  accumulate 0 wt G1 G2 spgf = Ok spgf' ->
  [/\ (0 < size spgf)%N, size spgf' = size spgf
    & slice0 spgf' 0 = term wt G1 G2 (slice0 spgf 0)].

Hypothesis accumulate_later : forall idx wt G1 G2 spgf spgf',
  accumulate idx.+1 wt G1 G2 spgf = Ok spgf' ->
  size spgf' = size spgf /\ slice0 spgf' 0 = slice0 spgf 0.

Hypothesis accumulate_run_later : forall idx wt G1 G2 spgf spgf',
  accumulate_run idx.+1 wt G1 G2 spgf = Ok spgf' ->
  size spgf' = size spgf /\ slice0 spgf' 0 = slice0 spgf 0.

Notation unstable_step :=
  (ITCF.unstable_step (field_configs_t := field_configs_t)
     (left_t := left_t) (right_t := right_t) (mdw_t := mdw_t)
     construct_propagator_matrix accumulate increment_tau_unstable).
Notation stable_step :=
  (ITCF.stable_step (field_configs_t := field_configs_t)
     construct_propagator_matrix propagate_single reortho_spin_blocks
     initial_greens_function accumulate_run increment_tau_stable nstblz).
Notation unstable_walker :=
  (ITCF.unstable_walker get_superblock back_propagate_single
     construct_propagator_matrix initial_greens_function accumulate
     increment_tau_unstable).
Notation stable_walker :=
  (ITCF.stable_walker get_superblock back_propagate_single
     construct_propagator_matrix propagate_single reortho_spin_blocks
     initial_greens_function accumulate accumulate_run increment_tau_stable
     identity nstblz).
Notation calculate_spgf_unstable :=
  (ITCF.calculate_spgf_unstable get_superblock back_propagate_single
     construct_propagator_matrix copy_init_wfn initial_greens_function
     accumulate increment_tau_unstable).
Notation calculate_spgf_stable :=
  (ITCF.calculate_spgf_stable get_superblock back_propagate_single
     construct_propagator_matrix propagate_single reortho_spin_blocks
     copy_init_wfn initial_greens_function accumulate accumulate_run
     increment_tau_stable identity nstblz).

(** The inner loops write to slices 1, 2, ... only. *)
Lemma unstable_steps_frame (w : walker) ics st st' :
  Py.for_each (unstable_step w) ics st = Ok st' ->
  size st'.2 = size st.2 /\ slice0 st'.2 0 = slice0 st.2 0.
Proof.
elim: ics st => [|[ic c] ics IH] st /=; first by case=> <-.
inv_bind=> st1; case: st => [[Ggr Gls] spgf]; rewrite /ITCF.unstable_step.
inv_bind=> G _; inv_bind=> spgf1 /accumulate_later [sz1 s1] [<-] /IH /=.
by rewrite sz1 s1.
Qed.

Lemma stable_steps_frame (w : walker) psi_Ls ics st st' :
  Py.for_each (stable_step w psi_Ls) ics st = Ok st' ->
  size st'.2 = size st.2 /\ slice0 st'.2 0 = slice0 st.2 0.
Proof.
elim: ics st => [|[ic c] ics IH] st /=; first by case=> <-.
inv_bind=> st1; case: st => [[[[Ggr Gls] Gnn] phi] spgf].
rewrite /ITCF.stable_step.
inv_bind=> G _; inv_bind=> spgf1 /accumulate_run_later [sz1 s1].
inv_bind=> L _; inv_bind=> phi' _; inv_bind=> Gnn' _ [<-] /IH /=.
by rewrite sz1 s1.
Qed.

Notation left_reference :=
  (ITCF.left_reference get_superblock back_propagate_single).

(** One walker adds to slice 0 the term of its equal-time Green's function,
    under either policy. *)
Lemma unstable_walker_slice0 spgf done w spgf' done' :
  unstable_walker (spgf, done) w = Ok (spgf', done') ->
  exists2 G,
    initial_greens_function (left_reference false w).1 (ITCF.phi_init w)
      (left_reference false w).2 = Ok G
    & [/\ (0 < size spgf)%N, size spgf' = size spgf
        & slice0 spgf' 0 = term (ITCF.weight w) G.1 G.2 (slice0 spgf 0)].
Proof.
rewrite /ITCF.unstable_walker /=.
inv_bind=> G eqG; inv_bind=> spgf1 /accumulate_first [pos sz1 s1].
inv_bind=> r /unstable_steps_frame /= [sz2 s2] [<- _].
by exists G => //; split; rewrite ?sz2 ?s2.
Qed.

Lemma stable_walker_slice0 spgf done w spgf' done' :
  stable_walker (spgf, done) w = Ok (spgf', done') ->
  exists2 G,
    initial_greens_function (left_reference true w).1 (ITCF.phi_init w)
      (left_reference true w).2 = Ok G
    & [/\ (0 < size spgf)%N, size spgf' = size spgf
        & slice0 spgf' 0 = term (ITCF.weight w) G.1 G.2 (slice0 spgf 0)].
Proof.
rewrite /ITCF.stable_walker /=.
inv_bind=> G eqG; inv_bind=> spgf1 /accumulate_first [pos sz1 s1].
inv_bind=> [[[[[Ggr Gls] Gnn] phi] spgf2]] /stable_steps_frame /=.
by case=> sz2 s2 [<- _]; exists G => //; split; rewrite ?sz2 ?s2.
Qed.

(** The equal-time Green's functions of a population, one per walker. *)
Notation equal_time store psi :=
  [seq initial_greens_function (left_reference store w).1 (ITCF.phi_init w)
         (left_reference store w).2 | w <- psi].

Notation add_terms :=
  (foldl (fun s (p : walker * (gf_t * gf_t)) =>
            term (ITCF.weight p.1) p.2.1 p.2.2 s)).

Lemma unstable_walkers_slice0 psi spgf done spgf' done' :
  Py.for_each unstable_walker psi (spgf, done) = Ok (spgf', done') ->
  size spgf' = size spgf /\
  exists2 Gs, equal_time false psi = [seq Ok G | G <- Gs]
    & slice0 spgf' 0 = add_terms (slice0 spgf 0) (zip psi Gs).
Proof.
elim: psi spgf done => [|w psi IH] spgf done /=.
  by case=> <- _; split=> //; exists [::].
inv_bind=> [[spgf1 done1]] /unstable_walker_slice0 [G eqG [_ sz1 s1]].
case/IH=> sz2 [Gs eqGs s2]; split; first by rewrite sz2.
by exists (G :: Gs); rewrite /= ?eqG ?eqGs // s2 s1.
Qed.

Lemma stable_walkers_slice0 psi spgf done spgf' done' :
  Py.for_each stable_walker psi (spgf, done) = Ok (spgf', done') ->
  size spgf' = size spgf /\
  exists2 Gs, equal_time true psi = [seq Ok G | G <- Gs]
    & slice0 spgf' 0 = add_terms (slice0 spgf 0) (zip psi Gs).
Proof.
elim: psi spgf done => [|w psi IH] spgf done /=.
  by case=> <- _; split=> //; exists [::].
inv_bind=> [[spgf1 done1]] /stable_walker_slice0 [G eqG [_ sz1 s1]].
case/IH=> sz2 [Gs eqGs s2]; split; first by rewrite sz2.
by exists (G :: Gs); rewrite /= ?eqG ?eqGs // s2 s1.
Qed.

Lemma slice0_map (f : slice -> slice) (spgf : seq slice) :
  (0 < size spgf)%N -> slice0 [seq f s | s <- spgf] 0 = f (slice0 spgf 0).
Proof. by case: spgf. Qed.

(** Slice 0 after [calculate_spgf_unstable]. *)
Lemma calculate_spgf_unstable_slice0 spgf psi out psi' :
  (0 < size spgf)%N ->
  calculate_spgf_unstable spgf psi = Ok (out, psi') ->
  exists2 Gs, equal_time false psi = [seq Ok G | G <- Gs]
    & slice0 out 0 =
      ITCF.divide_slice (ITCF.total_weight psi)
        (add_terms (slice0 spgf 0) (zip psi Gs)).
Proof.
move=> pos; rewrite /ITCF.calculate_spgf_unstable.
inv_bind=> [[spgf1 done1]] /unstable_walkers_slice0 [sz [Gs eqGs s1]] [<- _].
by exists Gs => //; rewrite slice0_map ?sz // s1.
Qed.

(** Slice 0 after [calculate_spgf_stable]. *)
Lemma calculate_spgf_stable_slice0 spgf psi out psi' :
  (0 < size spgf)%N ->
  calculate_spgf_stable spgf psi = Ok (out, psi') ->
  exists2 Gs, equal_time true psi = [seq Ok G | G <- Gs]
    & slice0 out 0 =
      ITCF.divide_slice (ITCF.total_weight psi)
        (add_terms (slice0 spgf 0) (zip psi Gs)).
Proof.
move=> pos; rewrite /ITCF.calculate_spgf_stable.
inv_bind=> [[spgf1 done1]] /stable_walkers_slice0 [sz [Gs eqGs s1]] [<- _].
by exists Gs => //; rewrite slice0_map ?sz // s1.
Qed.

End PolicyFacts.

Section UHFSliceFacts.

Variable C : numClosedFieldType.
Variable nbasis : nat.

Notation slice := (ITCF.slice C nbasis).
Notation slice0 := (nth (ITCF.zero_slice C nbasis)).
Notation stacked := ('M[C]_nbasis * 'M[C]_nbasis)%type.

Lemma update_slice_inv idx (f : slice -> slice) spgf spgf' :
  ITCF.update_slice idx f spgf = Ok spgf' ->
  [/\ (idx < size spgf)%N, size spgf' = size spgf,
      slice0 spgf' idx = f (slice0 spgf idx)
    & forall j, j != idx -> slice0 spgf' j = slice0 spgf j].
Proof.
rewrite /ITCF.update_slice; case: ifP => // lt_idx [<-]; split=> //.
- by rewrite size_set_nth; apply/maxn_idPr.
- by rewrite nth_set_nth /= eqxx.
- by move=> j /negbTE neq; rewrite nth_set_nth /= neq.
Qed.

Lemma accumulate_uhf_first wt (G1 G2 : stacked) spgf spgf' :
  ITCF.accumulate_uhf 0 wt G1 G2 spgf = Ok spgf' ->
  [/\ (0 < size spgf)%N, size spgf' = size spgf
    & slice0 spgf' 0 = ITCF.uhf_term wt G1 G2 (slice0 spgf 0)].
Proof. by case/update_slice_inv. Qed.

Lemma accumulate_uhf_later idx wt (G1 G2 : stacked) spgf spgf' :
  ITCF.accumulate_uhf idx.+1 wt G1 G2 spgf = Ok spgf' ->
  size spgf' = size spgf /\ slice0 spgf' 0 = slice0 spgf 0.
Proof. by case/update_slice_inv=> _ -> _ ->. Qed.

Lemma accumulate_uhf_rows_later idx wt (G1 G2 : 'M[C]_nbasis) spgf spgf' :
  ITCF.accumulate_uhf_rows idx.+1 wt G1 G2 spgf = Ok spgf' ->
  size spgf' = size spgf /\ slice0 spgf' 0 = slice0 spgf 0.
Proof.
rewrite /ITCF.accumulate_uhf_rows; case: ifP => // _.
inv_bind=> g0 _; inv_bind=> g1 _; inv_bind=> l0 _; inv_bind=> l1 _.
by case/update_slice_inv=> _ -> _ ->.
Qed.

(** The terms of a population added to a zeroed slice. *)
Lemma uhf_terms_sum (T : Type) (wt : T -> C) (l : seq (T * (stacked * stacked)))
  (a b c d : 'M[C]_nbasis) :
  foldl (fun s p => ITCF.uhf_term (wt p.1) p.2.1 p.2.2 s)
    (ITCF.Slice (Val a) (Val b) (Val c) (Val d)) l
  = ITCF.Slice
      (Val (a + \sum_(p <- l) wt p.1 *: real_part p.2.1.1))
      (Val (b + \sum_(p <- l) wt p.1 *: real_part p.2.1.2))
      (Val (c + \sum_(p <- l) wt p.1 *: real_part p.2.2.1))
      (Val (d + \sum_(p <- l) wt p.1 *: real_part p.2.2.2)).
Proof.
elim: l a b c d => [|p l IH] a b c d /=; first by rewrite !big_nil !addr0.
by rewrite /ITCF.uhf_term /= IH !big_cons !addrA.
Qed.

End UHFSliceFacts.


Section GHFSliceFacts.

Variable C : numClosedFieldType.
Variable nbasis : nat.

Notation slice0 := (nth (ITCF.zero_slice C nbasis)).
Notation ghf_mx := 'M[C]_(nbasis + nbasis).



End GHFSliceFacts.


Lemma itcf_example_greens_function :
  ITCF.initial_greens_function_uhf itcf_phi itcf_phi tt
  = Ok ((0, 1%:M), (1%:M, 0)).
Proof.
rewrite /ITCF.initial_greens_function_uhf /itcf_phi row_mxKl row_mxKr.
rewrite (gab_self_square (unitmx1 _ _)) /gab.
have -> : dagger (0 : 'M[algC]_(2, 0)) *m 0 = 1%:M by rewrite [LHS]flatmx0 [RHS]flatmx0.
by rewrite (inv_unit (unitmx1 _ _)) /= mul0mx subrr !subr0 subrr.
Qed.

Lemma itcf_example_unstable : exists r, itcf_unstable = Ok r.
Proof.
rewrite /itcf_unstable /ITCF.calculate_spgf_unstable_uhf.
rewrite /ITCF.calculate_spgf_unstable /= /ITCF.unstable_walker /=.
rewrite itcf_example_greens_function /=.
rewrite increment_tau_uhf_unstable_down /= ?unitmx1 //.
by eexists.
Qed.

Lemma increment_tau_uhf_stable_rows_total (C : numClosedFieldType) n
  (Ggr Gls : 'M[C]_n.+2) (B Gnn_gr Gnn_ls : 'M[C]_n.+2 * 'M[C]_n.+2) :
  B.1 \in unitmx -> B.2 \in unitmx ->
  exists G, ITCF.increment_tau_uhf_stable_rows Ggr Gls B Gnn_gr Gnn_ls = Ok G.
Proof.
move=> u1 u2.
have [G -> _] := increment_tau_uhf_stable_rows_down Ggr Gls Gnn_gr Gnn_ls u1 u2.
by exists G.
Qed.

Lemma accumulate_uhf_rows_total (C : numClosedFieldType) n idx wt
  (Ggr Gls : 'M[C]_n.+2) (spgf : seq (ITCF.slice C n.+2)) :
  (idx < size spgf)%N ->
  exists spgf', ITCF.accumulate_uhf_rows idx wt Ggr Gls spgf = Ok spgf'.
Proof.
move=> lt_idx; rewrite /ITCF.accumulate_uhf_rows lt_idx.
have lt0 : (0 < n.+2)%N by []. have lt1 : (1 < n.+2)%N by [].
rewrite !(getitem_row_in _ lt0) !(getitem_row_in _ lt1) /=.
by rewrite /ITCF.update_slice lt_idx; eexists.
Qed.

Lemma itcf_example_stable : exists r, itcf_stable = Ok r.
Proof.
rewrite /itcf_stable /ITCF.calculate_spgf_stable_uhf.
rewrite /ITCF.calculate_spgf_stable /= /ITCF.stable_walker /=.
rewrite itcf_example_greens_function /= /ITCF.stable_step /=.
have [G ->] /= := @increment_tau_uhf_stable_rows_total algC 0 1%:M 1%:M
  (itcf_propagator tt) (0, 1%:M) (1%:M, 0) (unitmx1 _ _) (unitmx1 _ _).
by have [spgf ->] /= := @accumulate_uhf_rows_total algC 0 1 1 G.1 G.2
     [:: ITCF.Slice (Val (0 + 1 *: real_part 0))
           (Val (0 + 1 *: real_part 1%:M)) (Val (0 + 1 *: real_part 1%:M))
           (Val (0 + 1 *: real_part 0)); ITCF.zero_slice algC 2] isT;
   eexists.
Qed.




Section SliceZero.

Variable C : numClosedFieldType.
Variables nbasis nup ndown : nat.
Variables (config aux_t mdw_t field_configs_t : Type).

Notation wfn := 'M[C]_(nbasis, nup + ndown).
Notation ghf_wfn := 'M[C]_(nbasis + nbasis, nup + ndown).
Notation uhf_walker := (ITCF.walker C wfn wfn mdw_t field_configs_t).
Notation ghf_walker :=
  (ITCF.walker C (seq ghf_wfn) ghf_wfn (seq C) field_configs_t).

Variable get_superblock : field_configs_t -> seq config * aux_t.
Variable nstblz : Z.

(** The collaborators of the spin-separated representation. *)
Variable back_propagate_single :
  wfn -> seq config -> mdw_t -> bool -> wfn * mdw_t * seq wfn.
Variable construct_propagator_matrix :
  config -> 'M[C]_nbasis * 'M[C]_nbasis.
Variable propagate_single : wfn -> 'M[C]_nbasis * 'M[C]_nbasis -> wfn.
Variable reortho : forall k, 'M[C]_(nbasis, k) -> 'M[C]_(nbasis, k) * 'M[C]_k.
Variable copy_init_wfn : seq uhf_walker -> seq uhf_walker.

(** The collaborators of the generalized representation. *)
Variable choose : C -> seq C -> C.
Variable coeffs : seq C.
Variable back_propagate_single_ghf :
  seq ghf_wfn -> seq config -> seq C -> bool ->
  seq ghf_wfn * seq C * seq (seq ghf_wfn).
Variable construct_propagator_matrix_ghf : config -> 'M[C]_(nbasis + nbasis).
Variable propagate_single_ghf : ghf_wfn -> 'M[C]_(nbasis + nbasis) -> ghf_wfn.
Variable reortho_ghf :
  forall k, 'M[C]_(nbasis + nbasis, k) ->
            'M[C]_(nbasis + nbasis, k) * 'M[C]_k.
Variable copy_init_wfn_ghf : seq ghf_walker -> seq ghf_walker.

(** The back-propagated left reference state of a walker is fixed: it is
    the same whether or not the intermediate states are stored. *)
Hypothesis left_fixed : forall phi cfgs wts,
  (back_propagate_single phi cfgs wts false).1 =
  (back_propagate_single phi cfgs wts true).1.
Hypothesis left_fixed_ghf : forall phi cfgs wts,
  (back_propagate_single_ghf phi cfgs wts false).1 =
  (back_propagate_single_ghf phi cfgs wts true).1.

Notation left_reference :=
  (ITCF.left_reference get_superblock back_propagate_single false).
Notation left_reference_ghf :=
  (ITCF.left_reference get_superblock back_propagate_single_ghf false).


End SliceZero.


(** ** Slice 0 is complementary *)

Section SliceZeroComplement.

Variable C : numClosedFieldType.
Variables nbasis nup ndown : nat.
Variables (mdw_t field_configs_t : Type).

Notation wfn := 'M[C]_(nbasis, nup + ndown).
Notation stacked := ('M[C]_nbasis * 'M[C]_nbasis)%type.
Notation uhf_walker := (ITCF.walker C wfn wfn mdw_t field_configs_t).

Lemma real_partD m k (A B : 'M[C]_(m, k)) :
  real_part (A + B) = real_part A + real_part B.
Proof. by apply/matrixP=> i j; rewrite !mxE raddfD. Qed.

Lemma real_part1 n : real_part (1%:M : 'M[C]_n) = 1%:M.
Proof.
by apply/matrixP=> i j; rewrite !mxE; apply/Creal_ReP; rewrite realn.
Qed.

(** Whatever [initial_greens_function_uhf] returns is complementary. *)
Lemma initial_greens_function_uhf_sum (A B : wfn) (w : mdw_t) G :
  ITCF.initial_greens_function_uhf A B w = Ok G ->
  G.1.1 + G.2.1 = 1%:M /\ G.1.2 + G.2.2 = 1%:M.
Proof.
rewrite /ITCF.initial_greens_function_uhf.
by inv_bind=> gu _; inv_bind=> gd _ [<-] /=; rewrite !complement_sum.
Qed.

(** With a non-zero total weight, the greater and the lesser blocks of the
    specification's slice 0 sum to the identity in each spin channel. *)
Lemma weighted_equal_time_sum (psi : seq uhf_walker)
  (Gs : seq (stacked * stacked)) :
  size Gs = size psi ->
  (forall G, List.In G Gs ->
     G.1.1 + G.2.1 = 1%:M /\ G.1.2 + G.2.2 = 1%:M) ->
  ITCF.total_weight psi != 0 ->
  let s := ITCF.weighted_equal_time psi Gs in
  np_add_mx (ITCF.up_greater s) (ITCF.up_lesser s) = Val 1%:M
  /\ np_add_mx (ITCF.down_greater s) (ITCF.down_lesser s) = Val 1%:M.
Proof.
move=> sz compl w0; rewrite /ITCF.weighted_equal_time /= (negbTE w0) /=.
have total :
    \sum_(p <- zip psi Gs) ITCF.weight p.1 *: (1%:M : 'M[C]_nbasis)
    = ITCF.total_weight psi *: 1%:M.
  rewrite -scaler_suml /ITCF.total_weight; congr (_ *: _).
  by rewrite -[in RHS](@unzip1_zip _ _ psi Gs) ?sz // big_map.
have inzip p : List.In p (zip psi Gs) -> List.In p.2 Gs.
  elim: (psi) (Gs) => [|w ws IH] [|G Gs'] //= [<-|/IH]; [by left | by right].
have sums (f g : stacked * stacked -> 'M[C]_nbasis) :
    (forall G, List.In G Gs -> f G + g G = 1%:M) ->
    \sum_(p <- zip psi Gs) ITCF.weight p.1 *: real_part (f p.2)
    + \sum_(p <- zip psi Gs) ITCF.weight p.1 *: real_part (g p.2)
    = ITCF.total_weight psi *: 1%:M.
  move=> fg; rewrite -big_split /= -total.
  elim: (zip psi Gs) inzip => [|p l IH] inl; first by rewrite !big_nil.
  have IHl := IH (fun q inq => inl q (or_intror inq)).
  have inp : List.In p.2 Gs by apply: inl; left.
  by rewrite !big_cons IHl -scalerDr -real_partD fg // real_part1.
split; congr Val; rewrite -scalerDr.
- rewrite (sums (fun G => G.1.1) (fun G => G.2.1)) ?scalerA ?mulVf ?scale1r //.
  by move=> G /compl [].
- rewrite (sums (fun G => G.1.2) (fun G => G.2.2)) ?scalerA ?mulVf ?scale1r //.
  by move=> G /compl [].
Qed.

End SliceZeroComplement.

Section SliceZeroComplementRun.

Variable C : numClosedFieldType.
Variables nbasis nup ndown : nat.
Variables (config aux_t mdw_t field_configs_t : Type).

Notation wfn := 'M[C]_(nbasis, nup + ndown).
Notation uhf_walker := (ITCF.walker C wfn wfn mdw_t field_configs_t).

Variable get_superblock : field_configs_t -> seq config * aux_t.
Variable back_propagate_single :
  wfn -> seq config -> mdw_t -> bool -> wfn * mdw_t * seq wfn.
Variable construct_propagator_matrix :
  config -> 'M[C]_nbasis * 'M[C]_nbasis.
Variable propagate_single : wfn -> 'M[C]_nbasis * 'M[C]_nbasis -> wfn.
Variable reortho : forall k, 'M[C]_(nbasis, k) -> 'M[C]_(nbasis, k) * 'M[C]_k.
Variable copy_init_wfn : seq uhf_walker -> seq uhf_walker.
Variable nstblz : Z.

Lemma map_Ok_In (T U : Type) (f : T -> result U) (s : seq T) (t : seq U) :
  [seq f x | x <- s] = [seq Ok y | y <- t] ->
  size t = size s /\ forall y, List.In y t -> exists x, f x = Ok y.
Proof.
elim: s t => [|x s IH] [|y t] //= [fx /IH [-> int]]; split=> // z [<-|/int //].
by exists x.
Qed.

(** X26.  The consequence for slice 0: after a window accumulated into a
    zeroed buffer by a population of non-zero total weight, the greater and
    the lesser blocks of slice 0 sum to the identity in each spin channel,
    under either policy. *)
Lemma itcf_slice0_complementary (nmax : nat) (psi : seq uhf_walker)
  (stable : bool) out psi' :
  ITCF.total_weight psi != 0 ->
  (if stable then
     ITCF.calculate_spgf_stable_uhf get_superblock back_propagate_single
       construct_propagator_matrix propagate_single reortho copy_init_wfn
       nstblz (ITCF.zeros C nbasis nmax) psi
   else
     ITCF.calculate_spgf_unstable_uhf get_superblock back_propagate_single
       construct_propagator_matrix copy_init_wfn (ITCF.zeros C nbasis nmax)
       psi) = Ok (out, psi') ->
  let s := nth (ITCF.zero_slice C nbasis) out 0 in
  np_add_mx (ITCF.up_greater s) (ITCF.up_lesser s) = Val 1%:M
  /\ np_add_mx (ITCF.down_greater s) (ITCF.down_lesser s) = Val 1%:M.
Proof.
move=> w0 run.
have [Gs [sz compl] ->] : exists2 Gs,
    size Gs = size psi /\
    (forall G, List.In G Gs -> G.1.1 + G.2.1 = 1%:M /\ G.1.2 + G.2.2 = 1%:M)
    & nth (ITCF.zero_slice C nbasis) out 0 = ITCF.weighted_equal_time psi Gs.
  case: stable run.
  - case/(calculate_spgf_stable_slice0 (@accumulate_uhf_first C nbasis)
            (@accumulate_uhf_rows_later C nbasis)
            (isT : 0 < size (ITCF.zeros _ _ _))%N) => Gs /map_Ok_In [sz inGs] ->.
    exists Gs; last by rewrite /ITCF.weighted_equal_time uhf_terms_sum !add0r.
    split=> // G /inGs [w]; exact: initial_greens_function_uhf_sum.
  - case/(calculate_spgf_unstable_slice0 (@accumulate_uhf_first C nbasis)
            (@accumulate_uhf_later C nbasis)
            (isT : 0 < size (ITCF.zeros _ _ _))%N) => Gs /map_Ok_In [sz inGs] ->.
    exists Gs; last by rewrite /ITCF.weighted_equal_time uhf_terms_sum !add0r.
    split=> // G /inGs [w]; exact: initial_greens_function_uhf_sum.
exact: weighted_equal_time_sum.
Qed.

End SliceZeroComplementRun.

(** ** The unstable policy returns *)

Section UnstableReturns.

Variable C : numClosedFieldType.
Variables nbasis nup ndown : nat.
Variables (config aux_t mdw_t field_configs_t : Type).

Notation wfn := 'M[C]_(nbasis, nup + ndown).
Notation stacked := ('M[C]_nbasis * 'M[C]_nbasis)%type.
Notation uhf_walker := (ITCF.walker C wfn wfn mdw_t field_configs_t).
Notation slice := (ITCF.slice C nbasis).

Variable get_superblock : field_configs_t -> seq config * aux_t.
Variable back_propagate_single :
  wfn -> seq config -> mdw_t -> bool -> wfn * mdw_t * seq wfn.
Variable construct_propagator_matrix : config -> stacked.
Variable copy_init_wfn : seq uhf_walker -> seq uhf_walker.

Notation left_reference :=
  (ITCF.left_reference get_superblock back_propagate_single false).

Notation regular :=
  (ITCF.regular get_superblock back_propagate_single
     construct_propagator_matrix).

Lemma accumulate_uhf_total idx wt (G1 G2 : stacked) (spgf : seq slice) :
  (idx < size spgf)%N ->
  exists2 spgf', ITCF.accumulate_uhf idx wt G1 G2 spgf = Ok spgf'
    & size spgf' = size spgf.
Proof.
move=> lt_idx; rewrite /ITCF.accumulate_uhf /ITCF.update_slice lt_idx.
by eexists; rewrite ?size_set_nth //; apply/maxn_idPr.
Qed.

Lemma unstable_steps_total (w : uhf_walker) (configs : seq config) i st :
  (i + size configs < size st.2)%N ->
  (forall c, List.In c configs ->
     (construct_propagator_matrix c).1 \in unitmx
     /\ (construct_propagator_matrix c).2 \in unitmx) ->
  exists2 st',
    Py.for_each
      (ITCF.unstable_step (left_t := wfn) (right_t := wfn) (mdw_t := mdw_t)
         (field_configs_t := field_configs_t) construct_propagator_matrix
         (@ITCF.accumulate_uhf C nbasis)
         (@ITCF.increment_tau_uhf_unstable C nbasis) w)
      (zip (iota i (size configs)) configs) st = Ok st'
    & size st'.2 = size st.2.
Proof.
elim: configs i st => [|c configs IH] i [[Ggr Gls] spgf] /= lt_sz units.
  by eexists.
have [u1 u2] := units c (or_introl erefl).
rewrite increment_tau_uhf_unstable_down //=.
have lt_i : (i.+1 < size spgf)%N.
  by apply: leq_ltn_trans lt_sz; rewrite -addSnnS leq_addr.
case: (accumulate_uhf_total (ITCF.weight w)
         ((construct_propagator_matrix c).1 *m Ggr.1,
          (construct_propagator_matrix c).2 *m Ggr.2)
         (Gls.1 *m invmx (construct_propagator_matrix c).1,
          Gls.2 *m invmx (construct_propagator_matrix c).2) lt_i)
  => spgf1 -> sz1 /=.
have [|//|st' -> sz'] := IH i.+1
  ((construct_propagator_matrix c).1 *m Ggr.1,
   (construct_propagator_matrix c).2 *m Ggr.2,
   (Gls.1 *m invmx (construct_propagator_matrix c).1,
    Gls.2 *m invmx (construct_propagator_matrix c).2), spgf1).
- by rewrite /= sz1 addSnnS.
- by move=> c' inc; apply: units; right.
by exists st'; rewrite // sz' /= sz1.
Qed.

Notation unstable_walker_uhf :=
  (ITCF.unstable_walker get_superblock back_propagate_single
     construct_propagator_matrix
     (@ITCF.initial_greens_function_uhf C nbasis nup ndown mdw_t)
     (@ITCF.accumulate_uhf C nbasis)
     (@ITCF.increment_tau_uhf_unstable C nbasis)).

Lemma unstable_walker_total nmax spgf done (w : uhf_walker) :
  size spgf = nmax.+1 -> regular nmax w ->
  exists2 st', unstable_walker_uhf (spgf, done) w = Ok st'
    & size st'.1 = nmax.+1.
Proof.
move=> sz [uu ud le_nmax units]; rewrite /ITCF.unstable_walker /=.
have [Gu [Gd [_ _ ->]]] /= := initial_greens_function_uhf_unit
  (left_reference w).2 uu ud.
have lt0 : (0 < size spgf)%N by rewrite sz.
case: (accumulate_uhf_total (ITCF.weight w) (1%:M - Gu, 1%:M - Gd)
         (1%:M - (1%:M - Gu), 1%:M - (1%:M - Gd)) lt0) => spgf1 -> sz1 /=.
rewrite /Py.enumerate.
have [|//|[[Ggr Gls] spgf2] -> /= sz2] := unstable_steps_total
  (ITCF.Walker (ITCF.weight w) (left_reference w).1 (ITCF.phi_init w)
     (left_reference w).2 (ITCF.field_configs w))
  (configs := (get_superblock (ITCF.field_configs w)).1) (i := 0)
  (st := (1%:M - Gu, 1%:M - Gd,
          (1%:M - (1%:M - Gu), 1%:M - (1%:M - Gd)), spgf1)).
  by rewrite /= sz1 sz add0n ltnS.
by eexists; rewrite //= sz2 sz1.
Qed.

(** The unstable policy returns, raising nothing, on a population of
    regular walkers: walkers whose left and right reference states have
    non-singular overlaps in both spin channels, whose propagators along
    the stored path are invertible, and whose path is no longer than the
    buffer. *)
Lemma calculate_spgf_unstable_uhf_returns nmax (psi : seq uhf_walker) :
  (forall w, List.In w psi -> regular nmax w) ->
  exists out,
    ITCF.calculate_spgf_unstable_uhf get_superblock back_propagate_single
      construct_propagator_matrix copy_init_wfn (ITCF.zeros C nbasis nmax)
      psi = Ok out.
Proof.
rewrite /ITCF.calculate_spgf_unstable_uhf /ITCF.calculate_spgf_unstable.
move=> reg.
suff [st ->] : exists st,
    Py.for_each unstable_walker_uhf psi (ITCF.zeros C nbasis nmax, [::])
    = Ok st by eexists.
have: size (ITCF.zeros C nbasis nmax) = nmax.+1 by rewrite size_nseq.
elim: psi (ITCF.zeros C nbasis nmax) [::] reg => [|w psi IH] spgf done reg sz.
  by eexists.
have [[spgf1 done1] /= -> sz1] /= :=
  unstable_walker_total done sz (reg w (or_introl erefl)).
by apply: IH => // w' inw; apply: reg; right.
Qed.

End UnstableReturns.

(** * Further properties of the kernels and accumulators *)

From Stdlib Require Import Lia.

(** ** The Green's-function kernel *)

Section KernelAlgebra.

Variable C : numClosedFieldType.

Lemma invmx_mul n (P Q : 'M[C]_n) :
  P \in unitmx -> Q \in unitmx -> invmx (P *m Q) = invmx Q *m invmx P.
Proof.
move=> uP uQ; have uPQ : P *m Q \in unitmx by rewrite unitmx_mul uP uQ.
rewrite -[RHS](mulKmx uPQ) -[LHS]mulmx1; congr (_ *m _).
by rewrite -mulmxA (mulmxA Q) mulmxV // mul1mx mulmxV.
Qed.

Lemma daggerM m k p (A : 'M[C]_(m, k)) (B : 'M[C]_(k, p)) :
  dagger (A *m B) = dagger B *m dagger A.
Proof. by rewrite /dagger map_mxM trmx_mul. Qed.

Lemma daggerK m k (A : 'M[C]_(m, k)) : dagger (dagger A) = A.
Proof.
by apply/matrixP=> i j; rewrite !mxE conjCK.
Qed.

Lemma dagger_inv n (A : 'M[C]_n) : dagger (invmx A) = invmx (dagger A).
Proof. by rewrite /dagger map_invmx trmx_inv. Qed.

End KernelAlgebra.

(** X1.  For a bra [A] and a ket [B] with a non-singular overlap [A^† B],
    [gab] returns a matrix [G] that is idempotent, fixes the columns of the
    ket, is absorbed by the bra on the left, and whose trace is the number
    of columns of the determinants, the number of particles. *)
Theorem gab_projector (C : numClosedFieldType) m k (A B : 'M[C]_(m, k)) :
  dagger A *m B \in unitmx ->
  exists G : 'M[C]_m,
    [/\ gab A B = Ok G, G *m G = G, G *m B = B, dagger A *m G = dagger A
      & \tr G = k%:R].
Proof.
move=> u; exists (B *m (invmx (dagger A *m B) *m dagger A)).
have GB : B *m (invmx (dagger A *m B) *m dagger A) *m B = B.
  by rewrite -!mulmxA mulVmx // mulmx1.
split; first exact: gab_unit.
- by rewrite mulmxA GB.
- exact: GB.
- by rewrite !mulmxA mulmxV // mul1mx.
- by rewrite mxtrace_mulC -mulmxA mulVmx // mxtrace1.
Qed.

Lemma gab_projector_witness :
  exists G : 'M[algC]_2,
    [/\ gab (1%:M : 'M[algC]_2) 1%:M = Ok G, G *m G = G, G *m 1%:M = 1%:M,
        dagger (1%:M : 'M[algC]_2) *m G = dagger 1%:M & \tr G = 2%:R].
Proof.
apply: (@gab_projector algC 2 2 1%:M 1%:M).
by rewrite dagger1 mul1mx unitmx1.
Defined.



(** X3.  [gab] depends on the bra and on the ket only through their column
    spaces: multiplying either on the right by an invertible matrix, as a
    re-orthogonalisation of the orbitals does, leaves the result and the
    error behaviour unchanged. *)
Theorem gab_change_of_basis (C : numClosedFieldType) m k
  (A B : 'M[C]_(m, k)) (R S : 'M[C]_k) :
  R \in unitmx -> S \in unitmx -> gab (A *m R) (B *m S) = gab A B.
Proof.
move=> uR uS; have uR' : dagger R \in unitmx by rewrite dagger_unitmx.
have ovl : dagger (A *m R) *m (B *m S) = dagger R *m (dagger A *m B) *m S.
  by rewrite daggerM !mulmxA.
have unit_eq : (dagger (A *m R) *m (B *m S) \in unitmx)
               = (dagger A *m B \in unitmx).
  by rewrite ovl !unitmx_mul uR' uS andbT.
case: (boolP (dagger A *m B \in unitmx)) => [u|nu]; last first.
  by rewrite /gab !inv_singular // unit_eq.
rewrite gab_unit ?unit_eq // gab_unit //; congr Ok.
rewrite ovl invmx_mul ?unitmx_mul ?uR' // invmx_mul // daggerM.
rewrite -!mulmxA; congr (B *m _); rewrite !mulmxA mulmxV // mul1mx.
by rewrite -!mulmxA; congr (_ *m _); rewrite mulmxA mulVmx // mul1mx.
Qed.

Lemma gab_change_of_basis_witness :
  gab ((1%:M : 'M[algC]_2) *m 1%:M) ((1%:M : 'M[algC]_2) *m 1%:M)
  = gab (1%:M : 'M[algC]_2) 1%:M.
Proof.
exact: (@gab_change_of_basis algC 2 2 1%:M 1%:M 1%:M 1%:M
          (unitmx1 _ _) (unitmx1 _ _)).
Defined.

(** X4.  Exchanging the bra and the ket conjugate-transposes the result:
    [gab(B, A)] is [gab(A, B)^†], and one call raises exactly when the
    other does. *)
Theorem gab_exchange (C : numClosedFieldType) m k (A B : 'M[C]_(m, k)) :
  gab B A = (G <- gab A B ;; Ok (dagger G)).
Proof.
have ovl : dagger B *m A = dagger (dagger A *m B).
  by rewrite daggerM daggerK.
have unit_eq : (dagger B *m A \in unitmx) = (dagger A *m B \in unitmx).
  by rewrite ovl dagger_unitmx.
case: (boolP (dagger A *m B \in unitmx)) => [u|nu]; last first.
  by rewrite /gab !inv_singular // unit_eq.
rewrite gab_unit ?unit_eq // gab_unit //=; congr Ok.
by rewrite !daggerM daggerK dagger_inv -ovl mulmxA.
Qed.

(** X5.  [gab] is [gab_mod] followed by a multiplication by the bra:
    [gab(A, B) = gab_mod(A, B) . A^†], with the same error behaviour, and
    the matrix [gab_mod] returns is a right inverse of [A^†]. *)
Theorem gab_mod_factor (C : numClosedFieldType) m k (A B : 'M[C]_(m, k)) :
  gab A B = (M <- gab_mod A B ;; Ok (M *m dagger A))
  /\ forall M, gab_mod A B = Ok M -> dagger A *m M = 1%:M.
Proof.
rewrite /gab /gab_mod /inv; case: ifP => [u|_] //=; split=> //.
  by rewrite mulmxA.
by move=> M [<-]; rewrite mulmxA mulmxV.
Qed.

Lemma gab_mod_factor_witness :
  dagger (1%:M : 'M[algC]_2) *m (1%:M *m invmx (dagger 1%:M *m 1%:M)) = 1%:M.
Proof.
apply: (proj2 (@gab_mod_factor algC 2 2 1%:M 1%:M)).
have u : dagger (1%:M : 'M[algC]_2) *m 1%:M \in unitmx.
  by rewrite mulmx1 dagger_unitmx unitmx1.
by rewrite /gab_mod (inv_unit u).
Defined.

(** ** The multi-determinant kernels *)

(** X6.  [construct_multi_ghf_gab] returns exactly when every determinant
    of the bra has a non-singular overlap with the ket, and raises
    [LinAlgError] otherwise.  It returns one matrix and one overlap per
    determinant, in order: the matrix is [gab] of that determinant and the
    ket, and the overlap is the determinant of the overlap matrix. *)
Theorem construct_multi_ghf_gab_each (C : numClosedFieldType) m k
  (A : seq 'M[C]_(m, k)) (B : 'M[C]_(m, k)) :
  if all (fun Aix => dagger Aix *m B \in unitmx) A then
    exists Gi overlaps,
      [/\ construct_multi_ghf_gab A B = Ok (Gi, overlaps),
          [seq gab Aix B | Aix <- A] = [seq Ok G | G <- Gi]
        & overlaps = [seq \det (dagger Aix *m B) | Aix <- A]]
  else construct_multi_ghf_gab A B = Raise LinAlgError.
Proof.
elim: A => [|Aix A IH] /=; first by exists [::], [::].
case: (boolP (dagger Aix *m B \in unitmx)) => [u|nu] /=; last first.
  by rewrite inv_singular.
rewrite (inv_unit u) /=; case: ifP IH => _.
- case=> Gi [ov [-> eqG ->]] /=; eexists; eexists; split; first by [].
  + by rewrite /= (gab_unit u) eqG.
  + by rewrite det_inv invrK.
- by move=> ->.
Qed.

Section MultiDeterminantFacts.

Variable C : numClosedFieldType.

Lemma construct_multi_ghf_gab_size m k (A : seq 'M[C]_(m, k))
  (B : 'M[C]_(m, k)) Gi overlaps :
  construct_multi_ghf_gab A B = Ok (Gi, overlaps) ->
  size Gi = size A /\ size overlaps = size A.
Proof.
elim: A Gi overlaps => [|Aix A IH] Gi ov /=; first by case=> <- <-.
inv_bind=> inv_O _; inv_bind=> [[Gi' ov']] /IH [szG szo] [<- <-] /=.
by rewrite szG szo.
Qed.

Lemma sum_zip_scaled m (s : C) (xs : seq C) (Gs : seq 'M[C]_m) :
  \sum_(p <- zip [seq x / s | x <- xs] Gs) p.1 *: p.2
  = s^-1 *: \sum_(p <- zip xs Gs) p.1 *: p.2.
Proof.
elim: xs Gs => [|x xs IH] [|G Gs] /=; rewrite ?big_nil ?scaler0 //.
by rewrite !big_cons IH scalerDr scalerA [s^-1 * x]mulrC.
Qed.

End MultiDeterminantFacts.

(** X7.  [construct_multi_ghf_gab_back_prop], given one back-propagation
    weight and one coefficient per determinant and a non-zero [scale],
    returns the average of the per-determinant matrices weighted by
    [bp_weight * coeff * overlap]: the scale cancels.  The result is
    non-finite when these weights sum to zero. *)
Theorem construct_multi_ghf_gab_back_prop_average (C : numClosedFieldType)
  (choose : C -> seq C -> C) m k (A : seq 'M[C]_(m, k)) (B : 'M[C]_(m, k))
  (coeffs bp_weights : seq C) Gi overlaps mw mo :
  construct_multi_ghf_gab A B = Ok (Gi, overlaps) ->
  size bp_weights = size A -> size coeffs = size A ->
  py_max choose bp_weights = Ok mw -> py_max choose overlaps = Ok mo ->
  choose mw [:: mo] != 0 ->
  let x := [seq p.1 * p.2
           | p <- zip [seq p.1 * p.2 | p <- zip bp_weights coeffs] overlaps] in
  construct_multi_ghf_gab_back_prop choose A B coeffs bp_weights =
  Ok (if \sum_(v <- x) v == 0 then NonFinite
      else Val ((\sum_(v <- x) v)^-1 *: \sum_(p <- zip x Gi) p.1 *: p.2)).
Proof.
move=> run szw szc maxw maxo scale0 x.
have [szG szo] := construct_multi_ghf_gab_size run.
rewrite /construct_multi_ghf_gab_back_prop run /= maxw maxo /=.
rewrite /mul_1d szw szc eqxx /= size_map size_zip szw szc minnn szo eqxx /=.
rewrite -/x (negbTE scale0) /einsum_i_ijk.
have szx : size x = size A.
  by rewrite /x !size_map !size_zip size_map size_zip szw szc szo !minnn.
rewrite size_map szx szG eqxx /= sum_zip_scaled big_map -mulr_suml.
rewrite mulf_eq0 invr_eq0 (negbTE scale0) orbF; case: ifP => // _.
by rewrite scalerA invfM invrK mulfK.
Qed.

Lemma construct_multi_ghf_gab_back_prop_average_witness :
  construct_multi_ghf_gab_back_prop (fun x _ => x)
    [:: (1%:M : 'M[algC]_(1 + 1, 2))] 1%:M [:: 1] [:: 1] =
  Ok (let x := [seq p.1 * p.2
               | p <- zip [seq p.1 * p.2 | p <- zip [:: 1] [:: 1]]
                        [:: (\det (invmx (dagger (1%:M : 'M[algC]_(1 + 1, 2))
                                          *m 1%:M)))^-1]] in
      if \sum_(v <- x) v == 0 then NonFinite
      else Val ((\sum_(v <- x) v)^-1
                *: \sum_(p <- zip x [:: (1%:M : 'M[algC]_(1 + 1))
                                        *m (invmx (dagger (1%:M : 'M[algC]_(1 + 1, 2)) *m 1%:M)
                                            *m dagger (1%:M : 'M[algC]_(1 + 1, 2)))])
                     p.1 *: p.2)).
Proof.
have u : dagger (1%:M : 'M[algC]_(1 + 1, 2)) *m 1%:M \in unitmx.
  by rewrite mulmx1 dagger_unitmx unitmx1.
have run : construct_multi_ghf_gab [:: (1%:M : 'M[algC]_(1 + 1, 2))] 1%:M =
    Ok ([:: (1%:M : 'M[algC]_(1 + 1))
            *m (invmx (dagger (1%:M : 'M[algC]_(1 + 1, 2)) *m 1%:M)
                *m dagger (1%:M : 'M[algC]_(1 + 1, 2)))],
        [:: (\det (invmx (dagger (1%:M : 'M[algC]_(1 + 1, 2)) *m 1%:M)))^-1]).
  by rewrite /= (inv_unit u).
exact: (@construct_multi_ghf_gab_back_prop_average algC (fun x _ => x) _ _
          [:: 1%:M] 1%:M [:: 1] [:: 1] _ _ _ _ run erefl erefl erefl erefl
          (oner_neq0 _)).
Defined.

(** ** The local-energy kernel *)

(** X8.  For symmetric hopping matrices the Hubbard local energy does not
    change when both components of [G] are transposed, and its kinetic part
    is the contraction [einsum('ij,ji->')] of the generic kernel's one-body
    term: whether the caller transposes the matrix that [gab] returns does
    not matter for the Hubbard model. *)
Theorem local_energy_hubbard_transpose (C : numClosedFieldType) nbasis
  (sys : system C nbasis) (G : 'M[C]_nbasis * 'M[C]_nbasis) :
  ((T sys).1)^T = (T sys).1 -> ((T sys).2)^T = (T sys).2 ->
  local_energy_hubbard sys (G.1^T, G.2^T) = local_energy_hubbard sys G
  /\ (local_energy_hubbard sys G).1.2
     = einsum_ij_ji (T sys).1 G.1 + einsum_ij_ji (T sys).2 G.2.
Proof.
move=> sym1 sym2.
have ke : \sum_i \sum_j ((T sys).1 i j * G.1^T i j + (T sys).2 i j * G.2^T i j)
          = \sum_i \sum_j ((T sys).1 i j * G.1 i j + (T sys).2 i j * G.2 i j).
  rewrite exchange_big /=; apply: eq_bigr => i _; apply: eq_bigr => j _.
  by rewrite !mxE -{1}sym1 -{1}sym2 !mxE.
split.
- rewrite /local_energy_hubbard /= ke; congr (_ + _, _, _).
  + by apply: eq_bigr => i _; rewrite !mxE.
  + by apply: eq_bigr => i _; rewrite !mxE.
- rewrite /local_energy_hubbard /einsum_ij_ji /= -ke -big_split /=.
  apply: eq_bigr => i _; rewrite -big_split /=.
  by apply: eq_bigr => j _; rewrite !mxE.
Qed.

Lemma local_energy_hubbard_transpose_witness :
  let sys := System "Hubbard" (1%:M : 'M[algC]_2, 1%:M) 1 (fun _ _ _ _ => 0) 0 in
  let G : 'M[algC]_2 * 'M[algC]_2 := (1%:M, 1%:M) in
  local_energy_hubbard sys (G.1^T, G.2^T) = local_energy_hubbard sys G
  /\ (local_energy_hubbard sys G).1.2
     = einsum_ij_ji (T sys).1 G.1 + einsum_ij_ji (T sys).2 G.2.
Proof.
apply: (@local_energy_hubbard_transpose algC 2
          (System "Hubbard" (1%:M : 'M[algC]_2, 1%:M) 1 (fun _ _ _ _ => 0) 0)
          (1%:M, 1%:M)); exact: trmx1.
Defined.

(** X9.  On an array [G] of shape [(2, nbasis, nbasis)] over a non-empty
    basis, [local_energy] returns for every system: the Hubbard energies
    when the system is named ["Hubbard"] and the generic two-body energies
    otherwise.  In both cases the first energy it returns is the sum of the
    kinetic and the potential one. *)
Theorem local_energy_total (C : numClosedFieldType) nbasis
  (sys : system C nbasis) (G : 'M[C]_nbasis * 'M[C]_nbasis) :
  (0 < nbasis)%N ->
  exists E Tk V,
    [/\ local_energy sys G = Ok (E, Tk, V), E = Tk + V
      & (E, Tk, V) = if String.eqb (name sys) "Hubbard"
                     then local_energy_hubbard sys G
                     else local_energy_generic sys G].
Proof.
move=> pos; rewrite /local_energy.
have -> : (nbasis == 2 * nbasis)%N = false.
  by apply/negbTE; rewrite neq_ltn mul2n -addnn -{1}[nbasis]addn0 ltn_add2l pos.
case: ifP => _.
- by eexists; eexists; eexists; split; [reflexivity | | reflexivity].
- eexists; eexists; eexists; split; [reflexivity | | reflexivity].
  by rewrite /= addrAC.
Qed.

Lemma local_energy_total_witness :
  exists E Tk V : algC,
    [/\ local_energy bp_system (0, 0) = Ok (E, Tk, V), E = Tk + V
      & (E, Tk, V) = if String.eqb (name bp_system) "Hubbard"
                     then local_energy_hubbard bp_system (0, 0)
                     else local_energy_generic bp_system (0, 0)].
Proof. exact: (@local_energy_total algC 1 bp_system (0, 0) isT). Defined.

(** ** The output helper *)



(** ** The mixed estimator between two emissions *)

Section MixedWindowFacts.

Variable C : numClosedFieldType.
Variable gsize : nat.
Variables (walker trial_t system_t : Type).
Variable weight : walker -> C.
Variable ot : walker -> C.
Variable G_flatten : walker -> 'rV[C]_gsize.
Variable greens_function : trial_t -> walker -> walker.
Variable local_energy : system_t -> walker -> C * C * C.

Notation buffer := 'rV[C]_(7 + gsize).
Notation state := (Mixed.state C gsize).
Notation update :=
  (Mixed.update weight ot G_flatten greens_function local_energy).
Notation walker_term := (Mixed.walker_term weight G_flatten local_energy).
Notation walker_term_fp :=
  (Mixed.walker_term_fp gsize weight ot local_energy).
Notation reg := (EstimatorEnum.reg gsize).
Notation r7 k := (@Ordinal 7 k isT).

Lemma walker_term_fp_reg sys w (k : 'I_7) :
  (walker_term_fp sys w) 0 (reg k) =
  nth 0 [:: weight w; weight w * (local_energy sys w).1.1 * ot w;
            weight w * ot w; 0; 0; 0; 0] k.
Proof.
rewrite /Mixed.walker_term_fp !mxE !eqxx /= ![reg _ == _]reg_eq.
case: k => [[|[|[|[|[|[|[|k]]]]]]] lt_k] //=;
  by rewrite -?val_eqE /= ?mulr1 ?mulr0 ?addr0 ?add0r.
Qed.

Lemma walker_term_fp_tail sys w : rsubmx (walker_term_fp sys w) = 0.
Proof.
apply/rowP=> j; rewrite /Mixed.walker_term_fp !mxE.
by rewrite -!val_eqE /= !mulr0 !addr0.
Qed.

Lemma sum_rsubmx (T : Type) (g : T -> buffer) (s : seq T) :
  rsubmx (\sum_(w <- s) g w) = \sum_(w <- s) rsubmx (g w).
Proof. by rewrite raddf_sum. Qed.

(** The registers after an [update], entry by entry. *)
Lemma update_reg (self : state) sys trial psi fp (k : 'I_7) :
  Mixed.estimates (update self sys trial psi fp).1 0 (reg k) =
  Mixed.estimates self 0 (reg k)
  + \sum_(w <- [seq greens_function trial w | w <- psi])
      (if fp then walker_term_fp sys w 0 (reg k)
       else walker_term (Mixed.rdm self) sys w 0 (reg k)).
Proof.
rewrite update_estimates mxE sum_entry; congr (_ + _).
by apply: eq_bigr => w _; case: fp.
Qed.

Lemma zero_reg (self : state) now (k : 'I_7) :
  Mixed.estimates (Mixed.zero self now) 0 (reg k) =
  if k == r7 6 then now else 0.
Proof.
by rewrite /Mixed.zero /= set_atE [reg _ == _]reg_eq; case: ifP; rewrite ?mxE.
Qed.

(** X11.  Starting from the array that [zero] leaves, after one [update]
    the projected energy is the real part of the quotient of the
    accumulated numerator and denominator: the weighted mean of the real
    parts of the local energies with importance sampling, and the quotient
    of the sums of [weight * E * ot] and [weight * ot] in free projection.
    The quotient is non-finite when the denominator is zero, as for an
    empty population.  [eproj] on the same array returns the same value. *)
Theorem projected_energy_weighted_mean (self : state) now sys trial psi fp :
  let ws := [seq greens_function trial w | w <- psi] in
  let st := (update (Mixed.zero self now) sys trial psi fp).1 in
  let num :=
    if fp then \sum_(w <- ws) weight w * (local_energy sys w).1.1 * ot w
    else \sum_(w <- ws) weight w * 'Re (local_energy sys w).1.1 in
  let den :=
    if fp then \sum_(w <- ws) weight w * ot w else \sum_(w <- ws) weight w in
  Mixed.projected_energy st
  = np_map (fun z => 'Re z) (np_div (Val num) (Val den))
  /\ eproj (Mixed.estimates st) = Mixed.projected_energy st.
Proof.
move=> ws st num den; split; last by [].
rewrite /Mixed.projected_energy /st /num /den {st num den}.
rewrite /EstimatorEnum.enumer /EstimatorEnum.edenom !update_reg !zero_reg.
have -> : (r7 1 == r7 6) = false by [].
have -> : (r7 2 == r7 6) = false by [].
rewrite !add0r -/ws; congr (np_map _ (np_div (Val _) (Val _))).
- case: fp; apply: eq_bigr => w _; first by rewrite walker_term_fp_reg.
  by rewrite walker_term_reg; case: (local_energy sys w) => [[E T] V].
- case: fp; apply: eq_bigr => w _; first by rewrite walker_term_fp_reg.
  by rewrite walker_term_reg; case: (local_energy sys w) => [[E T] V].
Qed.

(** X12.  What [update] never writes.  With importance sampling it leaves
    the projected-energy and time registers as they are and adds the same
    amount to the weight and denominator registers, and without the [rdm]
    option it leaves the tail of the array alone.  In free projection it
    leaves the projected-energy, kinetic, potential and time registers and
    the whole tail as they are. *)
Theorem mixed_update_untouched (self : state) sys trial psi :
  let old := Mixed.estimates self in
  let imp := Mixed.estimates (update self sys trial psi false).1 in
  let fpr := Mixed.estimates (update self sys trial psi true).1 in
  [/\ [/\ imp 0 (reg (r7 3)) = old 0 (reg (r7 3)),
          imp 0 (reg (r7 6)) = old 0 (reg (r7 6))
        & imp 0 (reg (r7 0)) - old 0 (reg (r7 0))
          = imp 0 (reg (r7 2)) - old 0 (reg (r7 2))],
      Mixed.rdm self = false -> rsubmx imp = rsubmx old,
      [/\ fpr 0 (reg (r7 3)) = old 0 (reg (r7 3)),
          fpr 0 (reg (r7 4)) = old 0 (reg (r7 4)),
          fpr 0 (reg (r7 5)) = old 0 (reg (r7 5))
        & fpr 0 (reg (r7 6)) = old 0 (reg (r7 6))]
    & rsubmx fpr = rsubmx old].
Proof.
move=> old imp fpr.
have imp0 (k : 'I_7) (f : walker -> C) :
    (forall w, walker_term (Mixed.rdm self) sys w 0 (reg k) = f w) ->
    imp 0 (reg k) = old 0 (reg k)
                    + \sum_(w <- [seq greens_function trial w | w <- psi]) f w.
  by move=> fE; rewrite /imp update_reg; congr (_ + _); apply: eq_bigr.
have fpr0 (k : 'I_7) :
    (forall w, walker_term_fp sys w 0 (reg k) = 0) ->
    fpr 0 (reg k) = old 0 (reg k).
  by move=> fE; rewrite /fpr update_reg big1 ?addr0.
have term0 (k : 'I_7) w : (k == r7 3) || (k == r7 6) ->
    walker_term (Mixed.rdm self) sys w 0 (reg k) = 0.
  rewrite walker_term_reg; case: (local_energy sys w) => [[E T] V].
  by case/orP=> /eqP ->.
have termw (k : 'I_7) w : (k == r7 0) || (k == r7 2) ->
    walker_term (Mixed.rdm self) sys w 0 (reg k) = weight w.
  rewrite walker_term_reg; case: (local_energy sys w) => [[E T] V].
  by case/orP=> /eqP ->.
split.
- split.
  + by rewrite (imp0 _ (fun=> 0) (fun w => term0 (r7 3) w isT)) big1 ?addr0.
  + by rewrite (imp0 _ (fun=> 0) (fun w => term0 (r7 6) w isT)) big1 ?addr0.
  + have -> := imp0 (r7 0) weight (fun w => termw (r7 0) w isT).
    have -> := imp0 (r7 2) weight (fun w => termw (r7 2) w isT).
    by rewrite [LHS]addrAC [RHS]addrAC !subrr !add0r.
- move=> no_rdm; rewrite /imp update_estimates no_rdm.
  rewrite [rsubmx _]raddfD /= sum_rsubmx big1 ?addr0 // => w _.
  rewrite /Mixed.walker_term; case: (local_energy sys w) => [[E T] V].
  by apply/rowP=> j; rewrite !mxE -!val_eqE /= !mulr0 !addr0.
- by split; apply: fpr0 => w; rewrite walker_term_fp_reg.
- rewrite /fpr update_estimates [rsubmx _]raddfD /= sum_rsubmx big1 ?addr0 //.
  by move=> w _; rewrite walker_term_fp_tail.
Qed.

End MixedWindowFacts.


Lemma mixed_update_untouched_witness :
  rsubmx (Mixed.estimates
            (energy_walkers_update fresh_mixed tt tt [:: 1; 'i] false).1)
  = rsubmx (Mixed.estimates fresh_mixed).
Proof.
have [_ keep _ _] :=
  @mixed_update_untouched algC 0 algC unit unit (fun _ => 1) (fun _ => 1)
    (fun _ => 0) (fun _ w => w) (fun _ w => (w, 0, 0)) fresh_mixed tt tt
    [:: 1; 'i].
exact: keep.
Defined.

Section MixedNormalisationFacts.

Variable C : numClosedFieldType.
Variable gsize : nat.

Notation state := (Mixed.state C gsize).
Notation reg := (EstimatorEnum.reg gsize).
Notation r7 k := (@Ordinal 7 k isT).

(** X13.  Without a communicator, and for non-zero [nprocs], [nmeasure]
    and accumulated denominator, [print_step] pushes a row whose weight,
    numerator and denominator are the accumulated ones divided by
    [nmeasure], and whose projected, kinetic and potential energies are the
    accumulated numerator, kinetic and potential sums divided by
    [denominator * nprocs]: the energy columns do not depend on
    [nmeasure].  The time column is the elapsed time divided by [nprocs]
    and by [nmeasure]. *)
Theorem mixed_print_step_energies (self : state)
  (nprocs step nmeasure : int) (now now' : C) :
  nprocs != 0 -> nmeasure != 0 ->
  Mixed.estimates self 0 (EstimatorEnum.edenom gsize) != 0 ->
  let es := Mixed.estimates self in
  let nm : C := nmeasure%:~R in
  let d := es 0 (EstimatorEnum.edenom gsize) * nprocs%:~R in
  exists e,
    [/\ (Mixed.print_step self None nprocs step nmeasure now now').2 = Some e,
        [/\ Mixed.row e 0 (r7 0) = Val (es 0 (EstimatorEnum.weight gsize) / nm),
            Mixed.row e 0 (r7 1) = Val (es 0 (EstimatorEnum.enumer gsize) / nm)
          & Mixed.row e 0 (r7 2) = Val (es 0 (EstimatorEnum.edenom gsize) / nm)],
        [/\ Mixed.row e 0 (r7 3) = Val (es 0 (EstimatorEnum.enumer gsize) / d),
            Mixed.row e 0 (r7 4) = Val (es 0 (EstimatorEnum.ekin gsize) / d)
          & Mixed.row e 0 (r7 5) = Val (es 0 (EstimatorEnum.epot gsize) / d)]
      & Mixed.row e 0 (r7 6)
        = Val ((now - es 0 (EstimatorEnum.time gsize)) / nprocs%:~R / nm)].
Proof.
move=> np0 nm0 den0 es nm d.
have [e [em rowE]] :=
  @print_step_row _ _ self None nprocs step nmeasure now now' isT.
have npC : (nprocs%:~R == 0 :> C) = false by rewrite intr_eq0 (negbTE np0).
have nmC : (nm == 0) = false by rewrite /nm intr_eq0 (negbTE nm0).
have dn0 : (es 0 (EstimatorEnum.edenom gsize) * nprocs%:~R / nm == 0) = false.
  by rewrite !mulf_eq0 invr_eq0 (negbTE den0) npC nmC.
have quot (x : C) :
    x / (es 0 (EstimatorEnum.edenom gsize) * nprocs%:~R / nm) / nm = x / d.
  rewrite invfM invrK mulrA -[x / _ * nm / nm]mulrA divff ?mulr1 //.
  by rewrite nmC.
exists e; split=> //; last first.
- rewrite rowE mxE [lsubmx _ _ _]mxE /Mixed.normalise /=.
  by rewrite !set_atE -!val_eqE /= !mxE /= npC /= -/nm nmC.
- split; rewrite rowE mxE [lsubmx _ _ _]mxE /Mixed.normalise /=;
    rewrite !set_atE -!val_eqE /= !mxE /= -/nm nmC /= dn0 /= nmC;
    by rewrite quot.
- by split; rewrite rowE mxE [lsubmx _ _ _]mxE /Mixed.normalise /=;
    rewrite !set_atE -!val_eqE /= !mxE /= -/nm nmC.
Qed.

End MixedNormalisationFacts.
Lemma mixed_print_step_energies_witness :
  exists e,
    (Mixed.print_step unit_mixed None 1 0 1 0 0).2 = Some e
    /\ Mixed.row e 0 (@Ordinal 7 3 isT)
       = Val (Mixed.estimates unit_mixed 0 (EstimatorEnum.enumer 0)
              / (Mixed.estimates unit_mixed 0 (EstimatorEnum.edenom 0)
                 * 1%:~R)).
Proof.
have den : Mixed.estimates unit_mixed 0 (EstimatorEnum.edenom 0) != 0.
  by rewrite mxE oner_neq0.
have [e [em _ [p _ _] _]] :=
  @mixed_print_step_energies algC 0 unit_mixed 1 0 1 0 0 isT isT den.
by exists e.
Defined.

(** ** The back-propagation estimator: weight factors *)

Lemma zip_take_min (T U : Type) (s : seq T) (t : seq U) :
  zip s t = zip (take (minn (size s) (size t)) s)
              (take (minn (size s) (size t)) t).
Proof.
elim: s t => [|x s IH] [|y t] //=.
by rewrite minnSS /= -IH.
Qed.

(** X14.  [calculate_weight_factor] pairs the stored weight factors with
    the stored cosine factors and stops at the shorter of the two tables:
    it returns the product of the first [n] weight factors, divided under
    the policy ["full"] by the product of the first [n] cosine factors,
    where [n] is the length of the shorter table.  The rows beyond [n] are
    not read, whatever they hold. *)
Theorem calculate_weight_factor_truncates (C : numClosedFieldType)
  nbasis nup ndown (field_configs_t config trial_t BT2_t : Type)
  (get_block : field_configs_t -> seq config * seq (seq C) * seq (seq C))
  (self : @BackPropagation.state C nbasis nup ndown field_configs_t trial_t
            BT2_t)
  (w : BackPropagation.walker C nbasis nup ndown field_configs_t)
  (configs : seq config) (wrows crows : seq (seq C)) (ws cs : seq C) :
  get_block (BackPropagation.field_configs w) = (configs, crows, wrows) ->
  let n := minn (size wrows) (size crows) in
  [seq ohead r | r <- take n wrows] = [seq Some x | x <- ws] ->
  [seq ohead r | r <- take n crows] = [seq Some x | x <- cs] ->
  (BackPropagation.restore_weights self = Some "full"%string ->
   BackPropagation.calculate_weight_factor get_block self w =
   Ok (np_div (Val (\prod_(x <- ws) x)) (Val (\prod_(x <- cs) x))))
  /\
  (BackPropagation.restore_weights self <> Some "full"%string ->
   BackPropagation.calculate_weight_factor get_block self w
   = Ok (Val (\prod_(x <- ws) x))).
Proof.
move=> blk n heads_w heads_c.
have szn s : size (take n s) = minn n (size s) by rewrite size_take_min.
have szw : size ws = n.
  by rewrite -(size_map Some) -heads_w size_map szn /n minnAC minnn.
have szc : size cs = n.
  by rewrite -(size_map Some) -heads_c size_map szn /n -minnA minnn.
rewrite /BackPropagation.calculate_weight_factor blk (zip_take_min wrows) -/n.
split=> policy.
- have -> : Val 1 = np_div (Val (1 : C)) (Val 1).
    by rewrite /np_div oner_eq0 divr1.
  rewrite (weight_factor_full _ _ policy heads_w heads_c) ?mul1r //.
  by rewrite szw szc.
- rewrite (weight_factor_other _ policy heads_w) ?mul1r //.
  by rewrite !szn /n minnAC minnn -minnA minnn.
Qed.

Lemma calculate_weight_factor_truncates_witness :
  BackPropagation.calculate_weight_factor bp_get_block
    (bp_state (Zpos xH) (Some "full"%string)) bp_walker_uneven =
  Ok (np_div (Val (\prod_(x <- [:: 3%:R]) x)) (Val (\prod_(x <- [:: 2%:R]) x))).
Proof.
apply:
  (proj1 (@calculate_weight_factor_truncates algC 1 1 1 bp_store unit unit
            unit bp_get_block (bp_state (Zpos xH) (Some "full"%string))
            bp_walker_uneven [::] [:: [:: 3%:R]; [::]] [:: [:: 2%:R]]
            [:: 3%:R] [:: 2%:R] erefl erefl erefl)).
reflexivity.
Defined.

(** ** The back-propagation estimator: one window *)

Section BackPropagationWindowFacts.

Variable C : numClosedFieldType.
Variables nbasis nup ndown : nat.
Variables (field_configs_t config trial_t BT2_t : Type).
Variable get_block :
  field_configs_t -> seq config * seq (seq C) * seq (seq C).

Notation walker := (BackPropagation.walker C nbasis nup ndown field_configs_t).
Notation state :=
  (@BackPropagation.state C nbasis nup ndown field_configs_t trial_t BT2_t).
Notation gsize := (nbasis * nbasis + nbasis * nbasis)%N.
Notation buffer := 'rV[np C]_(1 + (3 + gsize)).

Variable copy_historic_wfn : seq walker -> seq walker.
Variable copy_bp_wfn : seq walker -> seq walker -> seq walker.

Notation update_uhf :=
  (@BackPropagation.update_uhf C nbasis nup ndown field_configs_t config
     trial_t BT2_t get_block copy_historic_wfn copy_bp_wfn).
Notation accumulate_walker :=
  (@BackPropagation.accumulate_walker C nbasis nup ndown field_configs_t
     config trial_t BT2_t get_block).

(** The Green's function and the energies that the loop of [update_uhf]
    computes for a walker [p.1] and its back-propagated partner [p.2]. *)
Notation kernel sys :=
  (fun p : walker * walker =>
     G0 <- gab (lsubmx (BackPropagation.phi p.2))
             (lsubmx (BackPropagation.phi_old p.1)) ;;
     G1 <- gab (rsubmx (BackPropagation.phi p.2))
             (rsubmx (BackPropagation.phi_old p.1)) ;;
     e <- local_energy sys (G0^T, G1^T) ;;
     Ok ((G0^T, G1^T), e)).

Lemma for_each_cons (T S : Type) (body : S -> T -> result S) x xs acc :
  Py.for_each body (x :: xs) acc = Py.bind (body acc x) (Py.for_each body xs).
Proof. by []. Qed.

Lemma np_add_Val m (r : 'rV[np C]_m) (a b : 'rV[C]_m) :
  map2_mx (@np_add C) (map2_mx (@np_add C) r (map_mx Val a)) (map_mx Val b)
  = map2_mx (@np_add C) r (map_mx Val (a + b)).
Proof.
by apply/rowP=> j; rewrite !mxE; case: (r 0 j) => [x|] //=; rewrite addrA.
Qed.

Lemma np_add_Val0 m (r : 'rV[np C]_m) :
  map2_mx (@np_add C) r (map_mx Val 0) = r.
Proof.
by apply/rowP=> j; rewrite !mxE; case: (r 0 j) => [x|] //=; rewrite addr0.
Qed.

Lemma accumulate_walker_plain (self : state) sys G es den p t :
  BackPropagation.restore_weights self = None ->
  kernel sys p = Ok t ->
  accumulate_walker self sys (G, es, den) p =
  Ok (t.1,
      row_mx (lsubmx es)
        (map2_mx (@np_add C) (rsubmx es)
           (map_mx Val
              (BackPropagation.weight p.1
               *: BackPropagation.append_energies t.2 t.1))),
      np_add den (Val (BackPropagation.weight p.1))).
Proof.
case: p => wnm wb /= none.
rewrite /BackPropagation.accumulate_walker none.
case: (gab _ _) => [G0|] //=; case: (gab _ _) => [G1|] //=.
case: (local_energy _ _) => [e|] //= [<-] /=.
by congr (Ok (_, row_mx _ (map2_mx _ _ _), _)); apply/rowP=> j; rewrite !mxE.
Qed.

Lemma accumulate_walkers_plain (self : state) sys ps terms G es den :
  BackPropagation.restore_weights self = None ->
  [seq kernel sys p | p <- ps] = [seq Ok t | t <- terms] ->
  Py.for_each (accumulate_walker self sys) ps (G, es, den) =
  Ok (last G [seq t.1 | t <- terms],
      row_mx (lsubmx es)
        (map2_mx (@np_add C) (rsubmx es)
           (map_mx Val
              (\sum_(q <- zip ps terms)
                 BackPropagation.weight q.1.1
                 *: BackPropagation.append_energies q.2.2 q.2.1))),
      np_add den (Val (\sum_(p <- ps) BackPropagation.weight p.1))).
Proof.
move=> none; elim: ps terms G es den => [|p ps IH] [|t terms] G es den //.
  move=> _; rewrite /= !big_nil np_add_Val0 hsubmxK.
  by case: den => [x|] //=; rewrite addr0.
move=> kernels.
have [kp kps] : kernel sys p = Ok t
    /\ [seq kernel sys p | p <- ps] = [seq Ok t | t <- terms].
  by case: kernels.
rewrite for_each_cons (accumulate_walker_plain _ _ _ none kp).
rewrite [Py.bind _ _]/= (IH _ _ _ _ kps) row_mxKl row_mxKr np_add_Val.
rewrite !big_cons.
by case: den => [x|] //=; rewrite addrA.
Qed.

(** X15.  On a window step, with no weight restoration, [update_uhf] adds
    the walkers' weights to register 0 and, to the rest of the array, the
    sum over the walkers of the weight times the energies and the flattened
    Green's function of the back-propagated bra and the walker's old ket,
    [gab] transposed in each spin channel.  It leaves in [self.G] the
    Green's function of the last walker and returns the population after
    [copy_historic_wfn] and [copy_bp_wfn]. *)
Theorem update_uhf_accumulates (self : state) sys qmc_dt trial psi step
  (terms : seq ('M[C]_nbasis * 'M[C]_nbasis * (C * C * C))) :
  BackPropagation.restore_weights self = None ->
  BackPropagation.nmax self <> Z0 ->
  Z.modulo step (BackPropagation.nmax self) = Z0 ->
  let psi_bp :=
    BackPropagation.back_propagate self sys psi trial
      (BackPropagation.nstblz self) (BackPropagation.BT2 self) qmc_dt in
  [seq kernel sys p | p <- zip psi psi_bp] = [seq Ok t | t <- terms] ->
  exists st',
    [/\ update_uhf self sys qmc_dt trial psi step
        = Ok (st', copy_bp_wfn (copy_historic_wfn psi) psi_bp),
        BackPropagation.estimates st' 0 0 =
        np_add (BackPropagation.estimates self 0 0)
          (Val (\sum_(p <- zip psi psi_bp) BackPropagation.weight p.1)),
        rsubmx (BackPropagation.estimates st') =
        map2_mx (@np_add C) (rsubmx (BackPropagation.estimates self))
          (map_mx Val
             (\sum_(q <- zip (zip psi psi_bp) terms)
                BackPropagation.weight q.1.1
                *: BackPropagation.append_energies q.2.2 q.2.1))
      & BackPropagation.G st'
        = last (BackPropagation.G self) [seq t.1 | t <- terms]].
Proof.
move=> none /Z.eqb_neq n0 r0 psi_bp kernels.
rewrite /BackPropagation.update_uhf /Py.mod_ n0 /= r0 /= -/psi_bp.
rewrite (accumulate_walkers_plain _ _ _ none kernels) /=.
eexists; split; first by [].
- rewrite /= set_atE eqxx add0r; congr (np_add _ _).
  have -> : (0 : 'I_(1 + (3 + gsize))) = lshift _ 0 by apply: val_inj.
  by rewrite row_mxEl mxE.
- apply/rowP=> j; rewrite /= mxE set_atE.
  have -> : (rshift 1 j == 0) = false by rewrite -val_eqE.
  by rewrite row_mxEr.
- by [].
Qed.

End BackPropagationWindowFacts.

Lemma update_uhf_accumulates_witness :
  exists st',
    BackPropagation.update_uhf bp_get_block id (fun psi _ => psi)
      (bp_state (Zpos xH) None) bp_system 0 tt [:: bp_walker_unit] Z0
    = Ok (st', [:: bp_walker_unit])
    /\ BackPropagation.estimates st' 0 0 =
       np_add (Val 0)
         (Val (\sum_(p <- zip [:: bp_walker_unit] [:: bp_walker_unit])
                 BackPropagation.weight p.1)).
Proof.
have kernels :
    [seq (G0 <- gab (lsubmx (BackPropagation.phi p.2))
                  (lsubmx (BackPropagation.phi_old p.1)) ;;
          G1 <- gab (rsubmx (BackPropagation.phi p.2))
                  (rsubmx (BackPropagation.phi_old p.1)) ;;
          e <- local_energy bp_system (G0^T, G1^T) ;;
          Ok ((G0^T, G1^T), e))
    | p <- zip [:: bp_walker_unit] [:: bp_walker_unit]]
    = [seq Ok t
      | t <- [:: (((1%:M : 'M[algC]_1)^T, (1%:M : 'M[algC]_1)^T),
                  local_energy_hubbard bp_system
                    ((1%:M : 'M[algC]_1)^T, (1%:M : 'M[algC]_1)^T))]].
  by rewrite /= row_mxKl row_mxKr (gab_self_square (unitmx1 _ _)).
have n0 : BackPropagation.nmax (bp_state (Zpos xH) None) <> Z0 by [].
have [st' [run w0 _ _]] :=
  @update_uhf_accumulates algC 1 1 1 bp_store unit unit unit bp_get_block id
    (fun psi _ => psi) (bp_state (Zpos xH) None) bp_system 0 tt
    [:: bp_walker_unit] Z0 _ erefl n0 erefl kernels.
by exists st'; split; [exact: run | rewrite w0 mxE].
Defined.

(** ** The back-propagation estimator: emission *)

Section BackPropagationEmissionFacts.

Variable C : numClosedFieldType.
Variables nbasis nup ndown : nat.
Variables (field_configs_t trial_t BT2_t : Type).

Notation state :=
  (@BackPropagation.state C nbasis nup ndown field_configs_t trial_t BT2_t).
Notation outputs := (BackPropagation.outputs C nbasis).
Notation communicator := (BackPropagation.communicator C nbasis).

(** X16.  The guard of the back-propagation [print_step].  At step 0 it
    returns without emitting and without resetting, whatever the window
    and the communicator.  At a later step it raises [ZeroDivisionError]
    when the window is zero, returns with the accumulator untouched when
    the step is not a multiple of the window, and, when it is one and there
    is no communicator, fails with [AttributeError] on [comm.Reduce]. *)
Theorem bp_print_step_guard (self : state) (out : outputs)
  (comm : option communicator) (nprocs : int) (step : Z) :
  [/\ BackPropagation.print_step self out comm nprocs Z0
      = BackPropagation.Returned (Ok (self, out)),
      step <> Z0 -> BackPropagation.nmax self = Z0 ->
      BackPropagation.print_step self out comm nprocs step
      = BackPropagation.Returned (Raise ZeroDivisionError),
      step <> Z0 -> BackPropagation.nmax self <> Z0 ->
      Z.modulo step (BackPropagation.nmax self) <> Z0 ->
      BackPropagation.print_step self out comm nprocs step
      = BackPropagation.Returned (Ok (self, out))
    & step <> Z0 -> BackPropagation.nmax self <> Z0 ->
      Z.modulo step (BackPropagation.nmax self) = Z0 ->
      BackPropagation.print_step self out None nprocs step
      = BackPropagation.AttributeError].
Proof.
split=> //.
- by move=> /Z.eqb_neq s0 n0; rewrite /BackPropagation.print_step s0 n0.
- move=> /Z.eqb_neq s0 /Z.eqb_neq n0 /Z.eqb_neq r0.
  by rewrite /BackPropagation.print_step s0 /Py.mod_ n0 r0.
- move=> /Z.eqb_neq s0 /Z.eqb_neq n0 r0.
  by rewrite /BackPropagation.print_step s0 /Py.mod_ n0 r0.
Qed.

(** X17.  At a later step that is a multiple of a non-zero window, with a
    communicator, the back-propagation [print_step] resets the local and
    the global array to zero on every process.  On the root it pushes the
    four registers of the reduced array, the local array plus those of the
    other processes, divided by [nprocs], and with the [rdm] option the
    reduced tail divided by [nprocs]; elsewhere it pushes nothing. *)
Theorem bp_print_step_emits (self : state) (out : outputs)
  (c : communicator) (nprocs : int) (step : Z) :
  step <> Z0 -> BackPropagation.nmax self <> Z0 ->
  Z.modulo step (BackPropagation.nmax self) = Z0 ->
  let global :=
    foldl (fun a b => map2_mx (@np_add C) a b)
      (BackPropagation.estimates self) (BackPropagation.others c) in
  let per_proc (x : np C) := np_div x (Val nprocs%:~R) in
  exists st' out',
    [/\ BackPropagation.print_step self out (Some c) nprocs step
        = BackPropagation.Returned (Ok (st', out')),
        BackPropagation.estimates st' = const_mx (Val 0)
        /\ BackPropagation.global_estimates st' = const_mx (Val 0),
        BackPropagation.rank c = 0%N ->
        [/\ index (BackPropagation.output out')
            = (index (BackPropagation.output out)).+1,
            store (BackPropagation.output out')
              (index (BackPropagation.output out))
            = Some (map_mx per_proc
                      (row_mx (lsubmx global) (lsubmx (rsubmx global))))
          & BackPropagation.dm_output out' =
            if BackPropagation.rdm self
            then push (BackPropagation.dm_output out)
                   (map_mx per_proc (rsubmx (rsubmx global)))
            else BackPropagation.dm_output out]
      & BackPropagation.rank c <> 0%N -> out' = out].
Proof.
move=> /Z.eqb_neq s0 /Z.eqb_neq n0 r0 global per_proc.
rewrite /BackPropagation.print_step s0 /Py.mod_ n0 r0 /=.
eexists; eexists; split; first by [].
- by [].
- move=> rk; rewrite /BackPropagation.Reduce rk /=.
  by split=> //=; rewrite eqxx.
- by move/eqP/negbTE => ->.
Qed.

End BackPropagationEmissionFacts.

Lemma bp_print_step_guard_witness :
  BackPropagation.print_step (bp_state Z0 None) bp_outputs None 1 (Zpos xH)
  = BackPropagation.Returned (Raise ZeroDivisionError)
  /\ BackPropagation.print_step (bp_state (Zpos xH) None) bp_outputs None 1
       (Zpos xH)
     = BackPropagation.AttributeError.
Proof.
have s0 : Zpos xH <> Z0 by [].
have [_ zero _ _] :=
  @bp_print_step_guard algC 1 1 1 bp_store unit unit (bp_state Z0 None)
    bp_outputs None 1 (Zpos xH).
have [_ _ _ none] :=
  @bp_print_step_guard algC 1 1 1 bp_store unit unit
    (bp_state (Zpos xH) None) bp_outputs None 1 (Zpos xH).
by split; [apply: zero | apply: none].
Defined.

Lemma bp_print_step_emits_witness :
  exists st' out',
    BackPropagation.print_step (bp_state (Zpos xH) None) bp_outputs
      (Some bp_comm) 1 (Zpos xH)
    = BackPropagation.Returned (Ok (st', out'))
    /\ index (BackPropagation.output out')
       = (index (BackPropagation.output bp_outputs)).+1.
Proof.
have s0 : Zpos xH <> Z0 by [].
have [st' [out' [run _ root _]]] :=
  @bp_print_step_emits algC 1 1 1 bp_store unit unit
    (bp_state (Zpos xH) None) bp_outputs bp_comm 1 (Zpos xH) s0 s0 erefl.
by exists st', out'; split=> //; have [] := root erefl.
Defined.

(** ** The ITCF: Green's functions along the path *)

Section GreensFunctionAlgebra.

Variable C : numClosedFieldType.

(** The matrix that [gab] returns is idempotent and its trace is the number
    of columns of the determinants. *)
Lemma gab_idempotent m k (A B : 'M[C]_(m, k)) :
  dagger A *m B \in unitmx ->
  let G := B *m (invmx (dagger A *m B) *m dagger A) in
  G *m G = G /\ \tr G = k%:R.
Proof.
move=> u G; have GB : G *m B = B by rewrite /G -!mulmxA mulVmx // mulmx1.
split; first by rewrite -[X in G *m X = _]/(B *m _) mulmxA GB.
by rewrite /G mxtrace_mulC -mulmxA mulVmx // mxtrace1.
Qed.

Lemma complement_idempotent n (G : 'M[C]_n) :
  G *m G = G ->
  [/\ (1%:M - G) *m (1%:M - G) = 1%:M - G, G *m (1%:M - G) = 0
    & (1%:M - G) *m G = 0].
Proof.
move=> GG; have G0 : G *m (1%:M - G) = 0 by rewrite mulmxBr mulmx1 GG subrr.
have G1 : (1%:M - G) *m G = 0 by rewrite mulmxBl mul1mx GG subrr.
by split=> //; rewrite mulmxBr mulmx1 G1 subr0.
Qed.

Lemma complementK n (G : 'M[C]_n) : 1%:M - (1%:M - G) = G.
Proof. by rewrite opprB addrC subrK. Qed.

End GreensFunctionAlgebra.

(** X18.  For bra and ket with non-singular overlaps in both spin channels,
    [initial_greens_function_uhf] returns, in each channel, a greater and a
    lesser Green's function that are complementary projectors: each is
    idempotent and their products vanish.  The trace of the lesser one is
    the number of electrons of that spin. *)
Theorem initial_greens_function_uhf_projectors (C : numClosedFieldType)
  nbasis nup ndown (mdw_t : Type)
  (A B : 'M[C]_(nbasis, nup + ndown)) (w : mdw_t) :
  dagger (lsubmx A) *m lsubmx B \in unitmx ->
  dagger (rsubmx A) *m rsubmx B \in unitmx ->
  exists Ggr Gls : 'M[C]_nbasis * 'M[C]_nbasis,
    [/\ ITCF.initial_greens_function_uhf A B w = Ok (Ggr, Gls),
        [/\ Ggr.1 *m Ggr.1 = Ggr.1, Gls.1 *m Gls.1 = Gls.1,
            Gls.1 *m Ggr.1 = 0 & Ggr.1 *m Gls.1 = 0],
        [/\ Ggr.2 *m Ggr.2 = Ggr.2, Gls.2 *m Gls.2 = Gls.2,
            Gls.2 *m Ggr.2 = 0 & Ggr.2 *m Gls.2 = 0]
      & \tr Gls.1 = nup%:R /\ \tr Gls.2 = ndown%:R].
Proof.
move=> uu ud; rewrite /ITCF.initial_greens_function_uhf.
rewrite (gab_unit uu) (gab_unit ud) /=.
have [GGu tru] := gab_idempotent uu; have [GGd trd] := gab_idempotent ud.
have [cu u0 u1] := complement_idempotent GGu.
have [cd d0 d1] := complement_idempotent GGd.
eexists; eexists; split; first by [].
- by rewrite /= !complementK.
- by rewrite /= !complementK.
- by rewrite /= !complementK.
Qed.

Lemma initial_greens_function_uhf_projectors_witness :
  exists Ggr Gls : 'M[algC]_2 * 'M[algC]_2,
    ITCF.initial_greens_function_uhf itcf_phi itcf_phi tt = Ok (Ggr, Gls)
    /\ \tr Gls.1 = 2%:R /\ \tr Gls.2 = 0%:R.
Proof.
have uu : dagger (lsubmx itcf_phi) *m lsubmx itcf_phi \in unitmx.
  by rewrite /itcf_phi row_mxKl dagger1 mul1mx unitmx1.
have ud : dagger (rsubmx itcf_phi) *m rsubmx itcf_phi \in unitmx.
  by rewrite unitmxE det_mx00 unitr1.
have [Ggr [Gls [run _ _ traces]]] :=
  @initial_greens_function_uhf_projectors algC 2 2 0 unit itcf_phi itcf_phi
    tt uu ud.
by exists Ggr, Gls.
Defined.

(** X19.  The unstable spin-separated increment composes: advancing by a
    propagator [B1] and then by [B2] is advancing once by the product
    [B2 B1] in each spin channel.  One increment keeps the product
    [Gls . Ggr] of each channel, and raises [LinAlgError] when a
    propagator is singular. *)
Theorem increment_tau_uhf_unstable_composes (C : numClosedFieldType) nbasis
  (Ggr Gls B1 B2 : 'M[C]_nbasis * 'M[C]_nbasis) :
  [/\ B1.1 \in unitmx -> B1.2 \in unitmx ->
      B2.1 \in unitmx -> B2.2 \in unitmx ->
      (G <- ITCF.increment_tau_uhf_unstable Ggr Gls B1 ;;
       ITCF.increment_tau_uhf_unstable G.1 G.2 B2)
      = ITCF.increment_tau_uhf_unstable Ggr Gls
          (B2.1 *m B1.1, B2.2 *m B1.2),
      forall G, ITCF.increment_tau_uhf_unstable Ggr Gls B1 = Ok G ->
        G.2.1 *m G.1.1 = Gls.1 *m Ggr.1 /\ G.2.2 *m G.1.2 = Gls.2 *m Ggr.2
    & (B1.1 \notin unitmx) || (B1.2 \notin unitmx) ->
      ITCF.increment_tau_uhf_unstable Ggr Gls B1 = Raise LinAlgError].
Proof.
split.
- move=> u11 u12 u21 u22.
  rewrite !increment_tau_uhf_unstable_down ?unitmx_mul ?u11 ?u12 ?u21 ?u22 //=.
  rewrite increment_tau_uhf_unstable_down //=.
  by rewrite !invmx_mul // !mulmxA.
- rewrite /ITCF.increment_tau_uhf_unstable /inv.
  case: ifP => // u1; case: ifP => // u2 G [<-] /=.
  by rewrite -!mulmxA !(mulmxA (invmx _)) !mulVmx // !mul1mx.
- rewrite /ITCF.increment_tau_uhf_unstable /inv.
  by case: ifP => //= _ /negbTE ->.
Qed.

Lemma increment_tau_uhf_unstable_composes_witness :
  let one : 'M[algC]_1 := 1%:M in
  (G <- ITCF.increment_tau_uhf_unstable (one, one) (one, one) (one, one) ;;
   ITCF.increment_tau_uhf_unstable G.1 G.2 (one, one))
  = ITCF.increment_tau_uhf_unstable (one, one) (one, one)
      (one *m one, one *m one).
Proof.
have [compose _ _] :=
  @increment_tau_uhf_unstable_composes algC 1 (1%:M, 1%:M) (1%:M, 1%:M)
    (1%:M, 1%:M) (1%:M, 1%:M).
by apply: compose; exact: unitmx1.
Defined.

(** X20.  The unstable generalized increment composes in the same way:
    advancing by [B1] and then by [B2] is advancing once by [B2 B1]; one
    increment keeps the product [Gls . Ggr], maps non-finite arrays to
    non-finite arrays, and raises [LinAlgError] when the propagator is
    singular. *)
Theorem increment_tau_ghf_unstable_composes (C : numClosedFieldType) nbasis
  (Ggr Gls : np 'M[C]_(nbasis + nbasis)) (B1 B2 : 'M[C]_(nbasis + nbasis)) :
  [/\ B1 \in unitmx -> B2 \in unitmx ->
      (G <- ITCF.increment_tau_ghf_unstable Ggr Gls B1 ;;
       ITCF.increment_tau_ghf_unstable G.1 G.2 B2)
      = ITCF.increment_tau_ghf_unstable Ggr Gls (B2 *m B1),
      forall G, ITCF.increment_tau_ghf_unstable Ggr Gls B1 = Ok G ->
        np_map2 mulmx G.2 G.1 = np_map2 mulmx Gls Ggr
    & B1 \notin unitmx ->
      ITCF.increment_tau_ghf_unstable Ggr Gls B1 = Raise LinAlgError].
Proof.
split.
- move=> u1 u2; rewrite /ITCF.increment_tau_ghf_unstable.
  rewrite !inv_unit ?unitmx_mul ?u1 ?u2 //= invmx_mul //.
  by case: Ggr => [G|]; case: Gls => [L|] //=; rewrite !mulmxA.
- rewrite /ITCF.increment_tau_ghf_unstable /inv.
  case: ifP => // u1 G [<-] /=.
  case: Ggr => [X|]; case: Gls => [L|] //=.
  by rewrite -!mulmxA (mulmxA (invmx _)) mulVmx // mul1mx.
- by move=> nu; rewrite /ITCF.increment_tau_ghf_unstable inv_singular.
Qed.

Lemma increment_tau_ghf_unstable_composes_witness :
  let one : 'M[algC]_(1 + 1) := 1%:M in
  (G <- ITCF.increment_tau_ghf_unstable (Val one) (Val one) one ;;
   ITCF.increment_tau_ghf_unstable G.1 G.2 one)
  = ITCF.increment_tau_ghf_unstable (Val one) (Val one) (one *m one).
Proof.
have [compose _ _] :=
  @increment_tau_ghf_unstable_composes algC 1 (Val 1%:M) (Val 1%:M) 1%:M 1%:M.
by apply: compose; exact: unitmx1.
Defined.

(** ** The ITCF: the buffer *)

Section BufferFacts.

Variable C : numClosedFieldType.
Variable nbasis : nat.

Notation slice := (ITCF.slice C nbasis).
Notation slice0 := (nth (ITCF.zero_slice C nbasis)).

Lemma update_slice_total idx (f : slice -> slice) (spgf : seq slice) :
  if (idx < size spgf)%N then
    exists spgf',
      [/\ ITCF.update_slice idx f spgf = Ok spgf', size spgf' = size spgf,
          slice0 spgf' idx = f (slice0 spgf idx)
        & forall j, j != idx -> slice0 spgf' j = slice0 spgf j]
  else ITCF.update_slice idx f spgf = Raise IndexError.
Proof.
case: ifP => lt_idx; last by rewrite /ITCF.update_slice lt_idx.
have run : ITCF.update_slice idx f spgf
           = Ok (set_nth (ITCF.zero_slice C nbasis) spgf idx
                   (f (slice0 spgf idx))).
  by rewrite /ITCF.update_slice lt_idx.
by have [_ sz at_idx others] := update_slice_inv run; eexists; split; eauto.
Qed.

End BufferFacts.

(** X21.  [accumulate_uhf] and [accumulate_ghf] raise [IndexError] exactly
    when the time index is not below the number of slices of the buffer.
    Otherwise they return a buffer of the same length in which the slice at
    that index has received [weight * G.real] in its four blocks and every
    other slice is unchanged. *)
Theorem accumulate_bounds (C : numClosedFieldType) nbasis (idx : nat)
  (wt : C) (Ggr Gls : 'M[C]_nbasis * 'M[C]_nbasis)
  (Ggr' Gls' : np 'M[C]_(nbasis + nbasis))
  (spgf : seq (ITCF.slice C nbasis)) :
  let slice0 := nth (ITCF.zero_slice C nbasis) in
  if (idx < size spgf)%N then
    (exists spgf',
       [/\ ITCF.accumulate_uhf idx wt Ggr Gls spgf = Ok spgf',
           size spgf' = size spgf,
           slice0 spgf' idx = ITCF.uhf_term wt Ggr Gls (slice0 spgf idx)
         & forall j, j != idx -> slice0 spgf' j = slice0 spgf j])
    /\
    (exists spgf',
       [/\ ITCF.accumulate_ghf idx wt Ggr' Gls' spgf = Ok spgf',
           size spgf' = size spgf,
           slice0 spgf' idx = ITCF.ghf_term wt Ggr' Gls' (slice0 spgf idx)
         & forall j, j != idx -> slice0 spgf' j = slice0 spgf j])
  else
    ITCF.accumulate_uhf idx wt Ggr Gls spgf = Raise IndexError
    /\ ITCF.accumulate_ghf idx wt Ggr' Gls' spgf = Raise IndexError.
Proof.
move=> slice0; rewrite /ITCF.accumulate_uhf /ITCF.accumulate_ghf.
have := update_slice_total idx (ITCF.uhf_term wt Ggr Gls) spgf.
have := update_slice_total idx (ITCF.ghf_term wt Ggr' Gls') spgf.
by case: ifP.
Qed.

(** ** The ITCF: normalisation *)

Section NormalisationFacts.

Variable C : numClosedFieldType.
Variable nbasis : nat.
Variables (left_t right_t gf_t run_t prop_t : Type).
Variables (config aux_t mdw_t field_configs_t : Type).

Notation walker := (ITCF.walker C left_t right_t mdw_t field_configs_t).
Notation slice := (ITCF.slice C nbasis).

Variable get_superblock : field_configs_t -> seq config * aux_t.
Variable back_propagate_single :
  left_t -> seq config -> mdw_t -> bool -> left_t * mdw_t * seq left_t.
Variable construct_propagator_matrix : config -> prop_t.
Variable propagate_single : right_t -> prop_t -> right_t.
Variable reortho_spin_blocks : right_t -> right_t.
Variable copy_init_wfn : seq walker -> seq walker.
Variable initial_greens_function :
  left_t -> right_t -> mdw_t -> result (gf_t * gf_t).
Variable accumulate :
  nat -> C -> gf_t -> gf_t -> seq slice -> result (seq slice).
Variable accumulate_run :
  nat -> C -> run_t -> run_t -> seq slice -> result (seq slice).
Variable increment_tau_unstable :
  gf_t -> gf_t -> prop_t -> result (gf_t * gf_t).
Variable increment_tau_stable :
  run_t -> run_t -> prop_t -> gf_t -> gf_t -> result (run_t * run_t).
Variable identity : run_t.
Variable nstblz : Z.

Notation calculate_spgf :=
  (ITCF.calculate_spgf get_superblock back_propagate_single
     construct_propagator_matrix propagate_single reortho_spin_blocks
     copy_init_wfn initial_greens_function accumulate accumulate_run
     increment_tau_unstable increment_tau_stable identity nstblz).

Lemma divide_slice0 (s : slice) :
  ITCF.divide_slice 0 s
  = ITCF.Slice NonFinite NonFinite NonFinite NonFinite.
Proof.
by case: s => [[a|] [b|] [c|] [d|]]; rewrite /ITCF.divide_slice /= ?eqxx.
Qed.

(** X22.  Under either policy, when the walkers' weights sum to zero the
    division by the total weight makes every block of every slice
    non-finite; nothing is raised.  In particular, on an empty population
    [calculate_spgf] returns a buffer of the same length whose blocks are
    all non-finite. *)
Theorem calculate_spgf_zero_weight (stable : bool) (spgf : seq slice) :
  calculate_spgf stable spgf [::]
  = Ok (nseq (size spgf)
          (ITCF.Slice NonFinite NonFinite NonFinite NonFinite),
        copy_init_wfn [::])
  /\ forall psi out psi',
       calculate_spgf stable spgf psi = Ok (out, psi') ->
       ITCF.total_weight psi = 0 ->
       out = nseq (size out)
               (ITCF.Slice NonFinite NonFinite NonFinite NonFinite).
Proof.
have nan (l : seq slice) :
    [seq ITCF.divide_slice 0 s | s <- l]
    = nseq (size l) (ITCF.Slice NonFinite NonFinite NonFinite NonFinite).
  by elim: l => [|s l IH] //=; rewrite divide_slice0 IH.
split.
- rewrite /ITCF.calculate_spgf; case: stable;
    by rewrite /ITCF.calculate_spgf_stable /ITCF.calculate_spgf_unstable
               /ITCF.total_weight big_nil /= nan.
- move=> psi out psi'; rewrite /ITCF.calculate_spgf; case: stable;
    rewrite /ITCF.calculate_spgf_stable /ITCF.calculate_spgf_unstable;
    by inv_bind=> r _ [<- _] ->; rewrite nan size_nseq.
Qed.

End NormalisationFacts.

Lemma calculate_spgf_zero_weight_witness :
  ITCF.calculate_spgf_unstable_uhf itcf_get_superblock
    itcf_back_propagate_single itcf_propagator id (ITCF.zeros algC 2 1) [::]
  = Ok (nseq 2 (ITCF.Slice NonFinite NonFinite NonFinite NonFinite), [::]).
Proof.
have [empty nan] :=
  @calculate_spgf_zero_weight algC 2 _ _ _ ('M[algC]_2) _ _ _ _ _
    itcf_get_superblock itcf_back_propagate_single itcf_propagator
    itcf_propagate_single (ITCF.reortho_spin_blocks itcf_reortho) id
    (@ITCF.initial_greens_function_uhf algC 2 2 0 unit)
    (@ITCF.accumulate_uhf algC 2) (@ITCF.accumulate_uhf_rows algC 2)
    (@ITCF.increment_tau_uhf_unstable algC 2)
    (@ITCF.increment_tau_uhf_stable_rows algC 2) 1%:M (Zpos xH) false
    (ITCF.zeros algC 2 1).
have w0 : ITCF.total_weight
            ([::] : seq (ITCF.walker algC 'M[algC]_(2, 2 + 0)
                           'M[algC]_(2, 2 + 0) unit unit)) = 0.
  by rewrite /ITCF.total_weight big_nil.
by have _ := nan [::] _ _ empty w0; exact: empty.
Defined.

(** ** The ITCF: the arrays of the stable spin-separated policy *)

Section StableInvariant.

Variable C : numClosedFieldType.
Variable nbasis : nat.
Variables (left_t right_t gf_t run_t prop_t : Type).
Variables (config aux_t mdw_t field_configs_t : Type).

Notation walker := (ITCF.walker C left_t right_t mdw_t field_configs_t).
Notation slice := (ITCF.slice C nbasis).

Variable get_superblock : field_configs_t -> seq config * aux_t.
Variable back_propagate_single :
  left_t -> seq config -> mdw_t -> bool -> left_t * mdw_t * seq left_t.
Variable construct_propagator_matrix : config -> prop_t.
Variable propagate_single : right_t -> prop_t -> right_t.
Variable reortho_spin_blocks : right_t -> right_t.
Variable copy_init_wfn : seq walker -> seq walker.
Variable initial_greens_function :
  left_t -> right_t -> mdw_t -> result (gf_t * gf_t).
Variable accumulate :
  nat -> C -> gf_t -> gf_t -> seq slice -> result (seq slice).
Variable accumulate_run :
  nat -> C -> run_t -> run_t -> seq slice -> result (seq slice).
Variable increment_tau_stable :
  run_t -> run_t -> prop_t -> gf_t -> gf_t -> result (run_t * run_t).
Variable identity : run_t.
Variable nstblz : Z.

(** A property of the buffer that both kinds of accumulation keep. *)
Variable P : seq slice -> Prop.

Hypothesis accumulate_first_P : forall wt G1 G2 spgf spgf',
  accumulate 0 wt G1 G2 spgf = Ok spgf' -> P spgf -> P spgf'.

Hypothesis accumulate_run_P : forall idx wt G1 G2 spgf spgf',
  accumulate_run idx.+1 wt G1 G2 spgf = Ok spgf' -> P spgf -> P spgf'.

Notation stable_step :=
  (ITCF.stable_step (field_configs_t := field_configs_t)
     construct_propagator_matrix propagate_single reortho_spin_blocks
     initial_greens_function accumulate_run increment_tau_stable nstblz).
Notation stable_walker :=
  (ITCF.stable_walker get_superblock back_propagate_single
     construct_propagator_matrix propagate_single reortho_spin_blocks
     initial_greens_function accumulate accumulate_run increment_tau_stable
     identity nstblz).

Lemma stable_steps_invariant (w : walker) psi_Ls ics st st' :
  Py.for_each (stable_step w psi_Ls) ics st = Ok st' -> P st.2 -> P st'.2.
Proof.
elim: ics st => [|[ic c] ics IH] st /=; first by case=> <-.
inv_bind=> st1; case: st => [[[[Ggr Gls] Gnn] phi] spgf].
rewrite /ITCF.stable_step.
inv_bind=> G _; inv_bind=> spgf1 /accumulate_run_P keep.
inv_bind=> L _; inv_bind=> phi' _; inv_bind=> Gnn' _ [<-] /IH /= step Pspgf.
exact/step/keep.
Qed.

Lemma stable_walker_invariant spgf done w spgf' done' :
  stable_walker (spgf, done) w = Ok (spgf', done') -> P spgf -> P spgf'.
Proof.
rewrite /ITCF.stable_walker /=.
inv_bind=> G _; inv_bind=> spgf1 /accumulate_first_P keep.
inv_bind=> [[[[[Ggr Gls] Gnn] phi] spgf2]] /stable_steps_invariant /= steps.
by case=> <- _ Pspgf; apply/steps/keep.
Qed.

Lemma stable_walkers_invariant psi spgf done spgf' done' :
  Py.for_each stable_walker psi (spgf, done) = Ok (spgf', done') ->
  P spgf -> P spgf'.
Proof.
elim: psi spgf done => [|w psi IH] spgf done /=; first by case=> <- _.
inv_bind=> [[spgf1 done1]] /stable_walker_invariant keep /IH rest Pspgf.
exact/rest/keep.
Qed.

End StableInvariant.

Section ConstantRowsFacts.

Variable C : numClosedFieldType.
Variable nbasis : nat.

Notation slice := (ITCF.slice C nbasis).
Notation slice0 := (nth (ITCF.zero_slice C nbasis)).

(** Every slice after slice 0 is row-constant. *)
Notation later_constant spgf :=
  (forall idx, (0 < idx)%N -> ITCF.slice_constant_rows (slice0 spgf idx)).

Lemma constant_rows_add_real wt (b : np 'M[C]_nbasis) (v : 'rV[C]_nbasis) :
  ITCF.constant_rows b ->
  ITCF.constant_rows (ITCF.add_real wt b (Val (ITCF.broadcast_rows v))).
Proof.
case: b => [M|] // cM N [<-] a a' j.
by rewrite !mxE (cM M erefl a a').
Qed.

Lemma constant_rows_divide (d : C) (b : np 'M[C]_nbasis) :
  ITCF.constant_rows b -> ITCF.constant_rows (np_div_mx b d).
Proof.
case: b => [M|] // cM N; rewrite /np_div_mx; case: ifP => // _ [<-] a a' j.
by rewrite !mxE (cM M erefl a a').
Qed.

Lemma accumulate_uhf_first_constant wt (G1 G2 : 'M[C]_nbasis * 'M[C]_nbasis)
  (spgf spgf' : seq slice) :
  ITCF.accumulate_uhf 0 wt G1 G2 spgf = Ok spgf' ->
  later_constant spgf -> later_constant spgf'.
Proof.
case/update_slice_inv=> _ _ _ others keep idx pos.
have neq : idx != 0%N by rewrite -lt0n.
by rewrite (others _ neq); apply: keep.
Qed.

Lemma accumulate_uhf_rows_constant idx wt (G1 G2 : 'M[C]_nbasis)
  (spgf spgf' : seq slice) :
  ITCF.accumulate_uhf_rows idx.+1 wt G1 G2 spgf = Ok spgf' ->
  later_constant spgf -> later_constant spgf'.
Proof.
rewrite /ITCF.accumulate_uhf_rows; case: ifP => // _.
inv_bind=> g0 _; inv_bind=> g1 _; inv_bind=> l0 _; inv_bind=> l1 _.
case/update_slice_inv=> _ _ at_idx others keep j pos.
case: (j =P idx.+1) => [->|/eqP neq]; last by rewrite (others _ neq); apply: keep.
have [c1 c2 c3 c4] := keep idx.+1 isT.
by rewrite at_idx; split; apply: constant_rows_add_real.
Qed.

End ConstantRowsFacts.

(** X23.  The stable policy for spin-separated walkers seeds its running
    arrays with [numpy.identity(nbasis)], whose items [G[0]] and [G[1]] are
    rows, and [accumulate_uhf] broadcasts a row over a block.  So, starting
    from a zeroed buffer, in every slice after slice 0 each of the four
    blocks that [calculate_spgf_stable] leaves is non-finite or has all its
    rows equal. *)
Theorem calculate_spgf_stable_uhf_constant_rows (C : numClosedFieldType)
  nbasis nup ndown (config aux_t mdw_t field_configs_t : Type)
  (get_superblock : field_configs_t -> seq config * aux_t)
  (back_propagate_single :
     'M[C]_(nbasis, nup + ndown) -> seq config -> mdw_t -> bool ->
     'M[C]_(nbasis, nup + ndown) * mdw_t * seq 'M[C]_(nbasis, nup + ndown))
  (construct_propagator_matrix : config -> 'M[C]_nbasis * 'M[C]_nbasis)
  (propagate_single :
     'M[C]_(nbasis, nup + ndown) -> 'M[C]_nbasis * 'M[C]_nbasis ->
     'M[C]_(nbasis, nup + ndown))
  (reortho : forall k, 'M[C]_(nbasis, k) -> 'M[C]_(nbasis, k) * 'M[C]_k)
  (copy_init_wfn :
     seq (ITCF.walker C 'M[C]_(nbasis, nup + ndown)
            'M[C]_(nbasis, nup + ndown) mdw_t field_configs_t) ->
     seq (ITCF.walker C 'M[C]_(nbasis, nup + ndown)
            'M[C]_(nbasis, nup + ndown) mdw_t field_configs_t))
  (nstblz : Z) (nmax : nat)
  (psi : seq (ITCF.walker C 'M[C]_(nbasis, nup + ndown)
                'M[C]_(nbasis, nup + ndown) mdw_t field_configs_t))
  ss psi_s :
  ITCF.calculate_spgf_stable_uhf get_superblock back_propagate_single
    construct_propagator_matrix propagate_single reortho copy_init_wfn nstblz
    (ITCF.zeros C nbasis nmax) psi
    = Ok (ss, psi_s) ->
  forall idx, (0 < idx)%N ->
    ITCF.slice_constant_rows (nth (ITCF.zero_slice C nbasis) ss idx).
Proof.
rewrite /ITCF.calculate_spgf_stable_uhf /ITCF.calculate_spgf_stable.
inv_bind=> [[spgf1 done1]] run [<- _] idx pos.
have zero_const : ITCF.slice_constant_rows (ITCF.zero_slice C nbasis).
  by split=> M [<-] a a' j; rewrite !mxE.
have start : forall idx, (0 < idx)%N ->
    ITCF.slice_constant_rows
      (nth (ITCF.zero_slice C nbasis) (ITCF.zeros C nbasis nmax) idx).
  by move=> j _; rewrite nth_nseq; case: ifP.
have keep :=
  stable_walkers_invariant (@accumulate_uhf_first_constant C nbasis)
    (@accumulate_uhf_rows_constant C nbasis) run start.
have divided (s : ITCF.slice C nbasis) :
    ITCF.slice_constant_rows s ->
    ITCF.slice_constant_rows (ITCF.divide_slice (ITCF.total_weight psi) s).
  by case=> c1 c2 c3 c4; split; apply: constant_rows_divide.
case: (ltnP idx (size spgf1)) => [lt_idx|ge_idx].
  by rewrite (nth_map (ITCF.zero_slice C nbasis)) //; apply/divided/keep.
by rewrite nth_default ?size_map.
Qed.

Lemma calculate_spgf_stable_uhf_constant_rows_witness :
  exists ss psi_s,
    itcf_stable = Ok (ss, psi_s)
    /\ ITCF.slice_constant_rows (nth (ITCF.zero_slice algC 2) ss 1).
Proof.
have [[ss psi_s] es] := itcf_example_stable.
exists ss, psi_s; split=> //.
exact: (@calculate_spgf_stable_uhf_constant_rows algC 2 2 0 unit unit unit
          unit itcf_get_superblock itcf_back_propagate_single itcf_propagator
          itcf_propagate_single itcf_reortho id (Zpos xH) 1 [:: itcf_walker]
          ss psi_s es 1%N isT).
Defined.

(** X24.  On a single basis function the stable policy for spin-separated
    walkers cannot advance: its running arrays have shape [(1, 1)], and the
    first increment reads [Ggr[1]].  For a first walker with non-singular
    overlaps and at least one stored field configuration,
    [calculate_spgf_stable] raises [IndexError]. *)
Theorem calculate_spgf_stable_uhf_single_site (C : numClosedFieldType)
  nup ndown (config aux_t mdw_t field_configs_t : Type)
  (get_superblock : field_configs_t -> seq config * aux_t)
  (back_propagate_single :
     'M[C]_(1, nup + ndown) -> seq config -> mdw_t -> bool ->
     'M[C]_(1, nup + ndown) * mdw_t * seq 'M[C]_(1, nup + ndown))
  (construct_propagator_matrix : config -> 'M[C]_1 * 'M[C]_1)
  (propagate_single :
     'M[C]_(1, nup + ndown) -> 'M[C]_1 * 'M[C]_1 -> 'M[C]_(1, nup + ndown))
  (reortho : forall k, 'M[C]_(1, k) -> 'M[C]_(1, k) * 'M[C]_k)
  (copy_init_wfn :
     seq (ITCF.walker C 'M[C]_(1, nup + ndown) 'M[C]_(1, nup + ndown) mdw_t
            field_configs_t) ->
     seq (ITCF.walker C 'M[C]_(1, nup + ndown) 'M[C]_(1, nup + ndown) mdw_t
            field_configs_t))
  (nstblz : Z) (nmax : nat)
  (w : ITCF.walker C 'M[C]_(1, nup + ndown) 'M[C]_(1, nup + ndown) mdw_t
         field_configs_t)
  (psi : seq (ITCF.walker C 'M[C]_(1, nup + ndown) 'M[C]_(1, nup + ndown)
                mdw_t field_configs_t)) :
  let L := ITCF.left_reference get_superblock back_propagate_single true w in
  dagger (lsubmx L.1) *m lsubmx (ITCF.phi_init w) \in unitmx ->
  dagger (rsubmx L.1) *m rsubmx (ITCF.phi_init w) \in unitmx ->
  (get_superblock (ITCF.field_configs w)).1 <> [::] ->
  ITCF.calculate_spgf_stable_uhf get_superblock back_propagate_single
    construct_propagator_matrix propagate_single reortho copy_init_wfn nstblz
    (ITCF.zeros C 1 nmax) (w :: psi)
  = Raise IndexError.
Proof.
move=> L uu ud.
rewrite /ITCF.calculate_spgf_stable_uhf /ITCF.calculate_spgf_stable.
rewrite for_each_cons /ITCF.stable_walker.
have [Gu [Gd [_ _ ->]]] := initial_greens_function_uhf_unit
  (ITCF.left_reference get_superblock back_propagate_single true w).2 uu ud.
case: (get_superblock (ITCF.field_configs w)).1 => [|c cs] // _.
rewrite [Py.bind (Ok _) _]/= /ITCF.increment_tau_uhf_stable_rows.
have lt0 : (0 < 1)%N by [].
rewrite (getitem_row_in _ lt0) /= (setitem_row_in _ _ lt0) /=.
by rewrite /ITCF.getitem_row insubF.
Qed.

Lemma calculate_spgf_stable_uhf_single_site_witness :
  ITCF.calculate_spgf_stable_uhf itcf_get_superblock
    site_back_propagate_single site_propagator site_propagate_single
    site_reortho id (Zpos xH) (ITCF.zeros algC 1 1) [:: site_walker]
  = Raise IndexError.
Proof.
apply: (@calculate_spgf_stable_uhf_single_site algC 1 0 unit unit unit unit
          itcf_get_superblock site_back_propagate_single site_propagator
          site_propagate_single site_reortho id (Zpos xH) 1 site_walker [::]).
- by rewrite /= /site_phi row_mxKl dagger1 mul1mx unitmx1.
- by rewrite unitmxE det_mx00 unitr1.
- by [].
Defined.

(** ** The ITCF: the stored left states *)

Section ListIndexFacts.

Variable T : Type.

Lemma py_getitem_nonneg (xs : seq T) (i : Z) :
  Z.le Z0 i -> Z.lt i (Z.of_nat (size xs)) ->
  py_getitem xs i =
  match xs with
  | [::] => Raise IndexError
  | x :: _ => Ok (nth x xs (Z.to_nat i))
  end.
Proof.
move=> /Z.ltb_ge ge0 /Z.leb_gt lt_len.
by rewrite /py_getitem; cbv zeta; rewrite !ge0 lt_len.
Qed.

Lemma py_getitem_negative (xs : seq T) (i : Z) :
  Z.lt i Z0 -> Z.le Z0 (Z.add (Z.of_nat (size xs)) i) ->
  py_getitem xs i =
  match xs with
  | [::] => Raise IndexError
  | x :: _ => Ok (nth x xs (Z.to_nat (Z.add (Z.of_nat (size xs)) i)))
  end.
Proof.
move=> lt0 /Z.ltb_ge ge0.
have /Z.leb_gt lt_len : Z.lt (Z.add (Z.of_nat (size xs)) i) (Z.of_nat (size xs)).
  by lia.
move/Z.ltb_lt: lt0 => lt0.
by rewrite /py_getitem; cbv zeta; rewrite lt0 ge0 lt_len.
Qed.

Lemma py_getitem_below (xs : seq T) (i : Z) :
  Z.lt (Z.add (Z.of_nat (size xs)) i) Z0 ->
  py_getitem xs i = Raise IndexError.
Proof.
move=> below; have /Z.ltb_lt lt0 : Z.lt i Z0 by lia.
move/Z.ltb_lt: below => below.
by rewrite /py_getitem; cbv zeta; rewrite lt0 below.
Qed.

End ListIndexFacts.

(** X25.  The stable policy reads the stored left states with
    [psi_Ls[len(psi_Ls)-ic-1]], that is in reverse order: at step [ic]
    below the number of stored states it gets the state stored [ic]-th
    from the end.  Once [ic] reaches that number the index is negative and
    Python counts it from the end, so the lookup starts over from the last
    stored state instead of failing; it raises [IndexError] only when [ic]
    reaches twice the number of stored states. *)
Theorem stored_left_state_lookup (T : Type) (x0 : T) (xs : seq T)
  (ic : nat) :
  let i := Z.sub (Z.sub (Z.of_nat (size xs)) (Z.of_nat ic)) (Zpos xH) in
  [/\ (ic < size xs)%N -> py_getitem xs i = Ok (nth x0 (rev xs) ic),
      (size xs <= ic < 2 * size xs)%N ->
      py_getitem xs i = Ok (nth x0 (rev xs) (ic - size xs))
    & (2 * size xs <= ic)%N -> py_getitem xs i = Raise IndexError].
Proof.
move=> i.
have item (k : nat) : (k < size xs)%N ->
    match xs with
    | [::] => Raise IndexError
    | x :: _ => Ok (nth x xs (size xs - k.+1))
    end = Ok (nth x0 (rev xs) k).
  case: xs {i} => [|x xs] // lt_k; rewrite nth_rev //; congr Ok.
  by apply: set_nth_default; rewrite /= subSS ltnS leq_subr.
split.
- move=> lt_ic; rewrite -(item _ lt_ic); move/ltP: lt_ic => lt_ic.
  have ge0 : Z.le Z0 i by rewrite /i; lia.
  have lt_len : Z.lt i (Z.of_nat (size xs)) by rewrite /i; lia.
  rewrite (py_getitem_nonneg ge0 lt_len).
  by have -> : Z.to_nat i = (size xs - ic.+1)%N by rewrite /i -minusE; lia.
- case/andP=> /leP ge_ic /ltP; rewrite -multE => lt_ic.
  have lt_k : (ic - size xs < size xs)%N.
    by apply/ltP; rewrite -minusE; lia.
  have lt0 : Z.lt i Z0 by rewrite /i; lia.
  have ge0 : Z.le Z0 (Z.add (Z.of_nat (size xs)) i) by rewrite /i; lia.
  rewrite -(item _ lt_k) (py_getitem_negative lt0 ge0).
  have -> : Z.to_nat (Z.add (Z.of_nat (size xs)) i)
            = (size xs - (ic - size xs).+1)%N.
    by rewrite /i -!minusE; lia.
  by [].
- move/leP; rewrite -multE => ge_ic.
  by apply: py_getitem_below; rewrite /i; lia.
Qed.

Lemma stored_left_state_lookup_witness :
  [/\ py_getitem [:: 10; 20; 30]%N (Z.sub (Z.sub (Z.of_nat 3) (Z.of_nat 0))
                                      (Zpos xH)) = Ok 30%N,
      py_getitem [:: 10; 20; 30]%N (Z.sub (Z.sub (Z.of_nat 3) (Z.of_nat 3))
                                      (Zpos xH)) = Ok 30%N
    & py_getitem [:: 10; 20; 30]%N (Z.sub (Z.sub (Z.of_nat 3) (Z.of_nat 6))
                                      (Zpos xH)) = Raise IndexError].
Proof.
have [first _ _] := @stored_left_state_lookup nat 0%N [:: 10; 20; 30]%N 0.
have [_ again _] := @stored_left_state_lookup nat 0%N [:: 10; 20; 30]%N 3.
have [_ _ fails] := @stored_left_state_lookup nat 0%N [:: 10; 20; 30]%N 6.
by split; [exact: first | exact: again | exact: fails].
Defined.

(** ** Examples for the window of the ITCF *)

Lemma itcf_slice0_complementary_witness :
  exists su psi_u,
    itcf_unstable = Ok (su, psi_u)
    /\ np_add_mx (ITCF.up_greater (nth (ITCF.zero_slice algC 2) su 0))
         (ITCF.up_lesser (nth (ITCF.zero_slice algC 2) su 0)) = Val 1%:M.
Proof.
have [[su psi_u] eu] := itcf_example_unstable.
have w0 : ITCF.total_weight [:: itcf_walker] != 0.
  by rewrite /ITCF.total_weight big_seq1 oner_neq0.
exists su, psi_u; split=> //.
exact: (proj1
  (@itcf_slice0_complementary algC 2 2 0 unit unit unit unit
     itcf_get_superblock itcf_back_propagate_single itcf_propagator
     itcf_propagate_single itcf_reortho id (Zpos xH) 1 [:: itcf_walker] false
     su psi_u w0 eu)).
Defined.

Lemma calculate_spgf_unstable_uhf_returns_witness :
  exists out, itcf_unstable = Ok out.
Proof.
apply: (@calculate_spgf_unstable_uhf_returns algC 2 2 0 unit unit unit unit
          itcf_get_superblock itcf_back_propagate_single itcf_propagator id 1
          [:: itcf_walker]).
move=> w [<-|[]]; split.
- by rewrite /= /itcf_phi row_mxKl dagger1 mul1mx unitmx1.
- by rewrite unitmxE det_mx00 unitr1.
- by [].
- by move=> c _; split; exact: unitmx1.
Defined.

(** ** The ITCF: every slice of the unstable policy *)

Section UnstableSlices.

Variable C : numClosedFieldType.
Variables nbasis nup ndown : nat.
Variables (config aux_t mdw_t field_configs_t : Type).

Notation wfn := 'M[C]_(nbasis, nup + ndown).
Notation stacked := ('M[C]_nbasis * 'M[C]_nbasis)%type.
Notation uhf_walker := (ITCF.walker C wfn wfn mdw_t field_configs_t).
Notation slice := (ITCF.slice C nbasis).
Notation slice0 := (nth (ITCF.zero_slice C nbasis)).

Variable get_superblock : field_configs_t -> seq config * aux_t.
Variable back_propagate_single :
  wfn -> seq config -> mdw_t -> bool -> wfn * mdw_t * seq wfn.
Variable construct_propagator_matrix : config -> stacked.
Variable copy_init_wfn : seq uhf_walker -> seq uhf_walker.

Notation left_reference :=
  (ITCF.left_reference get_superblock back_propagate_single false).
Notation regular :=
  (ITCF.regular get_superblock back_propagate_single
     construct_propagator_matrix).
Notation path_greens_function :=
  (ITCF.path_greens_function get_superblock back_propagate_single
     construct_propagator_matrix).
Notation unstable_walker_uhf :=
  (ITCF.unstable_walker get_superblock back_propagate_single
     construct_propagator_matrix
     (@ITCF.initial_greens_function_uhf C nbasis nup ndown mdw_t)
     (@ITCF.accumulate_uhf C nbasis)
     (@ITCF.increment_tau_uhf_unstable C nbasis)).
Notation path w := (get_superblock (ITCF.field_configs w)).1.

(** The inner loop from offset [i]: slice [j] with [i < j <= i + m]
    receives the term of the Green's functions moved [j - i] steps along
    the path; the other slices are left alone. *)
Lemma unstable_steps_values (w : uhf_walker) (configs : seq config) i
  (G : stacked * stacked) (spgf : seq slice) :
  (i + size configs < size spgf)%N ->
  (forall c, List.In c configs ->
     (construct_propagator_matrix c).1 \in unitmx
     /\ (construct_propagator_matrix c).2 \in unitmx) ->
  exists st',
    [/\ Py.for_each
          (ITCF.unstable_step (left_t := wfn) (right_t := wfn)
             (mdw_t := mdw_t) (field_configs_t := field_configs_t)
             construct_propagator_matrix (@ITCF.accumulate_uhf C nbasis)
             (@ITCF.increment_tau_uhf_unstable C nbasis) w)
          (zip (iota i (size configs)) configs) (G.1, G.2, spgf) = Ok st',
        size st'.2 = size spgf
      & forall j,
          slice0 st'.2 j =
          if (i < j <= i + size configs)%N then
            let Gj := ITCF.propagated G
                        (take (j - i)
                           [seq construct_propagator_matrix c | c <- configs])
            in ITCF.uhf_term (ITCF.weight w) Gj.1 Gj.2 (slice0 spgf j)
          else slice0 spgf j].
Proof.
elim: configs i G spgf => [|c configs IH] i G spgf lt_sz units.
  exists (G.1, G.2, spgf); split=> // j.
  by rewrite /= addn0; case: ltnP => // lt_ij; rewrite leqNgt lt_ij.
have [u1 u2] := units c (or_introl erefl).
set B := construct_propagator_matrix c.
set G1 : stacked * stacked :=
  ((B.1 *m G.1.1, B.2 *m G.1.2), (G.2.1 *m invmx B.1, G.2.2 *m invmx B.2)).
have lt_i : (i.+1 < size spgf)%N.
  by apply: leq_ltn_trans lt_sz; rewrite /= addnS ltnS leq_addr.
have [spgf1 acc sz1] :=
  accumulate_uhf_total (ITCF.weight w) G1.1 G1.2 lt_i.
have [_ _ at_i others] := update_slice_inv acc.
have [|c' inc|[[Ggr' Gls'] spgf'] [run sz' vals]] := IH i.+1 G1 spgf1.
- by rewrite sz1 addSnnS.
- by apply: units; right.
exists (Ggr', Gls', spgf'); split.
- rewrite /= -/B increment_tau_uhf_unstable_down //= -/G1.
  by rewrite [ITCF.accumulate_uhf _ _ _ _ _]acc /= run.
- by rewrite sz' sz1.
- move=> j; rewrite vals [size (_ :: _)]/= [map _ (_ :: _)]/= addSnnS.
  case: (ltngtP i.+1 j) => [lt_j|gt_j|eq_j].
  + have lt_ij : (i < j)%N by apply: ltnW.
    rewrite !andTb (others j) ?gtn_eqF //.
    case: ifP => // _.
    by rewrite -(subnSK lt_ij).
  + by rewrite !andFb (others j) ?ltn_eqF.
  + rewrite -eq_j !andFb andTb at_i addnS ltnS leq_addr.
    by rewrite subSnn /= take0.
Qed.

Lemma initial_greens_function_uhf_equal_time (A B : wfn) (wts : mdw_t) :
  dagger (lsubmx A) *m lsubmx B \in unitmx ->
  dagger (rsubmx A) *m rsubmx B \in unitmx ->
  ITCF.initial_greens_function_uhf A B wts = Ok (ITCF.equal_time A B).
Proof.
move=> uu ud; rewrite /ITCF.initial_greens_function_uhf.
by rewrite (gab_unit uu) (gab_unit ud).
Qed.

(** What one walker adds to slice [j]. *)
Notation walker_term j :=
  (fun (s : slice) (w : uhf_walker) =>
     if (j <= size (path w))%N then
       ITCF.uhf_term (ITCF.weight w) (path_greens_function w j).1
         (path_greens_function w j).2 s
     else s).

Lemma unstable_walker_values nmax spgf done (w : uhf_walker) :
  size spgf = nmax.+1 -> regular nmax w ->
  exists spgf' done',
    [/\ unstable_walker_uhf (spgf, done) w = Ok (spgf', done'),
        size spgf' = nmax.+1
      & forall j, slice0 spgf' j = walker_term j (slice0 spgf j) w].
Proof.
move=> sz [uu ud le_nmax units]; rewrite /ITCF.unstable_walker /=.
rewrite (initial_greens_function_uhf_equal_time _ uu ud).
set G0 := ITCF.equal_time _ _; rewrite [Py.bind (Ok _) _]/=.
have lt0 : (0 < size spgf)%N by rewrite sz.
have [spgf1 acc sz1] := accumulate_uhf_total (ITCF.weight w) G0.1 G0.2 lt0.
have [_ _ at_0 others] := update_slice_inv acc.
rewrite [ITCF.accumulate_uhf _ _ _ _ _]acc [Py.bind (Ok _) _]/= /Py.enumerate.
have lt_m : (0 + size (path w) < size spgf1)%N.
  by rewrite add0n sz1 sz ltnS.
have [[[Ggr' Gls'] spgf'] [run sz' vals]] :=
  unstable_steps_values
    (ITCF.Walker (ITCF.weight w) (left_reference w).1 (ITCF.phi_init w)
       (left_reference w).2 (ITCF.field_configs w)) G0 lt_m units.
rewrite [Py.for_each _ _ _]run /=.
eexists; eexists; split; first by [].
- by rewrite sz' sz1.
- move=> j; rewrite vals /= add0n subn0 /ITCF.path_greens_function -/G0.
  case: j => [|j] /=; first by rewrite at_0 take0.
  by rewrite (others j.+1).
Qed.

Lemma unstable_walkers_values nmax (psi : seq uhf_walker) spgf done :
  size spgf = nmax.+1 ->
  (forall w, List.In w psi -> regular nmax w) ->
  exists spgf' done',
    [/\ Py.for_each unstable_walker_uhf psi (spgf, done) = Ok (spgf', done'),
        size spgf' = nmax.+1
      & forall j, slice0 spgf' j
                  = foldl (fun s w => walker_term j s w) (slice0 spgf j) psi].
Proof.
elim: psi spgf done => [|w psi IH] spgf done sz reg.
  by exists spgf, done.
have [spgf1 [done1 [run1 sz1 vals1]]] :=
  unstable_walker_values done sz (reg w (or_introl erefl)).
have [|spgf2 [done2 [run2 sz2 vals2]]] := IH spgf1 done1 sz1.
  by move=> w' inw; apply: reg; right.
exists spgf2, done2; split=> //; first by rewrite for_each_cons run1.
by move=> j; rewrite vals2 vals1.
Qed.

Lemma walker_terms_sum j (psi : seq uhf_walker) (a b c d : 'M[C]_nbasis) :
  let reach := [seq w <- psi | (j <= size (path w))%N] in
  foldl (fun s w => walker_term j s w)
    (ITCF.Slice (Val a) (Val b) (Val c) (Val d)) psi
  = ITCF.Slice
      (Val (a + \sum_(w <- reach)
                 ITCF.weight w *: real_part (path_greens_function w j).1.1))
      (Val (b + \sum_(w <- reach)
                 ITCF.weight w *: real_part (path_greens_function w j).1.2))
      (Val (c + \sum_(w <- reach)
                 ITCF.weight w *: real_part (path_greens_function w j).2.1))
      (Val (d + \sum_(w <- reach)
                 ITCF.weight w *: real_part (path_greens_function w j).2.2)).
Proof.
elim: psi a b c d => [|w psi IH] a b c d /=; first by rewrite !big_nil !addr0.
case: ifP => _; last exact: IH.
by rewrite /ITCF.uhf_term /= IH !big_cons !addrA.
Qed.

(** X27.  On a population of regular walkers and a zeroed buffer of
    [nmax + 1] slices the unstable policy returns, and slice [k] of the
    buffer it leaves is, for every [k <= nmax], the sum over the walkers
    whose stored path has at least [k] steps of the weight times the real
    part of the walker's Green's functions propagated [k] steps from its
    equal-time ones, the greater by the propagators on the left and the
    lesser by their inverses on the right, divided by the total weight. *)
Theorem calculate_spgf_unstable_uhf_slices nmax (psi : seq uhf_walker) :
  (forall w, List.In w psi -> regular nmax w) ->
  exists out psi',
    [/\ ITCF.calculate_spgf_unstable_uhf get_superblock back_propagate_single
          construct_propagator_matrix copy_init_wfn (ITCF.zeros C nbasis nmax)
          psi = Ok (out, psi'),
        size out = nmax.+1
      & forall k, (k <= nmax)%N ->
          slice0 out k
          = ITCF.unstable_slice get_superblock back_propagate_single
              construct_propagator_matrix psi k].
Proof.
move=> reg.
have sz0 : size (ITCF.zeros C nbasis nmax) = nmax.+1 by rewrite size_nseq.
have [spgf' [done' [run sz' vals]]] := unstable_walkers_values [::] sz0 reg.
rewrite /ITCF.calculate_spgf_unstable_uhf /ITCF.calculate_spgf_unstable.
rewrite [Py.for_each _ _ _]run /=.
eexists; eexists; split; first by [].
- by rewrite size_map.
- move=> k le_k.
  rewrite (nth_map (ITCF.zero_slice C nbasis)) ?sz' ?ltnS // vals.
  rewrite nth_nseq ltnS le_k /ITCF.zero_slice walker_terms_sum !add0r.
  by [].
Qed.

End UnstableSlices.

Lemma calculate_spgf_unstable_uhf_slices_witness :
  exists out psi',
    itcf_unstable = Ok (out, psi')
    /\ nth (ITCF.zero_slice algC 2) out 1
       = ITCF.unstable_slice itcf_get_superblock itcf_back_propagate_single
           itcf_propagator [:: itcf_walker] 1.
Proof.
have reg : forall w, List.In w [:: itcf_walker] ->
    ITCF.regular itcf_get_superblock itcf_back_propagate_single
      itcf_propagator 1 w.
  move=> w [<-|[]]; split.
  - by rewrite /= /itcf_phi row_mxKl dagger1 mul1mx unitmx1.
  - by rewrite unitmxE det_mx00 unitr1.
  - by [].
  - by move=> c _; split; exact: unitmx1.
have [out [psi' [run _ slices]]] :=
  @calculate_spgf_unstable_uhf_slices algC 2 2 0 unit unit unit unit
    itcf_get_superblock itcf_back_propagate_single itcf_propagator id 1
    [:: itcf_walker] reg.
by exists out, psi'; split; [exact: run | exact: slices].
Defined.

(** ** The local energy from Cholesky vectors *)

Section CholeskyFacts.

Variable C : numClosedFieldType.
Variable nbasis : nat.

(** The two-body integrals that a list of Cholesky vectors stands for. *)
Notation h2e_of L :=
  (fun p q r s : 'I_nbasis => \sum_(Ll <- L) (Ll : 'M[C]_nbasis) p r * Ll q s).

Lemma einsum_cholesky_direct (L : seq 'M[C]_nbasis) (A B : 'M[C]_nbasis) :
  einsum_lpr_lqs_pr_qs L A B = einsum_pqrs_pr_qs (h2e_of L) A B.
Proof.
rewrite /einsum_lpr_lqs_pr_qs /einsum_pqrs_pr_qs.
rewrite exchange_big /=; apply: eq_bigr => p _.
rewrite exchange_big /=; apply: eq_bigr => q _.
rewrite exchange_big /=; apply: eq_bigr => r _.
rewrite exchange_big /=; apply: eq_bigr => s _.
by rewrite !mulr_suml.
Qed.

Lemma einsum_cholesky_exchange (L : seq 'M[C]_nbasis) (A B : 'M[C]_nbasis) :
  einsum_lpr_lqs_ps_qr L A B = einsum_pqrs_ps_qr (h2e_of L) A B.
Proof.
rewrite /einsum_lpr_lqs_ps_qr /einsum_pqrs_ps_qr.
rewrite exchange_big /=; apply: eq_bigr => p _.
rewrite exchange_big /=; apply: eq_bigr => q _.
rewrite exchange_big /=; apply: eq_bigr => r _.
rewrite exchange_big /=; apply: eq_bigr => s _.
by rewrite !mulr_suml.
Qed.

(** X28.  The energies that [local_energy_generic_cholesky] computes from
    the Cholesky vectors [L] are those that [local_energy_generic] computes
    from the two-body integrals [h2e[p,q,r,s] = sum_l L[l,p,r] L[l,q,s]]
    that the vectors decompose. *)
Theorem local_energy_generic_cholesky_agrees (sys : system C nbasis)
  (chol_vecs : seq 'M[C]_nbasis) (G : 'M[C]_nbasis * 'M[C]_nbasis) :
  local_energy_generic_cholesky sys chol_vecs G
  = local_energy_generic
      (System (name sys) (T sys) (U sys) (h2e_of chol_vecs) (ecore sys)) G.
Proof.
rewrite /local_energy_generic_cholesky /local_energy_generic /=.
by rewrite !einsum_cholesky_direct !einsum_cholesky_exchange.
Qed.

End CholeskyFacts.

(** ** The Hubbard local energy of a generalized determinant *)

Section LocalEnergyGHFFacts.

Variable C : numClosedFieldType.
Variable nbasis : nat.

Lemma contract_block (G : 'M[C]_(nbasis + nbasis)) (T0 T1 : 'M[C]_nbasis) :
  \sum_k \sum_l G k l * (block_mx T0 0 0 T1) k l
  = \sum_i \sum_j (T0 i j * ulsubmx G i j + T1 i j * drsubmx G i j).
Proof.
rewrite big_split_ord /=.
have -> : \sum_i \sum_l G (lshift nbasis i) l * (block_mx T0 0 0 T1) (lshift nbasis i) l
          = \sum_i \sum_j T0 i j * ulsubmx G i j.
  apply: eq_bigr => i _; rewrite big_split_ord /= [X in _ + X]big1 ?addr0.
    by move=> j _; rewrite block_mxEur mxE mulr0.
  by apply: eq_bigr => j _; rewrite block_mxEul !mxE mulrC.
have -> : \sum_i \sum_l G (rshift nbasis i) l * (block_mx T0 0 0 T1) (rshift nbasis i) l
          = \sum_i \sum_j T1 i j * drsubmx G i j.
  apply: eq_bigr => i _; rewrite big_split_ord /= [X in X + _]big1 ?add0r.
    by move=> j _; rewrite block_mxEdl mxE mulr0.
  by apply: eq_bigr => j _; rewrite block_mxEdr !mxE mulrC.
by rewrite -big_split /=; apply: eq_bigr => i _; rewrite -big_split.
Qed.

(** X29.  For a single determinant with a non-zero weight and a
    block-diagonal hopping matrix [Text], [local_energy_ghf] returns the
    kinetic energy that [local_energy_hubbard] returns on the two
    spin-diagonal blocks of [G], and the Hubbard potential energy of those
    blocks less [U] times the sum over the sites of the product of the
    diagonal entries of the two spin-mixing blocks.  On a [G] without spin
    mixing the two kernels agree. *)
Theorem local_energy_ghf_single (sys : system C nbasis)
  (G : 'M[C]_(nbasis + nbasis)) (w : C) :
  w != 0 ->
  let: (E, ke, pe0) := local_energy_hubbard sys (ulsubmx G, drsubmx G) in
  let mixing := U sys * \sum_i dlsubmx G i i * ursubmx G i i in
  local_energy_ghf sys (block_mx (T sys).1 0 0 (T sys).2) [:: G] [:: w] w
  = Ok (Val (ke + (pe0 - mixing)), Val ke, Val (pe0 - mixing))
  /\ (ursubmx G = 0 -> dlsubmx G = 0 ->
      local_energy_ghf sys (block_mx (T sys).1 0 0 (T sys).2) [:: G] [:: w] w
      = Ok (Val E, Val ke, Val pe0)).
Proof.
move=> w0; rewrite /local_energy_hubbard /=.
set ke := \sum_i \sum_j _; set pe0 := \sum_i _.
set mixing := U sys * _.
have run :
    local_energy_ghf sys (block_mx (T sys).1 0 0 (T sys).2) [:: G] [:: w] w
    = Ok (Val (ke + (pe0 - mixing)), Val ke, Val (pe0 - mixing)).
  rewrite /local_energy_ghf /einsum_i_ikl_kl /einsum_j_jk /= !big_seq1 /=.
  rewrite contract_block -/ke (negbTE w0) /= [w * ke]mulrC mulfK //.
  have -> : U sys * (w * \sum_k (\row_i (ulsubmx G i i * drsubmx G i i
                                        - dlsubmx G i i * ursubmx G i i)) 0 k)
            / w = pe0 - mixing.
    rewrite [w * _]mulrC mulrA mulfK // /pe0 /mixing !mulr_sumr -sumrB.
    by apply: eq_bigr => i _; rewrite mxE mulrBr !mulrA.
  by [].
split=> // ur0 dl0; rewrite run.
have -> : mixing = 0.
  by rewrite /mixing big1 ?mulr0 // => i _; rewrite ur0 !mxE mulr0.
by rewrite subr0.
Qed.

End LocalEnergyGHFFacts.

Lemma local_energy_ghf_single_witness :
  let G : 'M[algC]_(1 + 1) := 1%:M in
  let: (E, ke, pe0) := local_energy_hubbard bp_system (ulsubmx G, drsubmx G) in
  let mixing := U bp_system * \sum_i dlsubmx G i i * ursubmx G i i in
  local_energy_ghf bp_system (block_mx (T bp_system).1 0 0 (T bp_system).2)
    [:: G] [:: 1] 1
  = Ok (Val (ke + (pe0 - mixing)), Val ke, Val (pe0 - mixing))
  /\ (ursubmx G = 0 -> dlsubmx G = 0 ->
      local_energy_ghf bp_system
        (block_mx (T bp_system).1 0 0 (T bp_system).2) [:: G] [:: 1] 1
      = Ok (Val E, Val ke, Val pe0)).
Proof.
exact: (@local_energy_ghf_single algC 1 bp_system 1%:M 1 (oner_neq0 _)).
Defined.
